(** * RAGE: a shallow embedding of the helpers and of the setup wizard

    The development follows the TypeScript sources:
    - [getCurrentTime]  (the console time stamp),
    - [writeJsonFiles]  (the File Writer), together with the parts of the
      JavaScript runtime it calls ([path.join], [JSON.stringify], the
      synchronous [fs] calls),
    - [prompt], [createFiles] and [start] of [setup.ts] (the setup wizard),
    - the Scope Resolver, which has no source file and is modelled from the
      specification.

    JavaScript strings are modelled by [string]: the sequence of bytes of
    their UTF-8 encoding. *)

From Stdlib Require Import ZArith String Ascii List Bool Lia PrimFloat Uint63.
From stdpp Require Import base option list strings gmap.

Local Open Scope string_scope.
Local Open Scope Z_scope.
Local Open Scope list_scope.

(** ** Strings *)

Module Str.

Lemma app_nil_l (s : string) : "" +:+ s = s.
Proof. reflexivity. Qed.

Lemma app_cons (c : ascii) (s t : string) :
  String c s +:+ t = String c (s +:+ t).
Proof. reflexivity. Qed.

Lemma app_nil_r (s : string) : s +:+ "" = s.
Proof. induction s as [|c s IH]; [done | by rewrite app_cons, IH]. Qed.

Lemma app_assoc (s t u : string) : (s +:+ t) +:+ u = s +:+ (t +:+ u).
Proof. induction s as [|c s IH]; [done | by rewrite !app_cons, IH]. Qed.

Lemma length_app (s t : string) :
  String.length (s +:+ t) = (String.length s + String.length t)%nat.
Proof. induction s as [|c s IH]; [done | rewrite app_cons; simpl; by rewrite IH]. Qed.

(** [s.repeat(n)] *)
Fixpoint repeat (s : string) (n : nat) : string :=
  match n with
  | O => ""
  | S n' => s +:+ repeat s n'
  end.

(** [s] without its first [n] characters. *)
Fixpoint drop (n : nat) (s : string) : string :=
  match n, s with
  | S n', String _ s' => drop n' s'
  | _, _ => s
  end.

(** The first [n] characters of [s]. *)
Fixpoint take (n : nat) (s : string) : string :=
  match n, s with
  | S n', String c s' => String c (take n' s')
  | _, _ => ""
  end.

End Str.

(** ** Decimal numerals

    [Number::toString] on a non-negative integer below 10^21 is its decimal
    numeral without leading zeros. *)

Module Decimal.

Definition digit (d : Z) : ascii := ascii_of_nat (48 + Z.to_nat d).

Definition is_digit (c : ascii) : bool :=
  let n := nat_of_ascii c in ((48 <=? n) && (n <=? 57))%nat.

Definition digit_val (c : ascii) : Z := Z.of_nat (nat_of_ascii c) - 48.

Fixpoint to_digits (fuel : nat) (n : Z) (acc : string) : string :=
  match fuel with
  | O => acc
  | S fuel' =>
      if n <? 10 then String (digit n) acc
      else to_digits fuel' (n / 10) (String (digit (n mod 10)) acc)
  end.

(** The numeral of [n], for [0 <= n]; a numeral has no more digits than
    [n] has bits. *)
Definition numeral (n : Z) : string :=
  to_digits (S (Z.to_nat (Z.log2 n))) n "".

Fixpoint all_digits (s : string) : bool :=
  match s with
  | "" => true
  | String c s' => is_digit c && all_digits s'
  end.

End Decimal.

(** ** Time Source: [getCurrentTime] *)

Module Time.

(** A [Date] object: its time value (milliseconds since the epoch, UTC)
    and the offset of the local time zone at that instant.  [new Date()]
    always holds a finite time value. *)
Record Date := mkDate { timeValue : Z; localTZA : Z }.

Definition msPerSecond : Z := 1000.
Definition msPerMinute : Z := 60000.
Definition msPerHour : Z := 3600000.

Definition LocalTime (d : Date) : Z := timeValue d + localTZA d.

(** [HourFromTime], [MinFromTime], [SecFromTime] of ECMAScript; the
    modulo is the floored one, which is [Z.modulo] for a positive
    divisor. *)
Definition getHours (d : Date) : Z := (LocalTime d / msPerHour) mod 24.
Definition getMinutes (d : Date) : Z := (LocalTime d / msPerMinute) mod 60.
Definition getSeconds (d : Date) : Z := (LocalTime d / msPerSecond) mod 60.

(** [String(n)] for the non-negative integers the getters return. *)
Definition String_ (n : Z) : string := Decimal.numeral n.

(** [s.padStart(targetLength, fillString)] *)
Definition padStart (targetLength : nat) (fillString : string) (s : string) : string :=
  let len := String.length s in
  if (targetLength <=? len)%nat then s
  else if String.eqb fillString "" then s
  else
    let fillLen := (targetLength - len)%nat in
    Str.take fillLen (Str.repeat fillString fillLen) +:+ s.

Definition getCurrentTime (now : Date) : string :=
  let hours := getHours now in
  let minutes := getMinutes now in
  let seconds := getSeconds now in
  let hours := padStart 2 "0" (String_ hours) in
  let minutes := padStart 2 "0" (String_ minutes) in
  let seconds := padStart 2 "0" (String_ seconds) in
  hours +:+ ":" +:+ minutes +:+ ":" +:+ seconds.

(** The shape [dd:dd:dd]. *)
Definition two_digits (s : string) : Prop :=
  ∃ a b, s = String a (String b "") ∧
         Decimal.is_digit a = true ∧ Decimal.is_digit b = true.

Definition clock_shape (s : string) : Prop :=
  ∃ h m sec, s = h +:+ ":" +:+ m +:+ ":" +:+ sec ∧
             two_digits h ∧ two_digits m ∧ two_digits sec.

Example getCurrentTime_morning :
  getCurrentTime (mkDate 1700000000000 3600000) = "23:13:20".
Proof. vm_compute. reflexivity. Qed.

Example getCurrentTime_padded :
  getCurrentTime (mkDate (-1) 0) = "23:59:59" ∧
  getCurrentTime (mkDate 3723000 0) = "01:02:03".
Proof. vm_compute. done. Qed.

Lemma padded_field (n : Z) :
  0 <= n < 60 → two_digits (padStart 2 "0" (String_ n)).
Proof.
  intros Hn.
  assert (Hall : forallb (fun k =>
     match padStart 2 "0" (String_ (Z.of_nat k)) with
     | String a (String b "") => Decimal.is_digit a && Decimal.is_digit b
     | _ => false
     end) (seq 0 60) = true) by (vm_compute; reflexivity).
  rewrite forallb_forall in Hall.
  specialize (Hall (Z.to_nat n)).
  rewrite Z2Nat.id in Hall by lia.
  assert (Hin : In (Z.to_nat n) (seq 0 60)) by (apply in_seq; lia).
  specialize (Hall Hin).
  destruct (padStart 2 "0" (String_ n)) as [|a [|b [|? ?]]]; try discriminate.
  apply andb_prop in Hall as [Ha Hb].
  by exists a, b.
Qed.

(** C9. For every clock reading, [getCurrentTime] returns three
    two-digit, zero-padded decimal fields separated by colons, a string
    of exactly eight characters. *)
Theorem getCurrentTime_shape (now : Date) :
  clock_shape (getCurrentTime now) ∧
  String.length (getCurrentTime now) = 8%nat.
Proof.
  assert (Hh : two_digits (padStart 2 "0" (String_ (getHours now)))).
  { apply padded_field. unfold getHours.
    pose proof (Z.mod_pos_bound (LocalTime now / msPerHour) 24). lia. }
  assert (Hm : two_digits (padStart 2 "0" (String_ (getMinutes now)))).
  { apply padded_field. unfold getMinutes.
    pose proof (Z.mod_pos_bound (LocalTime now / msPerMinute) 60). lia. }
  assert (Hs : two_digits (padStart 2 "0" (String_ (getSeconds now)))).
  { apply padded_field. unfold getSeconds.
    pose proof (Z.mod_pos_bound (LocalTime now / msPerSecond) 60). lia. }
  split.
  - exists (padStart 2 "0" (String_ (getHours now))),
           (padStart 2 "0" (String_ (getMinutes now))),
           (padStart 2 "0" (String_ (getSeconds now))).
    done.
  - unfold getCurrentTime.
    destruct Hh as (a & b & -> & _), Hm as (c & d & -> & _),
             Hs as (e & f & -> & _).
    reflexivity.
Qed.

(** *** Reading the stamp *)

(** The number a two-digit field denotes. *)
Definition field_value (a b : ascii) : Z :=
  10 * Decimal.digit_val a + Decimal.digit_val b.

(** The hours, minutes and seconds of a stamp [hh:mm:ss]. *)
Definition read_clock (s : string) : option (Z * Z * Z) :=
  match s with
  | String h1 (String h2 (String c1 (String m1 (String m2
      (String c2 (String s1 (String s2 ""))))))) =>
      if Ascii.eqb c1 ":" && Ascii.eqb c2 ":" then
        Some (field_value h1 h2, field_value m1 m2, field_value s1 s2)
      else None
  | _ => None
  end.

(** The second of the local day at which the clock was read. *)
Definition second_of_day (now : Date) : Z :=
  (LocalTime now / msPerSecond) mod 86400.

Lemma padded_field_value (n : Z) :
  0 <= n < 60 →
  ∃ a b, padStart 2 "0" (String_ n) = String a (String b "")
         ∧ field_value a b = n.
Proof.
  intros Hn.
  assert (Hall : forallb (fun k =>
     match padStart 2 "0" (String_ (Z.of_nat k)) with
     | String a (String b "") => field_value a b =? Z.of_nat k
     | _ => false
     end) (seq 0 60) = true) by (vm_compute; reflexivity).
  rewrite forallb_forall in Hall.
  specialize (Hall (Z.to_nat n)).
  rewrite Z2Nat.id in Hall by lia.
  assert (Hin : In (Z.to_nat n) (seq 0 60)) by (apply in_seq; lia).
  specialize (Hall Hin).
  destruct (padStart 2 "0" (String_ n)) as [|a [|b [|? ?]]]; try discriminate.
  exists a, b. split; [done|]. by apply Z.eqb_eq.
Qed.

Lemma fields_of_second (now : Date) :
  getHours now = second_of_day now / 3600
  ∧ getMinutes now = (second_of_day now / 60) mod 60
  ∧ getSeconds now = second_of_day now mod 60.
Proof.
  unfold getHours, getMinutes, getSeconds, second_of_day,
    msPerHour, msPerMinute, msPerSecond.
  generalize (LocalTime now). intros l.
  replace (l / 3600000) with (l / 1000 / 3600)
    by (rewrite Z.div_div by lia; done).
  replace (l / 60000) with (l / 1000 / 60)
    by (rewrite Z.div_div by lia; done).
  generalize (l / 1000). intros q.
  change 86400 with (3600 * 24).
  rewrite (Z.rem_mul_r q 3600 24) by lia.
  assert (H3600 : 0 <= q mod 3600 < 3600) by (apply Z.mod_pos_bound; lia).
  split; [|split].
  - rewrite Z.mul_comm, Z.div_add by lia.
    rewrite (Z.div_small (q mod 3600)) by lia. lia.
  - change (3600 * 24) with (60 * 1440).
    rewrite <- (Z.rem_mul_r q 3600 24) by lia.
    change (3600 * 24) with (60 * 1440).
    rewrite (Z.rem_mul_r q 60 1440) by lia.
    rewrite (Z.mul_comm 60), Z.div_add by lia.
    rewrite (Z.div_small (q mod 60)) by (apply Z.mod_pos_bound; lia).
    rewrite Z.add_0_l. change 1440 with (60 * 24).
    rewrite (Z.rem_mul_r (q / 60) 60 24) by lia.
    rewrite (Z.mul_comm 60), Z.mod_add by lia.
    by rewrite Z.mod_mod by lia.
  - rewrite <- (Z.rem_mul_r q 3600 24) by lia.
    change (3600 * 24) with (60 * 1440).
    rewrite (Z.rem_mul_r q 60 1440) by lia.
    rewrite (Z.mul_comm 60), Z.mod_add by lia.
    by rewrite Z.mod_mod by lia.
Qed.

Lemma fields_in_range (now : Date) :
  0 <= getHours now < 24 ∧ 0 <= getMinutes now < 60 ∧ 0 <= getSeconds now < 60.
Proof.
  unfold getHours, getMinutes, getSeconds.
  repeat split; apply Z.mod_pos_bound; lia.
Qed.

Lemma read_clock_getCurrentTime (now : Date) :
  read_clock (getCurrentTime now)
  = Some (getHours now, getMinutes now, getSeconds now).
Proof.
  destruct (fields_in_range now) as (Hh & Hm & Hs).
  unfold getCurrentTime. cbv zeta.
  destruct (padded_field_value (getHours now)) as (a & b & -> & <-); [lia|].
  destruct (padded_field_value (getMinutes now)) as (c & d & -> & <-); [lia|].
  destruct (padded_field_value (getSeconds now)) as (e & f & -> & <-); [lia|].
  reflexivity.
Qed.

Lemma second_of_fields (now : Date) :
  3600 * getHours now + 60 * getMinutes now + getSeconds now
  = second_of_day now.
Proof.
  destruct (fields_of_second now) as (-> & -> & ->).
  assert (Hq : 0 <= second_of_day now < 86400) by (apply Z.mod_pos_bound; lia).
  revert Hq. generalize (second_of_day now). intros q Hq.
  pose proof (Z.div_mod q 60 ltac:(lia)).
  pose proof (Z.div_mod (q / 60) 60 ltac:(lia)).
  assert (q / 60 / 60 = q / 3600) by (rewrite Z.div_div by lia; done).
  lia.
Qed.


(** X2. Two readings of the clock give the same stamp exactly when they
    fall in the same second of the local day: the date and the
    milliseconds are not part of the stamp. *)
Theorem getCurrentTime_same_stamp (a b : Date) :
  getCurrentTime a = getCurrentTime b ↔ second_of_day a = second_of_day b.
Proof.
  split.
  - intros H. rewrite <- !second_of_fields.
    pose proof (read_clock_getCurrentTime a) as Ha.
    rewrite H, read_clock_getCurrentTime in Ha. by injection Ha as -> -> ->.
  - intros H. unfold getCurrentTime. cbv zeta.
    destruct (fields_of_second a) as (-> & -> & ->).
    destruct (fields_of_second b) as (-> & -> & ->).
    by rewrite H.
Qed.

End Time.

(** ** [String.prototype.split] with a one-character separator *)

Module Split.

(** [s.split(sep)]: the pieces between the separators; never empty. *)
Fixpoint split (sep : ascii) (s : string) : list string :=
  match s with
  | "" => [""]
  | String c s' =>
      if Ascii.eqb c sep then "" :: split sep s'
      else match split sep s' with
           | piece :: pieces => String c piece :: pieces
           | [] => [String c ""]
           end
  end.

Fixpoint mem (c : ascii) (s : string) : bool :=
  match s with
  | "" => false
  | String c' s' => Ascii.eqb c' c || mem c s'
  end.

Lemma split_nonempty sep s : split sep s ≠ [].
Proof.
  destruct s as [|c s]; simpl; [done|].
  destruct (Ascii.eqb c sep); [done|].
  by destruct (split sep s).
Qed.

Lemma split_no_sep sep s : mem sep s = false → split sep s = [s].
Proof.
  induction s as [|c s IH]; simpl; [done|].
  destruct (Ascii.eqb c sep); simpl; [done|].
  intros H. by rewrite (IH H).
Qed.

Lemma mem_app c s t : mem c (s +:+ t) = mem c s || mem c t.
Proof.
  induction s as [|c' s IH]; [done|].
  rewrite Str.app_cons. simpl. rewrite IH. by rewrite orb_assoc.
Qed.

(** A piece followed by a separator and more text. *)
Lemma split_app_sep sep s t :
  mem sep s = false →
  split sep (s +:+ String sep t) = s :: split sep t.
Proof.
  induction s as [|c s IH].
  - intros _. rewrite Str.app_nil_l. simpl. by rewrite Ascii.eqb_refl.
  - simpl. destruct (Ascii.eqb c sep) eqn:E; simpl; [done|].
    intros H. by rewrite (IH H).
Qed.

Lemma split_app sep s t :
  split sep (s +:+ String sep t) = split sep s ++ split sep t.
Proof.
  induction s as [|c s IH].
  - rewrite Str.app_nil_l. simpl. by rewrite Ascii.eqb_refl.
  - rewrite Str.app_cons. simpl. rewrite IH.
    destruct (Ascii.eqb c sep); [done|].
    pose proof (split_nonempty sep s) as Hne.
    by destruct (split sep s).
Qed.

Lemma split_pieces sep s : Forall (λ piece, mem sep piece = false) (split sep s).
Proof.
  induction s as [|c s IH]; simpl.
  - by repeat constructor.
  - destruct (Ascii.eqb c sep) eqn:E.
    + by constructor.
    + destruct (split sep s) as [|piece pieces]; [by repeat constructor; simpl; rewrite E|].
      inversion IH as [|? ? Hp Hps]; subst.
      constructor; [|done]. simpl. by rewrite E, Hp.
Qed.

(** Splitting undoes joining, for pieces without the separator. *)
Lemma split_concat sep (pieces : list string) :
  pieces ≠ [] →
  Forall (λ piece, mem sep piece = false) pieces →
  split sep (String.concat (String sep "") pieces) = pieces.
Proof.
  induction pieces as [|piece pieces IH]; [done|].
  intros _ Hall. inversion Hall as [|? ? Hp Hps]; subst.
  destruct pieces as [|piece' pieces].
  - simpl. by apply split_no_sep.
  - change (String.concat (String sep "") (piece :: piece' :: pieces))
      with (piece +:+ String sep (String.concat (String sep "") (piece' :: pieces))).
    rewrite split_app, IH by done.
    by rewrite (split_no_sep _ _ Hp).
Qed.

(** *** Joining the pieces again *)

(** The number of separators in a string. *)
Fixpoint count (sep : ascii) (s : string) : nat :=
  match s with
  | "" => 0
  | String c s' => (if Ascii.eqb c sep then 1 else 0) + count sep s'
  end.

Lemma concat_split sep s : String.concat (String sep "") (split sep s) = s.
Proof.
  induction s as [|c s IH]; [done|]. simpl.
  destruct (Ascii.eqb_spec c sep) as [->|Hc].
  - pose proof (split_nonempty sep s) as Hne.
    destruct (split sep s) as [|piece pieces] eqn:E; [done|].
    change (String.concat (String sep "") ("" :: piece :: pieces))
      with (String sep (String.concat (String sep "") (piece :: pieces))).
    by rewrite IH.
  - pose proof (split_nonempty sep s) as Hne.
    destruct (split sep s) as [|piece pieces] eqn:E; [done|].
    destruct pieces as [|piece' pieces].
    + simpl in *. by rewrite IH.
    + change (String.concat (String sep "") (String c piece :: piece' :: pieces))
        with (String c (String.concat (String sep "") (piece :: piece' :: pieces))).
      by rewrite IH.
Qed.

Lemma length_split sep s : length (split sep s) = S (count sep s).
Proof.
  induction s as [|c s IH]; [done|]. simpl.
  destruct (Ascii.eqb c sep); simpl; [by rewrite IH|].
  pose proof (split_nonempty sep s) as Hne.
  by destruct (split sep s).
Qed.

(** X3. [s.split(sep)] loses nothing: there is one piece more than there
    are separators in [s], no piece holds the separator, and the pieces
    joined by the separator are [s] again. *)
Theorem split_round_trip (sep : ascii) (s : string) :
  length (split sep s) = S (count sep s)
  ∧ Forall (λ piece, mem sep piece = false) (split sep s)
  ∧ String.concat (String sep "") (split sep s) = s.
Proof.
  split; [apply length_split|]. split; [apply split_pieces|apply concat_split].
Qed.

End Split.

(** ** [path.join] (POSIX flavour of Node's [path] module) *)

Module Path.

Definition slash : ascii := "/"%char.

Definition is_dot_or_empty (seg : string) : bool :=
  String.eqb seg "" || String.eqb seg ".".

(** One segment of [normalizeString]; [res] is the result so far, last
    segment first. *)
Definition normalize_step (allowAboveRoot : bool)
    (res : list string) (seg : string) : list string :=
  if is_dot_or_empty seg then res
  else if String.eqb seg ".." then
    match res with
    | top :: res' =>
        if String.eqb top ".." then
          (if allowAboveRoot then ".." :: res else res)
        else res'
    | [] => if allowAboveRoot then [".."] else []
    end
  else seg :: res.

Definition normalizeString (path : string) (allowAboveRoot : bool) : string :=
  String.concat "/"
    (rev (fold_left (normalize_step allowAboveRoot) (Split.split slash path) [])).

Definition starts_with_slash (path : string) : bool :=
  match path with
  | String c _ => Ascii.eqb c slash
  | "" => false
  end.

Fixpoint ends_with_slash (path : string) : bool :=
  match path with
  | "" => false
  | String c "" => Ascii.eqb c slash
  | String _ rest => ends_with_slash rest
  end.

Definition normalize (path : string) : string :=
  if String.eqb path "" then "."
  else
    let isAbsolute := starts_with_slash path in
    let trailingSeparator := ends_with_slash path in
    let path := normalizeString path (negb isAbsolute) in
    if String.eqb path "" then
      (if isAbsolute then "/" else if trailingSeparator then "./" else ".")
    else
      let path := if trailingSeparator then path +:+ "/" else path in
      if isAbsolute then "/" +:+ path else path.

(** [path.join(...args)]: the non-empty arguments, joined by a slash,
    then normalized. *)
Definition join (args : list string) : string :=
  match filter (λ arg, arg ≠ "") args with
  | [] => "."
  | parts => normalize (String.concat "/" parts)
  end.

Example join_plain : join ["out"; "shop"; "users"] = "out/shop/users".
Proof. vm_compute. reflexivity. Qed.

Example join_dot : join ["."; "shop"] = "shop" ∧ join [""; ""] = "."
                   ∧ join ["out/"; "shop"] = "out/shop".
Proof. vm_compute. done. Qed.

Example join_dotdot :
  join ["out"; ".."; "f"] = "f" ∧ join [".."; "a"] = "../a"
  ∧ join ["/"; ".."; "a/"] = "/a/" ∧ join ["out"; ""] = "out".
Proof. vm_compute. done. Qed.

(** *** Joining plain names

    A plain name is a single path component: not empty, not [.] or [..],
    without a slash. *)

Definition plain_name (name : string) : bool :=
  negb (is_dot_or_empty name) && negb (String.eqb name "..")
  && negb (Split.mem slash name).

(** The normalized components of [path], and the component that marks an
    absolute path after splitting. *)
Definition components (path : string) : list string :=
  rev (fold_left (normalize_step (negb (starts_with_slash path)))
         (Split.split slash path) []).

Definition root_mark (path : string) : list string :=
  if starts_with_slash path then [""] else [].

Lemma plain_name_nonempty name : plain_name name = true → name ≠ "".
Proof. by intros H ->. Qed.

Lemma plain_name_no_slash name :
  plain_name name = true → Split.mem slash name = false.
Proof.
  unfold plain_name. intros H.
  apply andb_prop in H as [_ H]. by apply negb_true_iff in H.
Qed.

Lemma normalize_step_plain allow res name :
  plain_name name = true → normalize_step allow res name = name :: res.
Proof.
  unfold plain_name, normalize_step. intros H.
  apply andb_prop in H as [H _]. apply andb_prop in H as [H1 H2].
  apply negb_true_iff in H1, H2. by rewrite H1, H2.
Qed.

Lemma fold_normalize_plain allow names res :
  Forall (λ name, plain_name name = true) names →
  fold_left (normalize_step allow) names res = rev names ++ res.
Proof.
  intros Hall. revert res.
  induction Hall as [|name names Hn _ IH]; intros res; [done|].
  simpl. rewrite (normalize_step_plain _ _ _ Hn), IH.
  by rewrite <- (assoc_L (++)).
Qed.

Lemma starts_with_slash_app s t :
  s ≠ "" → starts_with_slash (s +:+ t) = starts_with_slash s.
Proof. by destruct s. Qed.

Lemma ends_with_slash_app s t :
  t ≠ "" → ends_with_slash (s +:+ t) = ends_with_slash t.
Proof.
  intros Ht. induction s as [|c s IH]; [done|].
  rewrite Str.app_cons. simpl. rewrite IH.
  destruct (s +:+ t) eqn:E; [|done].
  destruct s; [|done]. by rewrite Str.app_nil_l in E.
Qed.

Lemma ends_with_slash_no_slash s :
  Split.mem slash s = false → ends_with_slash s = false.
Proof.
  induction s as [|c s IH]; [done|]. simpl.
  intros H. apply orb_false_elim in H as [Hc Hs].
  destruct s; [done|]. by apply IH.
Qed.

Lemma starts_with_slash_no_slash s :
  Split.mem slash s = false → starts_with_slash s = false.
Proof.
  destruct s as [|c s]; [done|]. simpl.
  intros H. by apply orb_false_elim in H as [Hc _].
Qed.

Lemma concat_snoc sep (l : list string) (x : string) :
  l ≠ [] → String.concat sep (l ++ [x]) = String.concat sep l +:+ sep +:+ x.
Proof.
  induction l as [|y l IH]; [done|]. intros _.
  destruct l as [|z l]; [done|].
  change (String.concat sep ((y :: z :: l) ++ [x]))
    with (y +:+ sep +:+ String.concat sep ((z :: l) ++ [x])).
  rewrite IH by done.
  change (String.concat sep (y :: z :: l))
    with (y +:+ sep +:+ String.concat sep (z :: l)).
  by rewrite !Str.app_assoc.
Qed.

Lemma concat_snoc_nonempty sep (l : list string) (x : string) :
  x ≠ "" → String.concat sep (l ++ [x]) ≠ "".
Proof.
  intros Hx. destruct l as [|y l]; [done|].
  rewrite concat_snoc by done. intros H.
  destruct (String.concat sep (y :: l)); [|done].
  destruct sep; [|done]. by destruct x.
Qed.


Lemma filter_plain (l : list string) :
  Forall (λ name, plain_name name = true) l →
  filter (λ arg : string, arg ≠ "") l = l.
Proof.
  induction 1 as [|name rest Hname _ IH]; [done|].
  rewrite filter_cons_True by by apply plain_name_nonempty.
  by rewrite IH.
Qed.

Lemma normalize_step_ok allow res seg :
  Split.mem slash seg = false →
  Forall (λ c, c ≠ "" ∧ Split.mem slash c = false) res →
  Forall (λ c, c ≠ "" ∧ Split.mem slash c = false) (normalize_step allow res seg).
Proof.
  intros Hseg Hres. unfold normalize_step, is_dot_or_empty.
  destruct (String.eqb_spec seg ""); [done|].
  destruct (String.eqb_spec seg "."); [done|]. simpl.
  destruct (String.eqb_spec seg "..").
  - destruct res as [|top res'].
    + destruct allow; by repeat constructor.
    + inversion Hres; subst.
      destruct (String.eqb top ".."); [|done].
      destruct allow; [|done]. by constructor.
  - by constructor.
Qed.

(** The normalized components are not empty and have no slash. *)
Lemma components_ok (path : string) :
  Forall (λ c, c ≠ "" ∧ Split.mem slash c = false) (components path).
Proof.
  unfold components. apply Forall_rev.
  pose proof (Split.split_pieces slash path) as Hpieces.
  generalize (negb (starts_with_slash path)). intros allow.
  assert (Hnil : Forall (λ c : string, c ≠ "" ∧ Split.mem slash c = false) [])
    by constructor.
  revert Hnil. generalize (@nil string).
  induction Hpieces as [|seg segs Hseg _ IH]; intros res Hres; [done|].
  simpl. apply IH. by apply normalize_step_ok.
Qed.

Lemma concat_cons sep (x : string) (l : list string) :
  l ≠ [] → String.concat sep (x :: l) = x +:+ sep +:+ String.concat sep l.
Proof. by destruct l. Qed.

Lemma concat_plain_relative (l : list string) :
  Forall (λ name, plain_name name = true) l →
  starts_with_slash (String.concat "/" l) = false.
Proof.
  destruct 1 as [|name rest Hname _]; [done|].
  pose proof (plain_name_nonempty _ Hname).
  pose proof (plain_name_no_slash _ Hname).
  destruct rest as [|name' rest].
  - simpl. by apply starts_with_slash_no_slash.
  - rewrite concat_cons by done.
    rewrite starts_with_slash_app by done.
    by apply starts_with_slash_no_slash.
Qed.

Lemma join_filtered (args parts : list string) :
  filter (λ arg : string, arg ≠ "") args = parts → parts ≠ [] →
  join args = normalize (String.concat "/" parts).
Proof. unfold join. intros -> Hne. by destruct parts. Qed.

Section JoinNames.
Variable names : list string.
Hypothesis names_nonempty : names ≠ [].
Hypothesis names_plain : Forall (λ name, plain_name name = true) names.

Lemma names_no_slash : Forall (λ name, Split.mem slash name = false) names.
Proof. eapply Forall_impl; [exact names_plain|]. apply plain_name_no_slash. Qed.

Lemma names_last : ∃ init last, names = init ++ [last] ∧ plain_name last = true.
Proof.
  destruct (exists_last names_nonempty) as (init & last & E).
  exists init, last. split; [done|].
  pose proof names_plain as H. rewrite E in H.
  apply Forall_app in H as [_ H]. by inversion H.
Qed.

Lemma concat_names_nonempty prefix :
  String.concat "/" (prefix ++ names) ≠ "".
Proof.
  destruct names_last as (init & last & -> & Hlast).
  rewrite (assoc_L (++)). apply concat_snoc_nonempty.
  by apply plain_name_nonempty.
Qed.

Lemma concat_names_no_trailing_slash prefix :
  ends_with_slash (prefix +:+ String.concat "/" names) = false.
Proof.
  pose proof (concat_names_nonempty []) as Hne. simpl in Hne.
  rewrite ends_with_slash_app by done.
  destruct names_last as (init & last & -> & Hlast).
  pose proof (plain_name_nonempty _ Hlast).
  pose proof (plain_name_no_slash _ Hlast).
  destruct init as [|x init].
  - simpl. by apply ends_with_slash_no_slash.
  - rewrite concat_snoc by done.
    rewrite <- Str.app_assoc, ends_with_slash_app by done.
    by apply ends_with_slash_no_slash.
Qed.

Lemma concat_names_relative :
  starts_with_slash (String.concat "/" names) = false.
Proof. apply concat_plain_relative, names_plain. Qed.

Lemma filter_names : filter (λ arg : string, arg ≠ "") names = names.
Proof. apply filter_plain, names_plain. Qed.

(** [path.join(dir, name1, ..., namek)] is the normalized [dir] followed
    by the names. *)
Lemma join_names (dir : string) :
  join (dir :: names) =
  (if starts_with_slash dir then "/" else "")
    +:+ String.concat "/" (components dir ++ names).
Proof.
  pose proof (concat_names_nonempty []) as Hne. simpl in Hne.
  destruct (decide (dir = "")) as [->|Hdir].
  - rewrite (join_filtered _ names); [|by rewrite filter_cons_False, filter_names by (by intros H; apply H)|done].
    unfold normalize.
    destruct (String.eqb_spec (String.concat "/" names) ""); [done|].
    rewrite concat_names_relative.
    pose proof (concat_names_no_trailing_slash "") as Ht.
    rewrite Str.app_nil_l in Ht. rewrite Ht.
    unfold normalizeString.
    rewrite Split.split_concat by (done || apply names_no_slash).
    rewrite fold_normalize_plain by done. rewrite app_nil_r, rev_involutive.
    by destruct (String.eqb_spec (String.concat "/" names) "").
  - rewrite (join_filtered _ (dir :: names)); [|by rewrite filter_cons_True, filter_names by done|done].
    rewrite concat_cons by done. unfold normalize.
    destruct (String.eqb_spec (dir +:+ "/" +:+ String.concat "/" names) "")
      as [Hempty|_].
    { by destruct dir. }
    rewrite starts_with_slash_app by done.
    rewrite <- Str.app_assoc, concat_names_no_trailing_slash.
    unfold normalizeString. rewrite Str.app_assoc.
    change ("/" +:+ String.concat "/" names)
      with (String slash (String.concat "/" names)).
    rewrite Split.split_app.
    rewrite Split.split_concat by (done || apply names_no_slash).
    rewrite fold_left_app, fold_normalize_plain by done.
    rewrite rev_app_distr, rev_involutive. fold (components dir).
    pose proof (concat_names_nonempty (components dir)) as Hne'.
    destruct (String.eqb_spec (String.concat "/" (components dir ++ names)) "");
      [done|].
    by destruct (starts_with_slash dir).
Qed.

Lemma split_join_names (dir : string) :
  Split.split slash (join (dir :: names)) =
  root_mark dir ++ components dir ++ names.
Proof.
  rewrite join_names. unfold root_mark.
  assert (Hsplit : Split.split slash (String.concat "/" (components dir ++ names))
                   = components dir ++ names).
  { apply Split.split_concat.
    - intros H. apply app_eq_nil in H as [_ H]. by apply names_nonempty.
    - apply Forall_app. split; [|apply names_no_slash].
      eapply Forall_impl; [apply components_ok|]. by intros ? [_ ?]. }
  destruct (starts_with_slash dir).
  - change ("/" +:+ String.concat "/" (components dir ++ names))
      with (String slash (String.concat "/" (components dir ++ names))).
    cbn [Split.split]. change (Ascii.eqb slash slash) with true.
    cbv iota. by rewrite Hsplit.
  - by rewrite Str.app_nil_l.
Qed.

Lemma join_names_nonempty (dir : string) : join (dir :: names) ≠ "".
Proof.
  rewrite join_names. pose proof (concat_names_nonempty (components dir)) as H.
  destruct (starts_with_slash dir); [done|]. by rewrite Str.app_nil_l.
Qed.

Lemma join_names_absolute (dir : string) :
  starts_with_slash (join (dir :: names)) = starts_with_slash dir.
Proof.
  rewrite join_names. destruct (starts_with_slash dir) eqn:E; [done|].
  rewrite Str.app_nil_l.
  destruct (components dir) as [|c cs] eqn:Ec.
  - apply concat_names_relative.
  - pose proof (components_ok dir) as Hok. rewrite Ec in Hok.
    inversion Hok as [|? ? [Hc1 Hc2] _]; subst.
    simpl app. rewrite concat_cons.
    + rewrite starts_with_slash_app by done.
      by apply starts_with_slash_no_slash.
    + intros H. apply app_eq_nil in H as [_ H]. by apply names_nonempty.
Qed.

Lemma join_names_no_trailing_slash (dir : string) :
  ends_with_slash (join (dir :: names)) = false.
Proof.
  rewrite join_names.
  destruct names_last as (init & last & E & Hlast).
  pose proof (plain_name_nonempty _ Hlast).
  pose proof (plain_name_no_slash _ Hlast).
  rewrite E, (assoc_L (++)).
  destruct (components dir ++ init) as [|x l].
  - simpl. rewrite ends_with_slash_app by done.
    by apply ends_with_slash_no_slash.
  - rewrite concat_snoc by done.
    rewrite <- !Str.app_assoc, ends_with_slash_app by done.
    by apply ends_with_slash_no_slash.
Qed.

End JoinNames.

Lemma plain_name_spec (name : string) :
  plain_name name = true ↔
  name ≠ "" ∧ name ≠ "." ∧ name ≠ ".." ∧ Split.mem slash name = false.
Proof.
  unfold plain_name, is_dot_or_empty.
  destruct (String.eqb_spec name ""), (String.eqb_spec name "."),
    (String.eqb_spec name ".."), (Split.mem slash name); simpl;
    intuition congruence.
Qed.



(** *** Joining a single directory *)

Lemma concat_nonempty_pieces (l : list string) :
  Forall (λ c, c ≠ "" ∧ Split.mem slash c = false) l →
  String.concat "/" l = "" → l = [].
Proof.
  destruct 1 as [|c l [Hc _] _]; [done|].
  destruct l as [|c' l]; [done|].
  rewrite concat_cons by done. by destruct c.
Qed.

Lemma normalizeString_components (path : string) :
  normalizeString path (negb (starts_with_slash path))
  = String.concat "/" (components path).
Proof. reflexivity. Qed.

(** The pieces of [path.join(dir)]: the mark of an absolute path, the
    normalized components, and pieces that name the directory itself. *)
Lemma split_join_dir (dir : string) :
  ∃ extra,
    Split.split slash (join [dir]) = root_mark dir ++ components dir ++ extra ∧
    Forall (λ seg, is_dot_or_empty seg = true) extra ∧
    starts_with_slash (join [dir]) = starts_with_slash dir ∧
    join [dir] ≠ "".
Proof.
  destruct (decide (dir = "")) as [->|Hdir].
  { exists ["."]. vm_compute. repeat split; (done || by repeat constructor). }
  unfold join. rewrite filter_cons_True by done.
  rewrite filter_nil. simpl String.concat. unfold normalize.
  destruct (String.eqb_spec dir ""); [done|].
  rewrite normalizeString_components.
  pose proof (components_ok dir) as Hok.
  assert (Hno : Forall (λ piece, Split.mem slash piece = false) (components dir)).
  { eapply Forall_impl; [exact Hok|]. by intros ? [_ ?]. }
  unfold root_mark.
  destruct (String.eqb_spec (String.concat "/" (components dir)) "") as [HP|HP].
  - rewrite (concat_nonempty_pieces _ Hok HP).
    destruct (starts_with_slash dir).
    + exists [""]. repeat split; (done || by repeat constructor).
    + destruct (ends_with_slash dir).
      * exists ["."; ""]. repeat split; (done || by repeat constructor).
      * exists ["."]. repeat split; (done || by repeat constructor).
  - assert (Hne : components dir ≠ []) by (by intros E; rewrite E in HP).
    assert (Hrel : starts_with_slash (String.concat "/" (components dir)) = false).
    { destruct (components dir) as [|c cs]; [done|].
      inversion Hok as [|? ? [Hc1 Hc2] _]; subst.
      destruct cs as [|c' cs].
      - simpl. by apply starts_with_slash_no_slash.
      - rewrite concat_cons by done. rewrite starts_with_slash_app by done.
        by apply starts_with_slash_no_slash. }
    assert (Hsplit : Split.split slash (String.concat "/" (components dir))
                     = components dir) by by apply Split.split_concat.
    assert (Hsplit' : Split.split slash (String.concat "/" (components dir) +:+ "/")
                      = components dir ++ [""]).
    { rewrite <- Hsplit at 2.
      apply (Split.split_app slash (String.concat "/" (components dir)) ""). }
    exists (if ends_with_slash dir then [""] else []).
    destruct (starts_with_slash dir), (ends_with_slash dir);
      repeat split; try (by repeat constructor).
    + change ("/" +:+ ?x) with (String slash x).
      cbn [Split.split]. change (Ascii.eqb slash slash) with true.
      cbv iota. by rewrite Hsplit'.
    + change ("/" +:+ ?x) with (String slash x).
      cbn [Split.split]. change (Ascii.eqb slash slash) with true.
      cbv iota. by rewrite Hsplit, app_nil_r.
    + by rewrite starts_with_slash_app, Hrel.
    + intros E. by destruct (String.concat "/" (components dir)).
    + by rewrite Hsplit, app_nil_r.
Qed.

(** *** Normal forms *)

(** The stack that [normalizeString] builds, last component first. *)
Definition stack (allow : bool) (path : string) : list string :=
  fold_left (normalize_step allow) (Split.split slash path) [].

(** A stack in normal form: plain names, above the [..] components that
    only a relative path keeps. *)
Definition normal_stack (allow : bool) (res : list string) : Prop :=
  ∃ names k, res = names ++ replicate k ".."
    ∧ Forall (λ name, plain_name name = true) names
    ∧ (allow = false → k = 0%nat).

Lemma normalize_step_normal allow res seg :
  Split.mem slash seg = false →
  normal_stack allow res → normal_stack allow (normalize_step allow res seg).
Proof.
  intros Hseg (names & k & -> & Hnames & Hk). unfold normalize_step.
  destruct (is_dot_or_empty seg) eqn:Hdot; [by exists names, k|].
  destruct (String.eqb_spec seg "..") as [->|Hne].
  - destruct names as [|name names].
    + destruct k as [|k]; simpl.
      * destruct allow; [by exists [], 1%nat|by exists [], 0%nat].
      * destruct allow; [by exists [], (S (S k))|]. by specialize (Hk eq_refl).
    + inversion Hnames as [|? ? Hname Hrest]; subst. simpl.
      apply plain_name_spec in Hname as (_ & _ & Hname & _).
      destruct (String.eqb_spec name ".."); [done|]. by exists names, k.
  - exists (seg :: names), k. split; [done|]. split; [|done].
    constructor; [|done]. apply plain_name_spec.
    unfold is_dot_or_empty in Hdot. apply orb_false_iff in Hdot as [H1 H2].
    apply String.eqb_neq in H1, H2. done.
Qed.

Lemma stack_normal allow path : normal_stack allow (stack allow path).
Proof.
  unfold stack. pose proof (Split.split_pieces slash path) as Hpieces.
  assert (Hnil : normal_stack allow []) by (by exists [], 0%nat).
  revert Hnil. generalize (@nil string).
  induction Hpieces as [|seg segs Hseg _ IH]; intros res Hres; [done|].
  simpl. apply IH. by apply normalize_step_normal.
Qed.

Lemma fold_dots (k : nat) : ∀ j,
  fold_left (normalize_step true) (replicate k "..") (replicate j "..")
  = replicate (k + j) "..".
Proof.
  induction k as [|k IH]; intros j; [done|].
  simpl. replace (normalize_step true (replicate j "..") "..")
    with (replicate (S j) "..") by (by destruct j).
  rewrite IH. by rewrite Nat.add_succ_r.
Qed.

Lemma fold_noop allow (l : list string) : ∀ res,
  Forall (λ seg, is_dot_or_empty seg = true) l →
  fold_left (normalize_step allow) l res = res.
Proof.
  induction l as [|seg l IH]; intros res Hall; [done|].
  inversion Hall as [|? ? Hseg Hrest]; subst. simpl.
  unfold normalize_step at 2. rewrite Hseg. by apply IH.
Qed.

Lemma rev_replicate {A} (k : nat) (x : A) : rev (replicate k x) = replicate k x.
Proof.
  induction k as [|k IH]; [done|]. simpl. rewrite IH.
  clear IH. induction k as [|k IH]; [done|]. simpl. by rewrite IH.
Qed.

(** Pushing the components of a normal form again rebuilds it. *)
Lemma fold_of_normal allow res :
  normal_stack allow res →
  fold_left (normalize_step allow) (rev res) [] = res.
Proof.
  intros (names & k & -> & Hnames & Hk).
  rewrite rev_app_distr, rev_replicate, fold_left_app.
  assert (Hdots : fold_left (normalize_step allow) (replicate k "..") []
                  = replicate k "..").
  { destruct allow.
    - pose proof (fold_dots k 0) as H. by rewrite Nat.add_0_r in H.
    - by rewrite (Hk eq_refl). }
  rewrite Hdots, fold_normalize_plain by by apply Forall_rev.
  by rewrite rev_involutive.
Qed.

Lemma concat_ok_no_trailing_slash (l : list string) :
  Forall (λ c, c ≠ "" ∧ Split.mem slash c = false) l →
  ends_with_slash (String.concat "/" l) = false.
Proof.
  intros Hok. destruct (decide (l = [])) as [->|Hne]; [done|].
  destruct (exists_last Hne) as (init & last & ->).
  apply Forall_app in Hok as [_ Hlast].
  inversion Hlast as [|? ? [Hl1 Hl2] _]; subst.
  destruct (decide (init = [])) as [->|Hinit].
  - simpl. by apply ends_with_slash_no_slash.
  - rewrite concat_snoc by done. rewrite !ends_with_slash_app by done.
    by apply ends_with_slash_no_slash.
Qed.

Lemma join_single (dir : string) : dir ≠ "" → join [dir] = normalize dir.
Proof.
  intros Hdir. unfold join. by rewrite filter_cons_True, filter_nil by done.
Qed.

(** What [normalizeString] does after the pieces of a normalized path. *)
Lemma fold_after_normalize (x : string) (more : list string) :
  x ≠ "" →
  fold_left (normalize_step (negb (starts_with_slash x)))
    (Split.split slash (normalize x) ++ more) []
  = fold_left (normalize_step (negb (starts_with_slash x))) more
      (stack (negb (starts_with_slash x)) x).
Proof.
  intros Hx.
  destruct (split_join_dir x) as (extra & Hsplit & Hextra & _ & _).
  rewrite join_single in Hsplit by done. rewrite Hsplit.
  rewrite !fold_left_app. f_equal.
  rewrite (fold_noop _ extra) by done.
  rewrite (fold_noop _ (root_mark x)).
  - unfold components. apply fold_of_normal, stack_normal.
  - unfold root_mark. destruct (starts_with_slash x); by repeat constructor.
Qed.

Lemma normalize_nonempty (x : string) : normalize x ≠ "".
Proof.
  unfold normalize. destruct (String.eqb x ""); [done|].
  destruct (String.eqb_spec (normalizeString x (negb (starts_with_slash x))) "")
    as [_|Hbody].
  - by destruct (starts_with_slash x), (ends_with_slash x).
  - destruct (normalizeString x (negb (starts_with_slash x))); [done|].
    by destruct (starts_with_slash x), (ends_with_slash x).
Qed.

Lemma normalize_absolute (x : string) :
  x ≠ "" → starts_with_slash (normalize x) = starts_with_slash x.
Proof.
  intros Hx. destruct (split_join_dir x) as (_ & _ & _ & H & _).
  by rewrite join_single in H.
Qed.

(** Normalizing twice is normalizing once. *)
Lemma normalize_idempotent (x : string) : normalize (normalize x) = normalize x.
Proof.
  destruct (decide (x = "")) as [->|Hx]; [done|].
  pose proof (fold_after_normalize x [] Hx) as Hfold.
  rewrite app_nil_r in Hfold. cbn [fold_left] in Hfold.
  pose proof (normalize_absolute x Hx) as Habs.
  pose proof (normalize_nonempty x) as Hne.
  assert (Hbody : normalizeString (normalize x)
                    (negb (starts_with_slash (normalize x)))
                  = normalizeString x (negb (starts_with_slash x))).
  { unfold normalizeString. by rewrite Habs, Hfold. }
  unfold normalize at 1. rewrite Hbody, Habs.
  destruct (String.eqb_spec (normalize x) ""); [done|].
  unfold normalize.
  destruct (String.eqb_spec x ""); [done|].
  rewrite normalizeString_components.
  pose proof (components_ok x) as Hok.
  apply concat_ok_no_trailing_slash in Hok.
  destruct (String.eqb_spec (String.concat "/" (components x)) "") as [E|E].
  - by destruct (starts_with_slash x), (ends_with_slash x).
  - assert (Hslash : String.concat "/" (components x) +:+ "/" ≠ "")
      by (by destruct (String.concat "/" (components x))).
    destruct (starts_with_slash x), (ends_with_slash x);
      rewrite ?Str.app_nil_l, ?ends_with_slash_app, ?Hok by done; done.
Qed.

(** A normalized path followed by more of a path. *)
Lemma normalize_then (x y : string) :
  x ≠ "" →
  normalize (normalize x +:+ String slash y) = normalize (x +:+ String slash y).
Proof.
  intros Hx. pose proof (normalize_nonempty x) as Hne.
  unfold normalize at 1 3.
  destruct (String.eqb_spec (normalize x +:+ String slash y) "") as [E|_];
    [by destruct (normalize x)|].
  destruct (String.eqb_spec (x +:+ String slash y) "") as [E|_];
    [by destruct x|].
  rewrite !starts_with_slash_app, !ends_with_slash_app by done.
  rewrite normalize_absolute by done.
  unfold normalizeString. rewrite !Split.split_app.
  by rewrite fold_after_normalize, fold_left_app.
Qed.

Lemma concat_app_nonempty (l l' : list string) :
  l ≠ [] → l' ≠ [] →
  String.concat "/" (l ++ l')
  = String.concat "/" l +:+ String slash (String.concat "/" l').
Proof.
  intros Hl Hl'. induction l as [|x l IH]; [done|].
  destruct l as [|x' l].
  - simpl. destruct l'; [done|]. done.
  - change ((x :: x' :: l) ++ l') with (x :: ((x' :: l) ++ l')).
    rewrite !concat_cons by done. rewrite IH by done.
    by rewrite !Str.app_assoc.
Qed.

Lemma concat_nonempty_parts (l : list string) :
  l ≠ [] → Forall (λ part, part ≠ "") l → String.concat "/" l ≠ "".
Proof.
  intros Hl Hall. destruct l as [|x l]; [done|].
  inversion Hall; subst. destruct l; [done|].
  rewrite concat_cons by done. by destruct x.
Qed.

Lemma filter_nonempty_parts (args : list string) :
  Forall (λ part, part ≠ "") (filter (λ arg : string, arg ≠ "") args).
Proof. apply Forall_forall. by intros part [? _]%list_elem_of_filter. Qed.

Lemma join_as_normalize (args : list string) :
  filter (λ arg : string, arg ≠ "") args ≠ [] →
  join args
  = normalize (String.concat "/" (filter (λ arg : string, arg ≠ "") args))
  ∧ String.concat "/" (filter (λ arg : string, arg ≠ "") args) ≠ "".
Proof.
  intros Hne. split; [by apply join_filtered|].
  apply concat_nonempty_parts; [done|apply filter_nonempty_parts].
Qed.

(** X4. [path.join] never returns the empty string: with nothing to join
    it returns ["."]. *)
Theorem join_never_empty (args : list string) : join args ≠ "".
Proof.
  destruct (decide (filter (λ arg : string, arg ≠ "") args = [])) as [E|Hne].
  - unfold join. by rewrite E.
  - destruct (join_as_normalize args Hne) as [-> _]. apply normalize_nonempty.
Qed.

(** X5. Joining an already joined path changes nothing. *)
Theorem join_idempotent (args : list string) : join [join args] = join args.
Proof.
  pose proof (normalize_nonempty (String.concat "/" (filter (λ arg : string, arg ≠ "") args))) as Hnorm.
  destruct (decide (filter (λ arg : string, arg ≠ "") args = [])) as [E|Hne].
  - unfold join at 2 3. by rewrite E.
  - destruct (join_as_normalize args Hne) as [-> Hx].
    rewrite join_single by done. apply normalize_idempotent.
Qed.

(** X6. Joining in two steps is joining in one: when some argument of
    the first step is not empty, [path.join(path.join(...args), ...more)]
    is [path.join(...args, ...more)]. *)
Theorem join_join (args more : list string) :
  filter (λ arg : string, arg ≠ "") args ≠ [] →
  join (join args :: more) = join (args ++ more).
Proof.
  intros Hne. destruct (join_as_normalize args Hne) as [Hjoin Hx].
  pose proof (normalize_nonempty (String.concat "/" (filter (λ arg : string, arg ≠ "") args))) as Hnorm.
  destruct (decide (filter (λ arg : string, arg ≠ "") more = [])) as [E|Hmore].
  - rewrite (join_filtered _ [join args]);
      [|by rewrite filter_cons_True, E by (rewrite Hjoin; done)|done].
    rewrite (join_filtered (args ++ more) (filter (λ arg : string, arg ≠ "") args));
      [|by rewrite filter_app, E, app_nil_r|done].
    simpl. rewrite Hjoin. apply normalize_idempotent.
  - rewrite (join_filtered _ (join args :: filter (λ arg : string, arg ≠ "") more));
      [|by rewrite filter_cons_True by (rewrite Hjoin; done)|done].
    rewrite (join_filtered (args ++ more)
               (filter (λ arg : string, arg ≠ "") args
                ++ filter (λ arg : string, arg ≠ "") more));
      [|by rewrite filter_app|by intros [? _]%app_eq_nil].
    rewrite concat_cons, concat_app_nonempty by done.
    rewrite Hjoin. by apply normalize_then.
Qed.

Lemma join_join_witness :
  join (join ["out/"; "./shop"] :: ["a/../users"]) = join (["out/"; "./shop"] ++ ["a/../users"]).
Proof. apply (join_join ["out/"; "./shop"] ["a/../users"]). vm_compute. done. Defined.

End Path.

(** ** JavaScript values and [JSON.stringify] *)

Module JSON.

(** *** Numbers

    A finite number is given by the decimal that [Number::toString]
    prints it from: the digits [mantissa], an integer that does not end
    in [0], and the power of ten [exponent], so that the number is
    [mantissa * 10 ^ exponent], negated when [negative].  For a double
    these are the shortest digits that read back as that double.  Zero
    is [mkNumber false 0 0] and negative zero is [mkNumber true 0 0]:
    [JSON.stringify] prints both as [0], [JSON.parse] reads [-0] as
    negative zero. *)
Record number := mkNumber { negative : bool; mantissa : Z; exponent : Z }.

Definition negative_zero : number := mkNumber true 0 0.

(** The decimals that are printed from their own digits and sign: zero,
    and the numbers whose digits do not end in [0].  Negative zero is
    not one of them, it is printed as zero is. *)
Definition canonical (x : number) : bool :=
  if mantissa x =? 0 then negb (negative x) && (exponent x =? 0)
  else (0 <? mantissa x) && negb (mantissa x mod 10 =? 0).

Fixpoint strip_zeros (fuel : nat) (m e : Z) : Z * Z :=
  match fuel with
  | O => (m, e)
  | S fuel' =>
      if m mod 10 =? 0 then strip_zeros fuel' (m / 10) (e + 1) else (m, e)
  end.

(** The number [m * 10 ^ e] for [0 <= m], negated when [minus]; [m] has
    no more trailing zeros than it has bits. *)
Definition decimal (minus : bool) (m e : Z) : number :=
  if m =? 0 then mkNumber minus 0 0
  else
    let (m', e') := strip_zeros (Z.to_nat (Z.log2 m)) m e in
    mkNumber minus m' e'.

Definition integer (n : Z) : number := decimal (n <? 0) (Z.abs n) 0.

(** *** Values

    The values a payload is built from.  The first six constructors are
    the JSON-compatible values; an object is the list of its own
    enumerable properties, in enumeration order.  [VBigInt] stands for
    the values [JSON.stringify] refuses with a [TypeError]. *)
#[local] Unset Elimination Schemes.
Inductive value : Type :=
| VNull
| VBool (b : bool)
| VNum (x : number)
| VStr (s : string)
| VArr (elements : list value)
| VObj (properties : list (string * value))
| VBigInt (n : Z).
#[local] Set Elimination Schemes.

Definition hex_digit (n : nat) : ascii :=
  if (n <? 10)%nat then ascii_of_nat (48 + n) else ascii_of_nat (87 + n).

(** The escape of one character in [QuoteJSONString]. *)
Definition quote_char (c : ascii) : string :=
  let n := nat_of_ascii c in
  if (n =? 8)%nat then "\b"
  else if (n =? 9)%nat then "\t"
  else if (n =? 10)%nat then "\n"
  else if (n =? 12)%nat then "\f"
  else if (n =? 13)%nat then "\r"
  else if (n =? 34)%nat then String "\"%char (String (ascii_of_nat 34) "")
  else if (n =? 92)%nat then "\\"
  else if (n <? 32)%nat then
    "\u00" +:+ String (hex_digit (n / 16)) (String (hex_digit (n mod 16)) "")
  else String c "".

Fixpoint quote_chars (s : string) : string :=
  match s with
  | "" => ""
  | String c s' => quote_char c +:+ quote_chars s'
  end.

Definition dquote : string := String (ascii_of_nat 34) "".

Definition QuoteJSONString (s : string) : string :=
  dquote +:+ quote_chars s +:+ dquote.

Definition zeros (n : Z) : string := Str.repeat "0" (Z.to_nat n).

(** [Number::toString] in radix 10 on the positive number [s * 10 ^ e]:
    [k] is the number of digits of [s], and the decimal point comes
    after the [n]-th digit. *)
Definition digits_toString (s e : Z) : string :=
  let digits := Decimal.numeral s in
  let k := Z.of_nat (String.length digits) in
  let n := k + e in
  if (-5 <=? n) && (n <=? 21) then
    if k <=? n then digits +:+ zeros (n - k)
    else if 0 <? n then
      Str.take (Z.to_nat n) digits +:+ "." +:+ Str.drop (Z.to_nat n) digits
    else "0." +:+ zeros (- n) +:+ digits
  else
    let e' := n - 1 in
    let exponentSign := if e' <? 0 then "-" else "+" in
    if k =? 1 then
      digits +:+ "e" +:+ exponentSign +:+ Decimal.numeral (Z.abs e')
    else
      Str.take 1 digits +:+ "." +:+ Str.drop 1 digits
        +:+ "e" +:+ exponentSign +:+ Decimal.numeral (Z.abs e').

Definition Number_toString (x : number) : string :=
  if mantissa x =? 0 then "0"
  else (if negative x then "-" else "")
         +:+ digits_toString (mantissa x) (exponent x).

Definition newline : string := String (ascii_of_nat 10) "".

(** The wrapping of the serialized members of an array or object. *)
Definition wrap (opening closing gap stepback indent : string)
    (partial : list string) : string :=
  match partial with
  | [] => opening +:+ closing
  | _ =>
      if String.eqb gap "" then
        opening +:+ String.concat "," partial +:+ closing
      else
        let separator := "," +:+ newline +:+ indent in
        opening +:+ newline +:+ indent +:+ String.concat separator partial
                +:+ newline +:+ stepback +:+ closing
  end.

(** The serializations of all the members, or [None] when one throws. *)
Fixpoint traverse {A B} (f : A → option B) (l : list A) : option (list B) :=
  match l with
  | [] => Some []
  | x :: l' =>
      match f x with
      | None => None
      | Some y =>
          match traverse f l' with
          | None => None
          | Some ys => Some (y :: ys)
          end
      end
  end.

(** [SerializeJSONProperty] with its two helpers [SerializeJSONArray]
    and [SerializeJSONObject]; [None] is the thrown [TypeError]. *)
Fixpoint SerializeJSONProperty (gap indent : string) (v : value)
    : option string :=
  match v with
  | VNull => Some "null"
  | VBool true => Some "true"
  | VBool false => Some "false"
  | VNum x => Some (Number_toString x)
  | VStr s => Some (QuoteJSONString s)
  | VBigInt _ => None
  | VArr elements =>
      let stepback := indent in
      let indent := indent +:+ gap in
      match traverse (SerializeJSONProperty gap indent) elements with
      | None => None
      | Some partial => Some (wrap "[" "]" gap stepback indent partial)
      end
  | VObj properties =>
      let stepback := indent in
      let indent := indent +:+ gap in
      match
        traverse
          (λ property : string * value,
             match SerializeJSONProperty gap indent property.2 with
             | None => None
             | Some strP =>
                 Some (QuoteJSONString property.1 +:+ ":"
                         +:+ (if String.eqb gap "" then "" else " ") +:+ strP)
             end)
          properties
      with
      | None => None
      | Some partial => Some (wrap "{" "}" gap stepback indent partial)
      end
  end.

(** [JSON.stringify(value, null, space)] for a numeric [space]: the gap
    is that many spaces, at most ten. *)
Definition stringify (v : value) (space : nat) : option string :=
  SerializeJSONProperty (Str.repeat " " (Nat.min 10 space)) "" v.

Definition doc1 : value :=
  VArr [VObj [("_id", VNum (integer 1)); ("name", VStr "a")]].

Definition doc2 : value :=
  VArr [VObj [("price", VNum (mkNumber false 1999 (-2)));
              ("stock", VNum (integer 1200));
              ("drift", VNum (mkNumber true 25 (-9)));
              ("tags", VArr [VStr "new"; VNull; VBool false])]].

Example stringify_doc1 :
  stringify doc1 2 =
  Some ("[" +:+ newline +:+
        "  {" +:+ newline +:+
        "    " +:+ dquote +:+ "_id" +:+ dquote +:+ ": 1," +:+ newline +:+
        "    " +:+ dquote +:+ "name" +:+ dquote +:+ ": " +:+ dquote +:+ "a" +:+ dquote +:+ newline +:+
        "  }" +:+ newline +:+
        "]").
Proof. vm_compute. reflexivity. Qed.

Example stringify_small :
  stringify (VArr []) 2 = Some "[]" ∧
  stringify (VObj []) 2 = Some "{}" ∧
  stringify (VArr [VNum (integer (-42)); VNull; VBool true]) 0
    = Some "[-42,null,true]" ∧
  stringify (VArr [VNum (integer 1); VBigInt 1]) 2 = None.
Proof. vm_compute. done. Qed.

Example Number_toString_samples :
  Number_toString (integer 0) = "0"
  ∧ Number_toString (integer 1200) = "1200"
  ∧ integer 1200 = mkNumber false 12 2
  ∧ Number_toString (mkNumber true 15 (-1)) = "-1.5"
  ∧ Number_toString (mkNumber false 314159 (-5)) = "3.14159"
  ∧ Number_toString (mkNumber false 1 (-6)) = "0.000001"
  ∧ Number_toString (mkNumber false 1 (-7)) = "1e-7"
  ∧ Number_toString (mkNumber false 15 (-8)) = "1.5e-7"
  ∧ Number_toString (mkNumber false 1 20) = "100000000000000000000"
  ∧ Number_toString (mkNumber false 1 21) = "1e+21"
  ∧ Number_toString (mkNumber false 12345678901234568 5)
      = "1.2345678901234568e+21".
Proof. vm_compute. done. Qed.

(** ** [JSON.parse] *)

Definition code (c : ascii) : nat := nat_of_ascii c.

(** The white space of JSON: space, tab, line feed, carriage return. *)
Definition is_ws (c : ascii) : bool :=
  ((code c =? 32) || (code c =? 9) || (code c =? 10) || (code c =? 13))%nat.

Fixpoint skip_ws (s : string) : string :=
  match s with
  | String c s' => if is_ws c then skip_ws s' else s
  | "" => ""
  end.

(** *** Strings *)

Definition hex_val (c : ascii) : option N :=
  let n := N_of_ascii c in
  if ((48 <=? n) && (n <=? 57))%N then Some (n - 48)%N
  else if ((97 <=? n) && (n <=? 102))%N then Some (n - 87)%N
  else if ((65 <=? n) && (n <=? 70))%N then Some (n - 55)%N
  else None.

(** The UTF-8 bytes of a code point below 2^16; none for a surrogate,
    which is half of a character. *)
Definition utf8 (cp : N) : option string :=
  if (cp <? 128)%N then Some (String (ascii_of_N cp) "")
  else if (cp <? 2048)%N then
    Some (String (ascii_of_N (192 + cp / 64))
            (String (ascii_of_N (128 + cp mod 64)) ""))
  else if ((55296 <=? cp) && (cp <=? 57343))%N then None
  else
    Some (String (ascii_of_N (224 + cp / 4096))
            (String (ascii_of_N (128 + (cp / 64) mod 64))
               (String (ascii_of_N (128 + cp mod 64)) ""))).

Definition unicode_escape (h1 h2 h3 h4 : ascii) : option string :=
  match hex_val h1, hex_val h2, hex_val h3, hex_val h4 with
  | Some a, Some b, Some c, Some d =>
      utf8 (((a * 16 + b) * 16 + c) * 16 + d)%N
  | _, _, _, _ => None
  end.

(** The character named by a one-letter escape. *)
Definition simple_escape (e : ascii) : option ascii :=
  let n := code e in
  if (n =? 34)%nat then Some e
  else if (n =? 92)%nat then Some e
  else if (n =? 47)%nat then Some e
  else if (n =? 98)%nat then Some (ascii_of_nat 8)
  else if (n =? 102)%nat then Some (ascii_of_nat 12)
  else if (n =? 110)%nat then Some (ascii_of_nat 10)
  else if (n =? 114)%nat then Some (ascii_of_nat 13)
  else if (n =? 116)%nat then Some (ascii_of_nat 9)
  else None.

Definition prepend (chunk : string) (r : option (string * string))
    : option (string * string) :=
  match r with
  | Some (s, rest) => Some (chunk +:+ s, rest)
  | None => None
  end.

(** The characters of a string after its opening quote, up to the closing
    quote; the rest of the input follows. *)
Fixpoint parse_chars (s : string) : option (string * string) :=
  match s with
  | "" => None
  | String c rest =>
      if (code c =? 34)%nat then Some ("", rest)
      else if (code c =? 92)%nat then
        match rest with
        | String e rest' =>
            match simple_escape e with
            | Some d => prepend (String d "") (parse_chars rest')
            | None =>
                if (code e =? 117)%nat then
                  match rest' with
                  | String h1 (String h2 (String h3 (String h4 rest''))) =>
                      match unicode_escape h1 h2 h3 h4 with
                      | Some chunk => prepend chunk (parse_chars rest'')
                      | None => None
                      end
                  | _ => None
                  end
                else None
            end
        | "" => None
        end
      else if (code c <? 32)%nat then None
      else prepend (String c "") (parse_chars rest)
  end.

(** *** Numbers *)

Fixpoint span_digits (s : string) : string * string :=
  match s with
  | String c s' =>
      if Decimal.is_digit c then
        let (digits, rest) := span_digits s' in (String c digits, rest)
      else ("", s)
  | "" => ("", "")
  end.

Fixpoint digits_value (acc : Z) (digits : string) : Z :=
  match digits with
  | "" => acc
  | String c digits' => digits_value (10 * acc + Decimal.digit_val c) digits'
  end.

(** The fraction of a number literal: nothing, or a point and at least
    one digit. *)
Definition parse_fraction (s : string) : option (string * string) :=
  match s with
  | String c s' =>
      if (code c =? 46)%nat then
        let (digits, rest) := span_digits s' in
        if String.eqb digits "" then None else Some (digits, rest)
      else Some ("", s)
  | "" => Some ("", s)
  end.

(** The exponent of a number literal: nothing, or [e] or [E], an
    optional sign and at least one digit. *)
Definition parse_exponent (s : string) : option (Z * string) :=
  match s with
  | String c s' =>
      if (code c =? 101)%nat || (code c =? 69)%nat then
        let (minus, s'') :=
          match s' with
          | String c' t =>
              if (code c' =? 45)%nat then (true, t)
              else if (code c' =? 43)%nat then (false, t)
              else (false, s')
          | "" => (false, s')
          end in
        let (digits, rest) := span_digits s'' in
        if String.eqb digits "" then None
        else
          let e := digits_value 0 digits in
          Some (if minus then - e else e, rest)
      else Some (0, s)
  | "" => Some (0, s)
  end.

(** A number literal after its sign: [0] or a numeral without leading
    zero, then a fraction and an exponent. *)
Definition parse_unsigned (minus : bool) (s : string) : option (number * string) :=
  let (int, rest) := span_digits s in
  match int with
  | "" => None
  | String d more =>
      if (code d =? 48)%nat && negb (String.eqb more "") then None
      else
        match parse_fraction rest with
        | None => None
        | Some (frac, rest) =>
            match parse_exponent rest with
            | None => None
            | Some (e, rest) =>
                Some (decimal minus (digits_value 0 (int +:+ frac))
                        (e - Z.of_nat (String.length frac)), rest)
            end
        end
  end.

Definition parse_number (s : string) : option (number * string) :=
  match s with
  | String c s' =>
      if (code c =? 45)%nat then parse_unsigned true s'
      else parse_unsigned false s
  | "" => None
  end.

(** *** Values *)

(** [CreateDataProperty]: a repeated key replaces the value of the first
    occurrence. *)
Fixpoint set_property (properties : list (string * value)) (key : string)
    (v : value) : list (string * value) :=
  match properties with
  | [] => [(key, v)]
  | (key', v') :: rest =>
      if String.eqb key' key then (key', v) :: rest
      else (key', v') :: set_property rest key v
  end.

Definition object_of (members : list (string * value)) : list (string * value) :=
  fold_left (λ properties member, set_property properties member.1 member.2)
    members [].

(** The input after the literal [word], when it starts with it. *)
Fixpoint expect (word : string) (s : string) : option string :=
  match word with
  | "" => Some s
  | String c word' =>
      match s with
      | String d s' => if Ascii.eqb c d then expect word' s' else None
      | "" => None
      end
  end.

Definition tagged {A B C} (f : A → C) (r : option (A * B)) : option (C * B) :=
  match r with
  | Some (a, b) => Some (f a, b)
  | None => None
  end.

(** A value at the head of the input; the rest of the input follows.
    The fuel bounds the nesting and the number of members read. *)
Fixpoint parse_value (fuel : nat) (s : string) : option (value * string) :=
  match fuel with
  | O => None
  | S fuel' =>
      match s with
      | "" => None
      | String c rest =>
          if (code c =? 110)%nat then
            tagged (λ _, VNull) (option_map (pair tt) (expect "null" s))
          else if (code c =? 116)%nat then
            tagged (λ _, VBool true) (option_map (pair tt) (expect "true" s))
          else if (code c =? 102)%nat then
            tagged (λ _, VBool false) (option_map (pair tt) (expect "false" s))
          else if (code c =? 34)%nat then tagged VStr (parse_chars rest)
          else if (code c =? 91)%nat then
            match skip_ws rest with
            | String c1 rest1 =>
                if (code c1 =? 93)%nat then Some (VArr [], rest1)
                else tagged VArr (parse_elements fuel' (String c1 rest1))
            | "" => None
            end
          else if (code c =? 123)%nat then
            match skip_ws rest with
            | String c1 rest1 =>
                if (code c1 =? 125)%nat then Some (VObj [], rest1)
                else tagged (λ members, VObj (object_of members))
                       (parse_members fuel' (String c1 rest1))
            | "" => None
            end
          else tagged VNum (parse_number s)
      end
  end
with parse_elements (fuel : nat) (s : string) : option (list value * string) :=
  match fuel with
  | O => None
  | S fuel' =>
      match parse_value fuel' s with
      | None => None
      | Some (v, rest) =>
          match skip_ws rest with
          | String c rest1 =>
              if (code c =? 44)%nat then
                tagged (cons v) (parse_elements fuel' (skip_ws rest1))
              else if (code c =? 93)%nat then Some ([v], rest1)
              else None
          | "" => None
          end
      end
  end
with parse_members (fuel : nat) (s : string)
    : option (list (string * value) * string) :=
  match fuel with
  | O => None
  | S fuel' =>
      match s with
      | "" => None
      | String q rest =>
          if (code q =? 34)%nat then
            match parse_chars rest with
            | None => None
            | Some (key, rest1) =>
                match skip_ws rest1 with
                | String c rest2 =>
                    if (code c =? 58)%nat then
                      match parse_value fuel' (skip_ws rest2) with
                      | None => None
                      | Some (v, rest3) =>
                          match skip_ws rest3 with
                          | String c' rest4 =>
                              if (code c' =? 44)%nat then
                                tagged (cons (key, v))
                                  (parse_members fuel' (skip_ws rest4))
                              else if (code c' =? 125)%nat then
                                Some ([(key, v)], rest4)
                              else None
                          | "" => None
                          end
                      end
                    else None
                | "" => None
                end
            end
          else None
      end
  end.

(** [JSON.parse(text)]: one value, surrounded by white space only. *)
Definition parse (text : string) : option value :=
  match parse_value (String.length text) (skip_ws text) with
  | Some (v, rest) => if String.eqb (skip_ws rest) "" then Some v else None
  | None => None
  end.

Definition sample_text : string :=
  " { " +:+ dquote +:+ "a" +:+ dquote +:+ " : [1, -20 ,true,null, {}], "
    +:+ dquote +:+ "b\nAé\/" +:+ dquote +:+ ":" +:+ dquote +:+ dquote
    +:+ ", " +:+ dquote +:+ "a" +:+ dquote +:+ ": [] } ".

Example parse_samples :
  parse sample_text
    = Some (VObj [("a", VArr []);
                  (String "b" (String (ascii_of_nat 10)
                     (String "A" (String (ascii_of_nat 195)
                        (String (ascii_of_nat 169) "/")))), VStr "")])
  ∧ parse "[1,2" = None ∧ parse "01" = None ∧ parse "1 2" = None
  ∧ parse "0" = Some (VNum (integer 0))
  ∧ parse "-0" = Some (VNum negative_zero)
  ∧ parse "-0.0e7" = Some (VNum negative_zero)
  ∧ stringify (VNum negative_zero) 2 = Some "0"
  ∧ parse "[1.5]" = Some (VArr [VNum (mkNumber false 15 (-1))])
  ∧ parse "-12.50e+3" = Some (VNum (integer (-12500)))
  ∧ parse "25E-4" = Some (VNum (mkNumber false 25 (-4)))
  ∧ parse "1." = None ∧ parse ".5" = None ∧ parse "1e" = None
  ∧ parse "+1" = None ∧ parse "0x10" = None
  ∧ (parse <$> stringify doc1 2) = Some (Some doc1)
  ∧ (parse <$> stringify doc2 2) = Some (Some doc2)
  ∧ (parse <$> stringify doc1 0) = Some (Some doc1).
Proof. vm_compute. done. Qed.

(** ** Reading back what [JSON.stringify] wrote *)

(** *** White space *)

Fixpoint ws_only (s : string) : bool :=
  match s with
  | "" => true
  | String c s' => is_ws c && ws_only s'
  end.

Definition starts_solid (s : string) : Prop :=
  match s with
  | String c _ => is_ws c = false
  | "" => False
  end.

Lemma skip_ws_solid s : starts_solid s → skip_ws s = s.
Proof. destruct s as [|c s]; [done|]. simpl. by intros ->. Qed.

Lemma skip_ws_app pre s : ws_only pre = true → skip_ws (pre +:+ s) = skip_ws s.
Proof.
  induction pre as [|c pre IH]; [done|]. simpl.
  intros [Hc Hpre]%andb_prop. by rewrite Hc, IH.
Qed.

Lemma ws_only_app s t : ws_only (s +:+ t) = ws_only s && ws_only t.
Proof.
  induction s as [|c s IH]; [done|]. rewrite Str.app_cons. simpl.
  by rewrite IH, andb_assoc.
Qed.

(** *** Strings *)

Lemma parse_chars_quote_char (c : ascii) (tail : string) :
  parse_chars (quote_char c +:+ tail)
  = prepend (String c "") (parse_chars tail).
Proof.
  destruct c as [[] [] [] [] [] [] [] []]; reflexivity.
Qed.

Lemma parse_chars_quote_chars (s rest : string) :
  parse_chars (quote_chars s +:+ dquote +:+ rest) = Some (s, rest).
Proof.
  induction s as [|c s IH]; [done|].
  simpl quote_chars. rewrite Str.app_assoc, parse_chars_quote_char, IH.
  done.
Qed.

(** *** Numbers *)

Lemma digit_is_digit d : 0 <= d < 10 → Decimal.is_digit (Decimal.digit d) = true.
Proof.
  intros Hd. assert (H : (Z.to_nat d < 10)%nat) by lia. revert H.
  unfold Decimal.digit. generalize (Z.to_nat d). intros n Hn.
  do 10 (destruct n as [|n]; [done|]). lia.
Qed.

Lemma digit_val_digit d : 0 <= d < 10 → Decimal.digit_val (Decimal.digit d) = d.
Proof.
  intros Hd. rewrite <- (Z2Nat.id d) at 2 by lia.
  assert (H : (Z.to_nat d < 10)%nat) by lia. revert H.
  unfold Decimal.digit. generalize (Z.to_nat d). intros n Hn.
  do 10 (destruct n as [|n]; [done|]). lia.
Qed.

Lemma digit_zero d : 0 < d < 10 → code (Decimal.digit d) ≠ 48%nat.
Proof.
  intros Hd. assert (H : (0 < Z.to_nat d < 10)%nat) by lia. revert H.
  unfold Decimal.digit. generalize (Z.to_nat d). intros n Hn.
  destruct n as [|n]; [lia|].
  do 9 (destruct n as [|n]; [done|]). lia.
Qed.

Section ToDigits.

Lemma div10_bound (fuel : nat) (n : Z) :
  10 <= n < 2 ^ Z.of_nat (S fuel) → 0 <= n / 10 < 2 ^ Z.of_nat fuel.
Proof.
  intros [Hlo Hhi]. split; [apply Z.div_pos; lia|].
  rewrite Nat2Z.inj_succ, Z.pow_succ_r in Hhi by lia.
  apply Z.div_lt_upper_bound; lia.
Qed.

Lemma all_digits_cons c s :
  Decimal.all_digits (String c s) = Decimal.is_digit c && Decimal.all_digits s.
Proof. reflexivity. Qed.

Lemma digits_value_cons acc c s :
  digits_value acc (String c s) = digits_value (10 * acc + Decimal.digit_val c) s.
Proof. reflexivity. Qed.

Lemma to_digits_S fuel n acc :
  Decimal.to_digits (S fuel) n acc =
  if n <? 10 then String (Decimal.digit n) acc
  else Decimal.to_digits fuel (n / 10) (String (Decimal.digit (n mod 10)) acc).
Proof. reflexivity. Qed.

Lemma to_digits_facts (fuel : nat) :
  ∀ n acc, 0 <= n < 2 ^ Z.of_nat (S fuel) →
    Decimal.all_digits acc = true →
    Decimal.all_digits (Decimal.to_digits (S fuel) n acc) = true ∧
    digits_value 0 (Decimal.to_digits (S fuel) n acc) = digits_value n acc ∧
    ∃ d rest, Decimal.to_digits (S fuel) n acc = String d rest ∧
              (0 < n → code d ≠ 48%nat) ∧
              (n = 0 → rest = acc).
Proof.
  induction fuel as [|fuel IH]; intros n acc Hn Hacc;
    rewrite to_digits_S; destruct (Z.ltb_spec n 10) as [Hlt|Hge].
  1, 3: assert (Hd : 0 <= n < 10) by lia;
    rewrite all_digits_cons, digits_value_cons, digit_is_digit, Hacc,
      digit_val_digit by done;
    repeat split; try done;
    exists (Decimal.digit n), acc; (split; [done|]); (split; [|done]);
    intros Hpos; apply digit_zero; lia.
  - simpl in Hn. lia.
  - assert (Hmod : 0 <= n mod 10 < 10) by (apply Z.mod_pos_bound; lia).
    destruct (IH (n / 10) (String (Decimal.digit (n mod 10)) acc))
      as (Hall & Hval & d & rest & Heq & Hhead & _).
    + apply div10_bound. lia.
    + by rewrite all_digits_cons, digit_is_digit, Hacc.
    + repeat split; [done| |].
      * rewrite Hval, digits_value_cons, digit_val_digit by done.
        f_equal. pose proof (Z.div_mod n 10). lia.
      * exists d, rest. split; [done|]. split; [|lia].
        intros _. apply Hhead. apply Z.div_str_pos. lia.
Qed.

End ToDigits.

Lemma numeral_facts (n : Z) :
  0 <= n →
  Decimal.all_digits (Decimal.numeral n) = true ∧
  digits_value 0 (Decimal.numeral n) = n ∧
  ∃ d rest, Decimal.numeral n = String d rest ∧
            (0 < n → code d ≠ 48%nat) ∧ (n = 0 → rest = "").
Proof.
  intros Hn. unfold Decimal.numeral.
  apply (to_digits_facts (Z.to_nat (Z.log2 n)) n ""); [|done].
  split; [done|].
  rewrite Nat2Z.inj_succ, Z2Nat.id by apply Z.log2_nonneg.
  destruct (decide (n = 0)) as [->|Hpos]; [done|].
  apply Z.log2_spec. lia.
Qed.

(** A character that continues a number: a digit, a fraction or an
    exponent. *)
Definition continues_number (c : ascii) : bool :=
  Decimal.is_digit c
  || ((code c =? 46) || (code c =? 101) || (code c =? 69)
      || (code c =? 43) || (code c =? 45))%nat.

Definition number_ends (rest : string) : bool :=
  match rest with
  | "" => true
  | String c _ => negb (continues_number c)
  end.

Definition stops_digits (rest : string) : Prop :=
  match rest with
  | "" => True
  | String c _ => Decimal.is_digit c = false
  end.

Lemma number_ends_inv c rest :
  number_ends (String c rest) = true →
  Decimal.is_digit c = false ∧ (code c =? 46)%nat = false
  ∧ (code c =? 101)%nat = false ∧ (code c =? 69)%nat = false.
Proof.
  unfold number_ends, continues_number.
  rewrite negb_true_iff, !orb_false_iff. tauto.
Qed.

Lemma number_ends_stops rest : number_ends rest = true → stops_digits rest.
Proof.
  destruct rest as [|c rest]; [done|]. intros H.
  by apply number_ends_inv in H as [? _].
Qed.

Lemma span_digits_app digits rest :
  Decimal.all_digits digits = true → stops_digits rest →
  span_digits (digits +:+ rest) = (digits, rest).
Proof.
  intros Hall Hrest. induction digits as [|c digits IH].
  - rewrite Str.app_nil_l. destruct rest as [|c rest]; [done|].
    simpl in *. by rewrite Hrest.
  - rewrite all_digits_cons in Hall. apply andb_prop in Hall as [Hc Hall].
    rewrite Str.app_cons. simpl. by rewrite Hc, IH.
Qed.

Lemma is_digit_code c :
  Decimal.is_digit c = true → (48 ≤ code c ≤ 57)%nat.
Proof.
  unfold Decimal.is_digit, code. intros [H1 H2]%andb_prop.
  apply Nat.leb_le in H1, H2. lia.
Qed.

Lemma all_digits_app a b :
  Decimal.all_digits (a +:+ b) = Decimal.all_digits a && Decimal.all_digits b.
Proof.
  induction a as [|c a IH]; [done|].
  by rewrite Str.app_cons, !all_digits_cons, IH, andb_assoc.
Qed.

Lemma digits_value_app a b : ∀ acc,
  digits_value acc (a +:+ b) = digits_value (digits_value acc a) b.
Proof.
  induction a as [|c a IH]; intros acc; [done|].
  rewrite Str.app_cons, !digits_value_cons. apply IH.
Qed.

Lemma zeros_S (z : nat) :
  Str.repeat "0" (S z) = String "0"%char (Str.repeat "0" z).
Proof. reflexivity. Qed.

Lemma all_digits_zeros (z : nat) : Decimal.all_digits (Str.repeat "0" z) = true.
Proof.
  induction z as [|z IH]; [done|]. by rewrite zeros_S, all_digits_cons, IH.
Qed.

Lemma digits_value_zeros (z : nat) : ∀ acc,
  digits_value acc (Str.repeat "0" z) = acc * 10 ^ Z.of_nat z.
Proof.
  induction z as [|z IH]; intros acc.
  - simpl. lia.
  - rewrite zeros_S, digits_value_cons, IH.
    change (Decimal.digit_val "0"%char) with 0.
    rewrite Nat2Z.inj_succ, Z.pow_succ_r by lia. ring.
Qed.

Lemma take_drop (n : nat) : ∀ s, Str.take n s +:+ Str.drop n s = s.
Proof.
  induction n as [|n IH]; intros [|c s]; try reflexivity.
  cbn [Str.take Str.drop]. by rewrite Str.app_cons, IH.
Qed.

Lemma length_drop (n : nat) : ∀ s,
  String.length (Str.drop n s) = (String.length s - n)%nat.
Proof.
  induction n as [|n IH]; intros [|c s]; try reflexivity. apply IH.
Qed.

Lemma all_digits_take_drop (n : nat) s :
  Decimal.all_digits s = true →
  Decimal.all_digits (Str.take n s) = true
  ∧ Decimal.all_digits (Str.drop n s) = true.
Proof.
  intros H. rewrite <- (take_drop n s), all_digits_app in H.
  by apply andb_prop in H.
Qed.

Lemma nonempty_length s : (0 < String.length s)%nat → s ≠ "".
Proof. destruct s; simpl; [lia|done]. Qed.

(** *** Stripping the trailing zeros of a decimal *)

Lemma strip_zeros_spec (fuel : nat) : ∀ (z : nat) m e,
  m mod 10 ≠ 0 → (z ≤ fuel)%nat →
  strip_zeros fuel (m * 10 ^ Z.of_nat z) e = (m, e + Z.of_nat z).
Proof.
  induction fuel as [|fuel IH]; intros z m e Hm Hz.
  - assert (z = 0%nat) as -> by lia. simpl. f_equal; lia.
  - cbn [strip_zeros]. destruct z as [|z].
    + change (10 ^ Z.of_nat 0) with 1. rewrite Z.mul_1_r.
      destruct (Z.eqb_spec (m mod 10) 0); [done|]. f_equal. lia.
    + rewrite Nat2Z.inj_succ, Z.pow_succ_r by lia.
      replace (m * (10 * 10 ^ Z.of_nat z)) with (m * 10 ^ Z.of_nat z * 10) by ring.
      rewrite Z.mod_mul, Z.div_mul by lia. cbn [Z.eqb].
      rewrite IH by (done || lia). f_equal. lia.
Qed.

Lemma decimal_zeros (minus : bool) (m : Z) (z : nat) (e : Z) :
  0 < m → m mod 10 ≠ 0 →
  decimal minus (m * 10 ^ Z.of_nat z) e = mkNumber minus m (e + Z.of_nat z).
Proof.
  intros Hpos Hm. unfold decimal.
  assert (Hpow : 0 < 10 ^ Z.of_nat z) by (apply Z.pow_pos_nonneg; lia).
  destruct (Z.eqb_spec (m * 10 ^ Z.of_nat z) 0) as [E|_]; [nia|].
  rewrite strip_zeros_spec; [done|done|].
  assert (H : Z.of_nat z <= Z.log2 (m * 10 ^ Z.of_nat z)); [|lia].
  rewrite <- (Z.log2_pow2 (Z.of_nat z)) at 1 by lia.
  apply Z.log2_le_mono.
  assert (2 ^ Z.of_nat z <= 10 ^ Z.of_nat z) by (apply Z.pow_le_mono_l; lia).
  nia.
Qed.

Lemma decimal_canonical (minus : bool) (m e : Z) :
  0 < m → m mod 10 ≠ 0 → decimal minus m e = mkNumber minus m e.
Proof.
  intros Hpos Hm.
  pose proof (decimal_zeros minus m 0 e Hpos Hm) as H.
  change (10 ^ Z.of_nat 0) with 1 in H.
  by rewrite Z.mul_1_r, Z.add_0_r in H.
Qed.

Lemma canonical_inv (x : number) :
  canonical x = true →
  x = mkNumber false 0 0 ∨ (0 < mantissa x ∧ mantissa x mod 10 ≠ 0).
Proof.
  destruct x as [minus m e]. unfold canonical. simpl.
  destruct (Z.eqb_spec m 0) as [->|_].
  - intros [Hm He%Z.eqb_eq]%andb_prop. left. destruct minus; [done|].
    by rewrite He.
  - intros [Hpos%Z.ltb_lt Hmod%negb_true_iff%Z.eqb_neq]%andb_prop. by right.
Qed.

(** *** The parts of a number literal *)

Lemma parse_fraction_none rest :
  number_ends rest = true → parse_fraction rest = Some ("", rest).
Proof.
  destruct rest as [|c rest]; [done|].
  intros (_ & H & _)%number_ends_inv. unfold parse_fraction. by rewrite H.
Qed.

Lemma parse_fraction_point frac rest :
  Decimal.all_digits frac = true → frac ≠ "" → stops_digits rest →
  parse_fraction ("." +:+ frac +:+ rest) = Some (frac, rest).
Proof.
  intros Hall Hne Hrest.
  change ("." +:+ frac +:+ rest) with (String "."%char (frac +:+ rest)).
  unfold parse_fraction. change (code "."%char =? 46)%nat with true. cbv iota.
  rewrite span_digits_app by done. by destruct frac.
Qed.

Lemma parse_exponent_none rest :
  number_ends rest = true → parse_exponent rest = Some (0, rest).
Proof.
  destruct rest as [|c rest]; [done|].
  intros (_ & _ & H1 & H2)%number_ends_inv. unfold parse_exponent.
  by rewrite H1, H2.
Qed.

Definition exponent_text (e : Z) : string :=
  "e" +:+ (if e <? 0 then "-" else "+") +:+ Decimal.numeral (Z.abs e).

Lemma parse_exponent_signed (minus : bool) digits rest :
  Decimal.all_digits digits = true → digits ≠ "" → stops_digits rest →
  parse_exponent
    (String "e"%char (String (if minus then "-" else "+")%char (digits +:+ rest)))
  = Some (if minus then - digits_value 0 digits else digits_value 0 digits, rest).
Proof.
  intros Hall Hne Hrest. unfold parse_exponent.
  change (code "e"%char =? 101)%nat with true. cbv iota. cbn [orb].
  destruct minus.
  - change (code "-"%char =? 45)%nat with true. cbv iota.
    rewrite span_digits_app by done. by destruct digits.
  - change (code "+"%char =? 45)%nat with false.
    change (code "+"%char =? 43)%nat with true. cbv iota.
    rewrite span_digits_app by done. by destruct digits.
Qed.

Lemma parse_exponent_text (e : Z) rest :
  stops_digits rest →
  parse_exponent (exponent_text e +:+ rest) = Some (e, rest).
Proof.
  intros Hrest.
  destruct (numeral_facts (Z.abs e)) as (Hall & Hval & d & tail & Heq & _);
    [lia|].
  assert (Hne : Decimal.numeral (Z.abs e) ≠ "") by by rewrite Heq.
  unfold exponent_text. rewrite !Str.app_assoc.
  pose proof (parse_exponent_signed (e <? 0) _ rest Hall Hne Hrest) as H.
  rewrite Hval in H. destruct (Z.ltb_spec e 0).
  - etrans; [exact H|]. f_equal. f_equal. lia.
  - etrans; [exact H|]. f_equal. f_equal. lia.
Qed.

Lemma exponent_text_stops (e : Z) rest :
  stops_digits (exponent_text e +:+ rest).
Proof. done. Qed.

Lemma parse_fraction_exponent (e : Z) rest :
  parse_fraction (exponent_text e +:+ rest)
  = Some ("", exponent_text e +:+ rest).
Proof. done. Qed.

(** What [parse_unsigned] returns when the three parts of the literal
    are read. *)
Lemma parse_unsigned_parts (minus : bool) text int rest1 frac rest2 e rest
    (m x : Z) :
  span_digits text = (int, rest1) →
  (∃ d more, int = String d more
             ∧ (code d =? 48)%nat && negb (String.eqb more "") = false) →
  parse_fraction rest1 = Some (frac, rest2) →
  parse_exponent rest2 = Some (e, rest) →
  decimal minus (digits_value 0 (int +:+ frac))
    (e - Z.of_nat (String.length frac)) = mkNumber minus m x →
  parse_unsigned minus text = Some (mkNumber minus m x, rest).
Proof.
  intros Hint (d & more & -> & Hlead) Hfrac Hexp Hval.
  unfold parse_unsigned. by rewrite Hint, Hlead, Hfrac, Hexp, Hval.
Qed.

(** The digits of a positive number that does not end in [0]. *)
Lemma numeral_digits (m : Z) :
  0 < m →
  ∃ d tail, Decimal.numeral m = String d tail
    ∧ Decimal.all_digits (Decimal.numeral m) = true
    ∧ digits_value 0 (Decimal.numeral m) = m
    ∧ Decimal.is_digit d = true
    ∧ (code d =? 48)%nat = false.
Proof.
  intros Hpos.
  destruct (numeral_facts m) as (Hall & Hval & d & tail & Heq & Hhead & _);
    [lia|].
  exists d, tail. repeat split; try done.
  - rewrite Heq, all_digits_cons in Hall. by apply andb_prop in Hall as [? _].
  - apply Nat.eqb_neq. by apply Hhead.
Qed.

Lemma digits_toString_head (m e : Z) :
  0 < m →
  ∃ c tail, digits_toString m e = String c tail ∧ Decimal.is_digit c = true.
Proof.
  intros Hpos.
  destruct (numeral_digits m Hpos) as (d & tail & Heq & _ & _ & Hd & _).
  unfold digits_toString. rewrite Heq. cbv zeta.
  set (k := Z.of_nat (String.length (String d tail))).
  assert (Hk : 1 <= k) by (unfold k; simpl; lia).
  destruct ((-5 <=? k + e) && (k + e <=? 21)).
  - destruct (Z.leb_spec k (k + e)); [by eexists _, _|].
    destruct (Z.ltb_spec 0 (k + e)); [|by eexists _, _].
    destruct (Z.to_nat (k + e)) as [|n] eqn:E; [lia|].
    cbn [Str.take]. by eexists _, _.
  - destruct (k =? 1); [by eexists _, _|]. cbn [Str.take]. by eexists _, _.
Qed.

(** The form with an exponent. *)
Lemma parse_unsigned_scientific (minus : bool) (m e' : Z) (rest : string) :
  0 < m → m mod 10 ≠ 0 → number_ends rest = true →
  let digits := Decimal.numeral m in
  let k := Z.of_nat (String.length digits) in
  parse_unsigned minus
    ((if k =? 1 then digits +:+ exponent_text e'
      else Str.take 1 digits +:+ "." +:+ Str.drop 1 digits +:+ exponent_text e')
     +:+ rest)
  = Some (mkNumber minus m (e' - (k - 1)), rest).
Proof.
  intros Hpos Hmod Hrest digits k.
  destruct (numeral_digits m Hpos) as (d & tail & Heq & Hall & Hval & Hd & Hd0).
  pose proof (number_ends_stops rest Hrest) as Hstop.
  fold digits in Heq, Hall, Hval.
  assert (Hk : 1 <= k) by (unfold k; rewrite Heq; simpl; lia).
  destruct (Z.eqb_spec k 1) as [Hone|Hmore].
  - apply (parse_unsigned_parts minus _ digits (exponent_text e' +:+ rest)
             "" (exponent_text e' +:+ rest) e').
    + rewrite Str.app_assoc. apply span_digits_app; [done|].
      apply exponent_text_stops.
    + exists d, tail. split; [done|]. by rewrite Hd0.
    + apply parse_fraction_exponent.
    + by apply parse_exponent_text.
    + rewrite Str.app_nil_r, Hval, decimal_canonical by done.
      f_equal. simpl. lia.
  - destruct (all_digits_take_drop 1 digits Hall) as [Htake Hdrop].
    apply (parse_unsigned_parts minus _ (Str.take 1 digits)
             ("." +:+ Str.drop 1 digits +:+ (exponent_text e' +:+ rest))
             (Str.drop 1 digits) (exponent_text e' +:+ rest) e').
    + rewrite !Str.app_assoc. by apply span_digits_app.
    + rewrite Heq. cbn [Str.take]. exists d, "". split; [done|].
      by rewrite Hd0.
    + apply parse_fraction_point; [done| |apply exponent_text_stops].
      apply nonempty_length. rewrite length_drop. lia.
    + by apply parse_exponent_text.
    + rewrite take_drop, Hval, length_drop, decimal_canonical by done.
      f_equal. lia.
Qed.

(** A printed positive number is read back as that number. *)
Lemma parse_unsigned_toString (minus : bool) (m e : Z) (rest : string) :
  0 < m → m mod 10 ≠ 0 → number_ends rest = true →
  parse_unsigned minus (digits_toString m e +:+ rest)
  = Some (mkNumber minus m e, rest).
Proof.
  intros Hpos Hmod Hrest.
  destruct (numeral_digits m Hpos) as (d & tail & Heq & Hall & Hval & Hd & Hd0).
  pose proof (number_ends_stops rest Hrest) as Hstop.
  unfold digits_toString.
  set (digits := Decimal.numeral m) in *.
  set (k := Z.of_nat (String.length digits)).
  assert (Hk : 1 <= k) by (unfold k; rewrite Heq; simpl; lia).
  cbv zeta.
  destruct (Z.leb_spec (-5) (k + e)) as [Hlo|Hlo];
    [destruct (Z.leb_spec (k + e) 21) as [Hhi|Hhi]|]; cbn [andb].
  - destruct (Z.leb_spec k (k + e)) as [Hint|Hint];
      [|destruct (Z.ltb_spec 0 (k + e)) as [Hmid|Hmid]].
    + (* the digits, then zeros *)
      replace (k + e - k) with e by lia.
      apply (parse_unsigned_parts minus _ (digits +:+ zeros e) rest "" rest 0).
      * apply span_digits_app; [|done].
        rewrite all_digits_app, Hall. apply all_digits_zeros.
      * exists d, (tail +:+ zeros e). rewrite Heq, Str.app_cons.
        split; [done|]. by rewrite Hd0.
      * by apply parse_fraction_none.
      * by apply parse_exponent_none.
      * rewrite Str.app_nil_r, digits_value_app, Hval. unfold zeros.
        rewrite digits_value_zeros, decimal_zeros by done.
        f_equal. simpl. lia.
    + (* a point inside the digits *)
      set (n := Z.to_nat (k + e)).
      assert (Hn : (0 < n < String.length digits)%nat) by (unfold n; lia).
      destruct (all_digits_take_drop n digits Hall) as [Htake Hdrop].
      apply (parse_unsigned_parts minus _ (Str.take n digits)
               ("." +:+ Str.drop n digits +:+ rest)
               (Str.drop n digits) rest 0).
      * rewrite !Str.app_assoc. apply span_digits_app; done.
      * destruct n as [|n']; [lia|]. rewrite Heq. cbn [Str.take].
        exists d, (Str.take n' tail). split; [done|]. by rewrite Hd0.
      * apply parse_fraction_point; [done| |done].
        apply nonempty_length. rewrite length_drop. lia.
      * by apply parse_exponent_none.
      * rewrite take_drop, Hval, length_drop, decimal_canonical by done.
        f_equal. lia.
    + (* zeros between the point and the digits *)
      apply (parse_unsigned_parts minus _ "0"
               ("." +:+ (zeros (- (k + e)) +:+ digits) +:+ rest)
               (zeros (- (k + e)) +:+ digits) rest 0).
      * by rewrite !Str.app_assoc.
      * by exists "0"%char, "".
      * apply parse_fraction_point; [|by destruct (zeros _); rewrite Heq|done].
        rewrite all_digits_app, Hall, andb_true_r. apply all_digits_zeros.
      * by apply parse_exponent_none.
      * change ("0" +:+ zeros (- (k + e)) +:+ digits)
          with (String "0"%char (zeros (- (k + e)) +:+ digits)).
        rewrite digits_value_cons, digits_value_app. unfold zeros.
        rewrite digits_value_zeros. change (Decimal.digit_val "0"%char) with 0.
        replace ((10 * 0 + 0) * 10 ^ Z.of_nat (Z.to_nat (- (k + e)))) with 0 by lia.
        rewrite Hval, Str.length_app, decimal_canonical by done.
        f_equal. fold k. 
        assert (String.length (Str.repeat "0" (Z.to_nat (- (k + e))))
                = Z.to_nat (- (k + e))) as ->.
        { generalize (Z.to_nat (- (k + e))). intros z.
          induction z as [|z IH]; [done|]. rewrite zeros_S. simpl. by rewrite IH. }
        lia.
  - (* a large exponent *)
    replace (mkNumber minus m e)
      with (mkNumber minus m (k + e - 1 - (k - 1))) by (f_equal; lia).
    by apply (parse_unsigned_scientific minus m (k + e - 1) rest).
  - (* a small exponent *)
    replace (mkNumber minus m e)
      with (mkNumber minus m (k + e - 1 - (k - 1))) by (f_equal; lia).
    by apply (parse_unsigned_scientific minus m (k + e - 1) rest).
Qed.

Lemma parse_number_toString (x : number) (rest : string) :
  canonical x = true → number_ends rest = true →
  parse_number (Number_toString x +:+ rest) = Some (x, rest).
Proof.
  intros Hx Hrest. unfold Number_toString.
  destruct (canonical_inv x Hx) as [->|[Hpos Hmod]].
  - simpl. change ("0" +:+ rest) with (String "0"%char rest).
    unfold parse_number. change (code "0"%char =? 45)%nat with false. cbv iota.
    apply (parse_unsigned_parts false _ "0" rest "" rest 0).
    + change (String "0"%char rest) with ("0" +:+ rest).
      apply span_digits_app; [done|by apply number_ends_stops].
    + by exists "0"%char, "".
    + by apply parse_fraction_none.
    + by apply parse_exponent_none.
    + done.
  - destruct x as [minus m e]. simpl in *.
    destruct (Z.eqb_spec m 0) as [?|_]; [lia|].
    destruct minus.
    + change (("-" +:+ digits_toString m e) +:+ rest)
        with (String "-"%char (digits_toString m e +:+ rest)).
      unfold parse_number. change (code "-"%char =? 45)%nat with true. cbv iota.
      by apply parse_unsigned_toString.
    + rewrite Str.app_nil_l.
      destruct (digits_toString_head m e Hpos) as (c & tail & Heq & Hc).
      pose proof (is_digit_code c Hc) as Hcode.
      rewrite Heq, Str.app_cons. unfold parse_number.
      destruct (Nat.eqb_spec (code c) 45) as [?|_]; [lia|].
      rewrite <- Str.app_cons, <- Heq. by apply parse_unsigned_toString.
Qed.

(** *** Values *)

(** Induction on values, with the hypothesis for every member. *)
Definition value_ind' (P : value → Prop)
    (Hnull : P VNull) (Hbool : ∀ b, P (VBool b)) (Hnum : ∀ n, P (VNum n))
    (Hstr : ∀ s, P (VStr s))
    (Harr : ∀ l, Forall P l → P (VArr l))
    (Hobj : ∀ l, Forall (λ property, P property.2) l → P (VObj l))
    (Hbig : ∀ n, P (VBigInt n)) : ∀ v, P v :=
  fix F (v : value) : P v :=
    match v with
    | VNull => Hnull
    | VBool b => Hbool b
    | VNum n => Hnum n
    | VStr s => Hstr s
    | VArr l =>
        Harr l ((fix G (l : list value) : Forall P l :=
                   match l with
                   | [] => @List.Forall_nil _ P
                   | x :: l' => @List.Forall_cons _ P x l' (F x) (G l')
                   end) l)
    | VObj l =>
        Hobj l ((fix G (l : list (string * value))
                   : Forall (λ property, P property.2) l :=
                   match l with
                   | [] => @List.Forall_nil _ _
                   | (key, x) :: l' =>
                       @List.Forall_cons _ (λ property, P property.2) (key, x) l'
                         (F x) (G l')
                   end) l)
    | VBigInt n => Hbig n
    end.

Fixpoint distinct (keys : list string) : bool :=
  match keys with
  | [] => true
  | key :: keys' => negb (existsb (String.eqb key) keys') && distinct keys'
  end.

(** A well-formed value: every number is in canonical form, so that none
    is negative zero, and every object has each property name once. *)
Fixpoint well_formed (v : value) : bool :=
  match v with
  | VNum x => canonical x
  | VArr elements => forallb well_formed elements
  | VObj properties =>
      distinct (map fst properties)
      && forallb (λ property, well_formed property.2) properties
  | _ => true
  end.

(** The fuel that reading a value back takes. *)
Fixpoint need (v : value) : nat :=
  match v with
  | VArr elements => S (list_sum (map (λ x, S (need x)) elements))
  | VObj properties =>
      S (list_sum (map (λ property, S (need property.2)) properties))
  | _ => 1
  end.

Lemma set_property_fresh properties key v :
  existsb (String.eqb key) (map fst properties) = false →
  set_property properties key v = properties ++ [(key, v)].
Proof.
  induction properties as [|[key' v'] rest IH]; [done|]. simpl.
  intros [Hkey Hrest]%orb_false_elim.
  rewrite String.eqb_sym, Hkey. by rewrite IH.
Qed.

Lemma existsb_app_false key (l1 l2 : list string) :
  existsb (String.eqb key) (l1 ++ l2) = false ↔
  existsb (String.eqb key) l1 = false ∧ existsb (String.eqb key) l2 = false.
Proof. rewrite existsb_app. apply orb_false_iff. Qed.

Lemma object_of_distinct members :
  distinct (map fst members) = true → object_of members = members.
Proof.
  unfold object_of.
  assert (H : ∀ acc,
    distinct (map fst members) = true →
    forallb (λ key, negb (existsb (String.eqb key) (map fst acc)))
      (map fst members) = true →
    fold_left (λ properties member, set_property properties member.1 member.2)
      members acc = acc ++ members).
  { induction members as [|[key v] rest IH]; intros acc Hd Hacc.
    - by rewrite app_nil_r.
    - simpl in *. apply andb_prop in Hd as [Hkey Hd].
      apply andb_prop in Hacc as [Hfresh Hacc].
      apply negb_true_iff in Hkey, Hfresh.
      rewrite set_property_fresh by done. rewrite IH; [|done|].
      + by rewrite <- (assoc_L (++)).
      + apply forallb_forall. intros key' Hin.
        rewrite forallb_forall in Hacc. specialize (Hacc key' Hin).
        apply negb_true_iff in Hacc. apply negb_true_iff.
        rewrite map_app. apply existsb_app_false. split; [done|]. simpl.
        rewrite orb_false_r. destruct (String.eqb_spec key' key) as [->|]; [|done].
        assert (existsb (String.eqb key) (map fst rest) = true); [|congruence].
        apply existsb_exists. exists key. split; [done|]. apply String.eqb_refl. }
  intros Hd. apply (H [] Hd). apply forallb_forall. by intros.
Qed.

(** The gap of [JSON.stringify(value, null, 2)]. *)
Definition gap2 : string := "  ".

(** A serialization starts with a character that is not white space and
    does not close an array. *)
Definition starts_value (s : string) : Prop :=
  match s with
  | String c _ => is_ws c = false ∧ code c ≠ 93%nat
  | "" => False
  end.

Lemma starts_value_solid s : starts_value s → starts_solid s.
Proof. destruct s; [done|]. by intros [? _]. Qed.

Lemma starts_value_app s t : starts_value s → starts_value (s +:+ t).
Proof. by destruct s. Qed.

Lemma parse_value_number fuel (c : ascii) (s : string) :
  Decimal.is_digit c = true ∨ code c = 45%nat →
  parse_value (S fuel) (String c s) = tagged VNum (parse_number (String c s)).
Proof.
  intros Hc.
  assert (H : (45 ≤ code c ≤ 57)%nat).
  { destruct Hc as [Hc%is_digit_code|Hc]; lia. }
  cbn [parse_value].
  repeat match goal with
         | |- context [(code c =? ?k)%nat] =>
             destruct (Nat.eqb_spec (code c) k); [lia|]
         end.
  done.
Qed.

Lemma Number_toString_head x :
  canonical x = true →
  ∃ c s, Number_toString x = String c s ∧
         (Decimal.is_digit c = true ∨ code c = 45%nat).
Proof.
  intros [->|[Hpos Hmod]]%canonical_inv; [exists "0"%char, ""; by split; [|left]|].
  unfold Number_toString. destruct (Z.eqb_spec (mantissa x) 0) as [?|_]; [lia|].
  destruct (negative x).
  - exists "-"%char, (digits_toString (mantissa x) (exponent x)).
    split; [done|]. by right.
  - destruct (digits_toString_head (mantissa x) (exponent x) Hpos)
      as (c & tail & Heq & Hc).
    exists c, tail. rewrite Str.app_nil_l. split; [done|]. by left.
Qed.

Lemma parse_elements_last fuel s v tail rest :
  parse_value fuel s = Some (v, tail) →
  skip_ws tail = String "]"%char rest →
  parse_elements (S fuel) s = Some ([v], rest).
Proof. intros Hv Htail. cbn [parse_elements]. by rewrite Hv, Htail. Qed.

Lemma parse_elements_more fuel s v tail next l rest :
  parse_value fuel s = Some (v, tail) →
  skip_ws tail = String ","%char next →
  parse_elements fuel (skip_ws next) = Some (l, rest) →
  parse_elements (S fuel) s = Some (v :: l, rest).
Proof.
  intros Hv Htail Hl. cbn [parse_elements]. rewrite Hv, Htail.
  change (code ","%char =? 44)%nat with true. cbv iota. by rewrite Hl.
Qed.

Lemma parse_members_last fuel key s v tail after rest :
  parse_chars s = Some (key, String ":"%char after) →
  parse_value fuel (skip_ws after) = Some (v, tail) →
  skip_ws tail = String "}"%char rest →
  parse_members (S fuel) (String (ascii_of_nat 34) s) = Some ([(key, v)], rest).
Proof.
  intros Hkey Hv Htail. cbn [parse_members].
  change (code (ascii_of_nat 34) =? 34)%nat with true. cbv iota.
  rewrite Hkey. cbn [skip_ws]. change (is_ws ":"%char) with false. cbv iota.
  change (code ":"%char =? 58)%nat with true. cbv iota.
  by rewrite Hv, Htail.
Qed.

Lemma parse_members_more fuel key s v tail after next l rest :
  parse_chars s = Some (key, String ":"%char after) →
  parse_value fuel (skip_ws after) = Some (v, tail) →
  skip_ws tail = String ","%char next →
  parse_members fuel (skip_ws next) = Some (l, rest) →
  parse_members (S fuel) (String (ascii_of_nat 34) s) = Some ((key, v) :: l, rest).
Proof.
  intros Hkey Hv Htail Hl. cbn [parse_members].
  change (code (ascii_of_nat 34) =? 34)%nat with true. cbv iota.
  rewrite Hkey. cbn [skip_ws]. change (is_ws ":"%char) with false. cbv iota.
  change (code ":"%char =? 58)%nat with true. cbv iota.
  rewrite Hv, Htail.
  change (code ","%char =? 44)%nat with true. cbv iota. by rewrite Hl.
Qed.

Lemma concat_length_bound sep (partial : list string) :
  sep ≠ "" →
  (list_sum (map (λ p, S (String.length p)) partial)
   ≤ S (String.length (String.concat sep partial)))%nat.
Proof.
  intros Hsep. induction partial as [|p partial IH]; [simpl; lia|].
  destruct partial as [|p' partial].
  - simpl. lia.
  - rewrite Path.concat_cons by done. rewrite !Str.length_app.
    simpl in *. destruct sep; [done|]. simpl. lia.
Qed.

Lemma parse_value_array fuel body c rest :
  skip_ws body = String c rest → code c ≠ 93%nat →
  parse_value (S fuel) (String "["%char body)
  = tagged VArr (parse_elements fuel (String c rest)).
Proof.
  intros Hbody Hc. cbn [parse_value].
  change (code "["%char =? 110)%nat with false.
  change (code "["%char =? 116)%nat with false.
  change (code "["%char =? 102)%nat with false.
  change (code "["%char =? 34)%nat with false.
  change (code "["%char =? 91)%nat with true. cbv iota.
  rewrite Hbody. by destruct (Nat.eqb_spec (code c) 93).
Qed.

Lemma parse_value_object fuel body rest :
  skip_ws body = String (ascii_of_nat 34) rest →
  parse_value (S fuel) (String "{"%char body)
  = tagged (λ members, VObj (object_of members))
      (parse_members fuel (String (ascii_of_nat 34) rest)).
Proof.
  intros Hbody. cbn [parse_value].
  change (code "{"%char =? 110)%nat with false.
  change (code "{"%char =? 116)%nat with false.
  change (code "{"%char =? 102)%nat with false.
  change (code "{"%char =? 34)%nat with false.
  change (code "{"%char =? 91)%nat with false.
  change (code "{"%char =? 123)%nat with true. cbv iota.
  by rewrite Hbody.
Qed.

(** What is proved of every value, by induction. *)
Definition reads_back (v : value) : Prop :=
  ∀ indent s,
    ws_only indent = true →
    SerializeJSONProperty gap2 indent v = Some s →
    well_formed v = true →
    starts_value s ∧ (need v ≤ String.length s)%nat ∧
    ∀ fuel rest, (need v ≤ fuel)%nat → number_ends rest = true →
      parse_value fuel (s +:+ rest) = Some (v, rest).

Definition separator (indent : string) : string := "," +:+ newline +:+ indent.

Lemma skip_to_value pre s :
  ws_only pre = true → starts_value s → skip_ws (newline +:+ pre +:+ s) = s.
Proof.
  intros Hpre Hs. rewrite <- Str.app_assoc, skip_ws_app.
  - by apply skip_ws_solid, starts_value_solid.
  - by rewrite ws_only_app, Hpre.
Qed.

Lemma skip_to_closing pre (closing : ascii) rest :
  ws_only pre = true → is_ws closing = false →
  skip_ws (newline +:+ pre +:+ String closing rest) = String closing rest.
Proof.
  intros Hpre Hc. rewrite <- Str.app_assoc, skip_ws_app.
  - simpl. by rewrite Hc.
  - by rewrite ws_only_app, Hpre.
Qed.

Lemma elements_read_back (l : list value) :
  Forall reads_back l →
  ∀ indent stepback partial,
    ws_only indent = true → ws_only stepback = true →
    traverse (SerializeJSONProperty gap2 indent) l = Some partial →
    forallb well_formed l = true → l ≠ [] →
    partial ≠ [] ∧ starts_value (String.concat (separator indent) partial) ∧
    (list_sum (map (λ x, S (need x)) l)
     ≤ list_sum (map (λ p, S (String.length p)) partial))%nat ∧
    ∀ fuel rest,
      (list_sum (map (λ x, S (need x)) l) ≤ fuel)%nat →
      parse_elements fuel
        (String.concat (separator indent) partial
           +:+ newline +:+ stepback +:+ String "]"%char rest)
      = Some (l, rest).
Proof.
  induction 1 as [|x l Hx Hl IH]; [done|].
  intros indent stepback partial Hindent Hstepback Hser Hwf _.
  cbn [traverse] in Hser.
  destruct (SerializeJSONProperty gap2 indent x) as [sx|] eqn:Hsx; [|done].
  destruct (traverse _ l) as [py|] eqn:Hpy; [|done].
  injection Hser as <-.
  cbn [forallb] in Hwf. apply andb_prop in Hwf as [Hwfx Hwfl].
  destruct (Hx indent sx Hindent Hsx Hwfx) as (Hhead & Hlen & Hparse).
  destruct l as [|y l'].
  - (* the last element *)
    cbn [traverse] in Hpy. injection Hpy as <-.
    split; [done|]. split; [done|]. split; [simpl; lia|].
    intros fuel rest Hfuel. simpl in Hfuel.
    destruct fuel as [|fuel]; [lia|].
    cbn [String.concat].
    apply (parse_elements_last fuel _ x
             (newline +:+ stepback +:+ String "]"%char rest)).
    + apply Hparse; [lia|done].
    + by apply skip_to_closing.
  - (* more elements follow *)
    destruct (IH indent stepback py Hindent Hstepback Hpy Hwfl)
      as (Hne & Hhead' & Hlen' & Hparse'); [done|].
    split; [done|]. split.
    { rewrite Path.concat_cons by done. by apply starts_value_app. }
    split.
    { simpl in Hlen' |- *. lia. }
    intros fuel rest Hfuel. simpl in Hfuel.
    destruct fuel as [|fuel]; [lia|].
    rewrite Path.concat_cons by done. unfold separator at 1.
    rewrite !Str.app_assoc.
    apply (parse_elements_more fuel _ x
             (String ","%char
                (newline +:+ indent +:+ String.concat (separator indent) py
                   +:+ newline +:+ stepback +:+ String "]"%char rest))
             (newline +:+ indent +:+ String.concat (separator indent) py
                +:+ newline +:+ stepback +:+ String "]"%char rest)).
    + apply Hparse; [lia|done].
    + done.
    + rewrite skip_to_value by (done || by apply starts_value_app).
      apply Hparse'. simpl. lia.
Qed.

(** The text of a member of an object. *)
Definition member_text (key sv : string) : string :=
  QuoteJSONString key +:+ ":" +:+ " " +:+ sv.

Lemma member_text_head key sv tail :
  member_text key sv +:+ tail
  = String (ascii_of_nat 34)
      (quote_chars key +:+ dquote +:+ String ":"%char (" " +:+ sv +:+ tail)).
Proof.
  unfold member_text, QuoteJSONString. rewrite !Str.app_assoc. reflexivity.
Qed.

Lemma member_key_read key sv tail :
  parse_chars (quote_chars key +:+ dquote +:+ String ":"%char (" " +:+ sv +:+ tail))
  = Some (key, String ":"%char (" " +:+ sv +:+ tail)).
Proof. apply parse_chars_quote_chars. Qed.

Lemma member_value_start sv tail :
  starts_value sv → skip_ws (" " +:+ sv +:+ tail) = sv +:+ tail.
Proof.
  intros H. rewrite skip_ws_app by done.
  by apply skip_ws_solid, starts_value_solid, starts_value_app.
Qed.

Lemma list_sum_map_cons {A} (f : A → nat) (a : A) (l : list A) :
  list_sum (map f (a :: l)) = (f a + list_sum (map f l))%nat.
Proof. reflexivity. Qed.

Definition serialize_member (indent : string) (property : string * value)
    : option string :=
  match SerializeJSONProperty gap2 indent property.2 with
  | None => None
  | Some strP => Some (member_text property.1 strP)
  end.

Lemma members_read_back (l : list (string * value)) :
  Forall (λ property, reads_back property.2) l →
  ∀ indent stepback partial,
    ws_only indent = true → ws_only stepback = true →
    traverse (serialize_member indent) l = Some partial →
    forallb (λ property, well_formed property.2) l = true → l ≠ [] →
    partial ≠ [] ∧
    (∃ tail, String.concat (separator indent) partial
             = String (ascii_of_nat 34) tail) ∧
    (list_sum (map (λ property, S (need property.2)) l)
     ≤ list_sum (map (λ p, S (String.length p)) partial))%nat ∧
    ∀ fuel rest,
      (list_sum (map (λ property, S (need property.2)) l) ≤ fuel)%nat →
      parse_members fuel
        (String.concat (separator indent) partial
           +:+ newline +:+ stepback +:+ String "}"%char rest)
      = Some (l, rest).
Proof.
  induction 1 as [|[key x] l Hx Hl IH]; [done|].
  intros indent stepback partial Hindent Hstepback Hser Hwf _.
  cbn [traverse] in Hser. unfold serialize_member at 1 in Hser.
  cbn [fst snd] in Hser, Hx.
  destruct (SerializeJSONProperty gap2 indent x) as [sx|] eqn:Hsx; [|done].
  destruct (traverse _ l) as [py|] eqn:Hpy; [|done].
  injection Hser as <-.
  cbn [forallb snd] in Hwf. apply andb_prop in Hwf as [Hwfx Hwfl].
  destruct (Hx indent sx Hindent Hsx Hwfx) as (Hhead & Hlen & Hparse).
  assert (Hmlen : (String.length sx ≤ String.length (member_text key sx))%nat).
  { unfold member_text. rewrite !Str.length_app. lia. }
  destruct l as [|y l'].
  - (* the last member *)
    cbn [traverse] in Hpy. injection Hpy as <-.
    split; [done|]. split.
    { cbn [String.concat]. rewrite <- (Str.app_nil_r (member_text key sx)).
      rewrite member_text_head. by eexists. }
    split; [repeat rewrite list_sum_map_cons; cbn [snd map list_sum]; lia|].
    intros fuel rest Hfuel. rewrite list_sum_map_cons in Hfuel. cbn [snd] in Hfuel.
    destruct fuel as [|fuel]; [lia|].
    cbn [String.concat]. rewrite member_text_head.
    apply (parse_members_last fuel key _ x
             (newline +:+ stepback +:+ String "}"%char rest)
             (" " +:+ sx +:+ newline +:+ stepback +:+ String "}"%char rest)).
    + apply member_key_read.
    + rewrite member_value_start by done. apply Hparse; [lia|done].
    + by apply skip_to_closing.
  - (* more members follow *)
    destruct (IH indent stepback py Hindent Hstepback Hpy Hwfl)
      as (Hne & [tail' Hhead'] & Hlen' & Hparse'); [done|].
    split; [done|]. split.
    { rewrite Path.concat_cons by done. rewrite member_text_head. by eexists. }
    split.
    { repeat rewrite list_sum_map_cons in Hlen'. repeat rewrite list_sum_map_cons.
      cbn [snd] in *. lia. }
    intros fuel rest Hfuel. repeat rewrite list_sum_map_cons in Hfuel.
    cbn [snd] in Hfuel.
    destruct fuel as [|fuel]; [lia|].
    rewrite Path.concat_cons by done. unfold separator at 1.
    rewrite !Str.app_assoc. rewrite member_text_head.
    apply (parse_members_more fuel key _ x
             (String ","%char
                (newline +:+ indent +:+ String.concat (separator indent) py
                   +:+ newline +:+ stepback +:+ String "}"%char rest))
             (" " +:+ sx +:+ String ","%char
                (newline +:+ indent +:+ String.concat (separator indent) py
                   +:+ newline +:+ stepback +:+ String "}"%char rest))
             (newline +:+ indent +:+ String.concat (separator indent) py
                +:+ newline +:+ stepback +:+ String "}"%char rest)).
    + apply member_key_read.
    + rewrite member_value_start by done. apply Hparse; [lia|done].
    + done.
    + rewrite skip_to_value; [|done|].
      * apply Hparse'. repeat rewrite list_sum_map_cons. cbn [snd]. lia.
      * rewrite Hhead'. done.
Qed.

Lemma number_head_starts_value c s :
  Decimal.is_digit c = true ∨ code c = 45%nat → starts_value (String c s).
Proof.
  intros Hc.
  assert (H : (45 ≤ code c ≤ 57)%nat).
  { destruct Hc as [Hc%is_digit_code|Hc]; lia. }
  split; [|lia]. unfold is_ws.
  repeat match goal with
         | |- context [(code c =? ?k)%nat] =>
             destruct (Nat.eqb_spec (code c) k); [lia|]
         end.
  done.
Qed.

Lemma wrap_nonempty opening closing stepback indent (partial : list string) :
  partial ≠ [] →
  wrap opening closing gap2 stepback indent partial
  = opening +:+ newline +:+ indent +:+ String.concat (separator indent) partial
      +:+ newline +:+ stepback +:+ closing.
Proof. by destruct partial. Qed.

Lemma traverse_nil_inv {A B} (f : A → option B) (l : list A) :
  traverse f l = Some [] → l = [].
Proof.
  destruct l as [|x l]; [done|]. simpl.
  destruct (f x); [|done]. by destruct (traverse f l).
Qed.

Theorem every_value_reads_back (v : value) : reads_back v.
Proof.
  induction v as [| b | n | str | l IH | l IH | n] using value_ind';
    intros indent s Hindent Hser Hwf.
  - injection Hser as <-. repeat split; [done|simpl; lia|].
    intros [|fuel] rest Hfuel _; [simpl in Hfuel; lia|]. reflexivity.
  - destruct b; injection Hser as <-.
    + repeat split; [done|simpl; lia|].
      intros [|fuel] rest Hfuel _; [simpl in Hfuel; lia|]. reflexivity.
    + repeat split; [done|simpl; lia|].
      intros [|fuel] rest Hfuel _; [simpl in Hfuel; lia|]. reflexivity.
  - injection Hser as <-.
    destruct (Number_toString_head n Hwf) as (c & tail & Heq & Hc).
    split; [rewrite Heq; by apply number_head_starts_value|].
    split; [rewrite Heq; simpl; lia|].
    intros [|fuel] rest Hfuel Hrest; [simpl in Hfuel; lia|].
    rewrite Heq, Str.app_cons, parse_value_number by done.
    by rewrite <- Str.app_cons, <- Heq, parse_number_toString.
  - injection Hser as <-.
    split; [done|]. split; [simpl; lia|].
    intros [|fuel] rest Hfuel _; [simpl in Hfuel; lia|].
    unfold QuoteJSONString.
    change (dquote +:+ quote_chars str +:+ dquote)
      with (String (ascii_of_nat 34) (quote_chars str +:+ dquote)).
    rewrite Str.app_cons, Str.app_assoc. cbn [parse_value].
    change (code (ascii_of_nat 34) =? 110)%nat with false.
    change (code (ascii_of_nat 34) =? 116)%nat with false.
    change (code (ascii_of_nat 34) =? 102)%nat with false.
    change (code (ascii_of_nat 34) =? 34)%nat with true. cbv iota.
    by rewrite parse_chars_quote_chars.
  - (* arrays *)
    cbn [SerializeJSONProperty] in Hser. cbv zeta in Hser.
    destruct (traverse _ l) as [partial|] eqn:Hpartial; [|done].
    injection Hser as <-. cbn [well_formed] in Hwf.
    destruct l as [|x l'].
    { cbn [traverse] in Hpartial. injection Hpartial as <-.
      repeat split; [done|simpl; lia|].
      intros [|fuel] rest Hfuel _; [simpl in Hfuel; lia|]. reflexivity. }
    assert (Hindent' : ws_only (indent +:+ gap2) = true)
      by by rewrite ws_only_app, Hindent.
    destruct (elements_read_back (x :: l') IH (indent +:+ gap2) indent partial
                Hindent' Hindent Hpartial Hwf)
      as (Hne & Hhead & Hlen & Hparse); [done|].
    rewrite wrap_nonempty by done.
    split; [done|]. split.
    { pose proof (concat_length_bound (separator (indent +:+ gap2)) partial)
        as Hbound.
      cbn [need]. rewrite !Str.length_app.
      change (String.length "[") with 1%nat.
      change (String.length "]") with 1%nat.
      change (String.length newline) with 1%nat.
      assert (separator (indent +:+ gap2) ≠ "") by done.
      specialize (Hbound H). lia. }
    intros [|fuel] rest Hfuel _; [simpl in Hfuel; lia|].
    cbn [need] in Hfuel.
    change ("[" +:+ ?x) with (String "["%char x).
    rewrite Str.app_cons, !Str.app_assoc.
    destruct (String.concat (separator (indent +:+ gap2)) partial)
      as [|c body] eqn:Hbody; [done|].
    destruct Hhead as [Hsolid Hc].
    assert (Hskip :
      skip_ws (newline +:+ indent +:+ gap2 +:+ String c body
                 +:+ newline +:+ indent +:+ "]" +:+ rest)
      = String c (body +:+ newline +:+ indent +:+ "]" +:+ rest)).
    { rewrite <- (Str.app_assoc indent gap2).
      rewrite skip_to_value; [done|done|]. by rewrite Str.app_cons. }
    rewrite (parse_value_array fuel _ c _ Hskip Hc).
    rewrite <- Str.app_cons.
    change ("]" +:+ rest) with (String "]"%char rest).
    rewrite Hparse by lia. done.
  - (* objects *)
    cbn [SerializeJSONProperty] in Hser. cbv zeta in Hser.
    change (traverse _ l) with (traverse (serialize_member (indent +:+ gap2)) l)
      in Hser.
    destruct (traverse _ l) as [partial|] eqn:Hpartial; [|done].
    injection Hser as <-. cbn [well_formed] in Hwf.
    apply andb_prop in Hwf as [Hkeys Hwf].
    destruct l as [|x l'].
    { cbn [traverse] in Hpartial. injection Hpartial as <-.
      repeat split; [done|simpl; lia|].
      intros [|fuel] rest Hfuel _; [simpl in Hfuel; lia|]. reflexivity. }
    assert (Hindent' : ws_only (indent +:+ gap2) = true)
      by by rewrite ws_only_app, Hindent.
    destruct (members_read_back (x :: l') IH (indent +:+ gap2) indent partial
                Hindent' Hindent Hpartial Hwf)
      as (Hne & [body Hbody] & Hlen & Hparse); [done|].
    rewrite wrap_nonempty by done.
    split; [done|]. split.
    { pose proof (concat_length_bound (separator (indent +:+ gap2)) partial)
        as Hbound.
      cbn [need]. rewrite !Str.length_app.
      change (String.length "{") with 1%nat.
      change (String.length "}") with 1%nat.
      change (String.length newline) with 1%nat.
      assert (separator (indent +:+ gap2) ≠ "") by done.
      specialize (Hbound H). lia. }
    intros [|fuel] rest Hfuel _; [simpl in Hfuel; lia|].
    cbn [need] in Hfuel.
    change ("{" +:+ ?x) with (String "{"%char x).
    rewrite Str.app_cons, !Str.app_assoc.
    rewrite Hbody.
    assert (Hskip :
      skip_ws (newline +:+ indent +:+ gap2 +:+ String (ascii_of_nat 34) body
                 +:+ newline +:+ indent +:+ "}" +:+ rest)
      = String (ascii_of_nat 34) (body +:+ newline +:+ indent +:+ "}" +:+ rest)).
    { rewrite <- (Str.app_assoc indent gap2).
      rewrite skip_to_value; [done|done|]. by rewrite Str.app_cons. }
    rewrite (parse_value_object fuel _ _ Hskip).
    rewrite <- Str.app_cons, <- Hbody.
    change ("}" +:+ rest) with (String "}"%char rest).
    rewrite Hparse by lia. cbn [tagged].
    by rewrite object_of_distinct.
  - done.
Qed.

(** [JSON.parse] undoes [JSON.stringify(value, null, 2)] on well-formed
    values: numbers with a fraction or an exponent, strings with escapes,
    arrays and objects of any depth. *)
Theorem parse_stringify (v : value) (s : string) :
  stringify v 2 = Some s → well_formed v = true → parse s = Some v.
Proof.
  intros Hser Hwf.
  destruct (every_value_reads_back v "" s eq_refl Hser Hwf)
    as (Hhead & Hlen & Hparse).
  unfold parse. rewrite skip_ws_solid by by apply starts_value_solid.
  rewrite <- (Str.app_nil_r s) at 2. by rewrite Hparse.
Qed.

(** ** What [JSON.stringify] refuses, and what it prints *)

(** A value without a [BigInt] inside. *)
Fixpoint serializable (v : value) : bool :=
  match v with
  | VBigInt _ => false
  | VArr elements => forallb serializable elements
  | VObj properties => forallb (λ property, serializable property.2) properties
  | _ => true
  end.

Lemma traverse_none {A B} (f : A → option B) (l : list A) :
  traverse f l = None ↔ Exists (λ x, f x = None) l.
Proof.
  induction l as [|x l IH]; simpl.
  - split; [done|]. by intros H%Exists_nil.
  - rewrite Exists_cons. destruct (f x) as [y|]; [|by split; [left|]].
    destruct (traverse f l) as [ys|].
    + split; [done|]. intros [?|H]; [done|]. by apply IH in H.
    + split; [|done]. intros _. right. by apply IH.
Qed.

Lemma forallb_false {A} (f : A → bool) (l : list A) :
  forallb f l = false ↔ Exists (λ x, f x = false) l.
Proof.
  induction l as [|x l IH]; simpl.
  - split; [done|]. by intros H%Exists_nil.
  - rewrite Exists_cons, andb_false_iff, IH. done.
Qed.

Lemma serialize_none (v : value) : ∀ gap indent,
  SerializeJSONProperty gap indent v = None ↔ serializable v = false.
Proof.
  induction v as [| b | n | str | l IH | l IH | n] using value_ind';
    intros gap indent; try done.
  - by destruct b.
  - simpl. rewrite forallb_false.
    destruct (traverse _ l) as [partial|] eqn:E.
    + split; [done|]. intros H. exfalso.
      assert (Hnone : traverse (SerializeJSONProperty gap (indent +:+ gap)) l = None).
      { apply traverse_none. rewrite Exists_exists in H.
        destruct H as (x & Hin & Hx). apply Exists_exists. exists x.
        split; [done|]. rewrite Forall_forall in IH. by apply IH. }
      congruence.
    + split; [|done]. intros _. apply traverse_none in E.
      rewrite Exists_exists in E. destruct E as (x & Hin & Hx).
      apply Exists_exists. exists x. split; [done|].
      rewrite Forall_forall in IH. by apply (IH x Hin gap (indent +:+ gap)).
  - simpl. rewrite forallb_false.
    destruct (traverse _ l) as [partial|] eqn:E.
    + split; [done|]. intros H. exfalso.
      rewrite Exists_exists in H. destruct H as (x & Hin & Hx).
      rewrite Forall_forall in IH.
      apply (IH x Hin gap (indent +:+ gap)) in Hx.
      assert (Hnone : traverse
                (λ property : string * value,
                   match SerializeJSONProperty gap (indent +:+ gap) property.2 with
                   | None => None
                   | Some strP =>
                       Some (QuoteJSONString property.1 +:+ ":"
                               +:+ (if String.eqb gap "" then "" else " ") +:+ strP)
                   end) l = None).
      { apply traverse_none, Exists_exists. exists x. split; [done|].
        by rewrite Hx. }
      congruence.
    + split; [|done]. intros _. apply traverse_none in E.
      rewrite Exists_exists in E. destruct E as (x & Hin & Hx).
      apply Exists_exists. exists x. split; [done|].
      rewrite Forall_forall in IH. apply (IH x Hin gap (indent +:+ gap)).
      by destruct (SerializeJSONProperty gap (indent +:+ gap) x.2).
Qed.

(** *** The characters of the text *)

Definition line_feed : ascii := ascii_of_nat 10.

(** A line feed, or a character that is not a control character. *)
Definition layout_char (c : ascii) : bool :=
  ((32 <=? code c) || (code c =? 10))%nat.

Fixpoint clean_text (s : string) : bool :=
  match s with
  | "" => true
  | String c s' => layout_char c && clean_text s'
  end.

(** A text without a character below 32: no line feed either. *)
Fixpoint printable (s : string) : bool :=
  match s with
  | "" => true
  | String c s' => (32 <=? code c)%nat && printable s'
  end.

Lemma clean_text_app s t : clean_text (s +:+ t) = clean_text s && clean_text t.
Proof.
  induction s as [|c s IH]; [done|].
  rewrite Str.app_cons. simpl. by rewrite IH, andb_assoc.
Qed.

Lemma clean_text_concat sep (l : list string) :
  clean_text sep = true → Forall (λ s, clean_text s = true) l →
  clean_text (String.concat sep l) = true.
Proof.
  intros Hsep. induction 1 as [|s l Hs Hl IH]; [done|].
  destruct l as [|s' l]; [done|].
  change (String.concat sep (s :: s' :: l))
    with (s +:+ sep +:+ String.concat sep (s' :: l)).
  by rewrite !clean_text_app, Hs, Hsep, IH.
Qed.

Lemma printable_app s t : printable (s +:+ t) = printable s && printable t.
Proof.
  induction s as [|c s IH]; [done|].
  rewrite Str.app_cons. cbn [printable]. by rewrite IH, andb_assoc.
Qed.

Lemma printable_clean s : printable s = true → clean_text s = true.
Proof.
  induction s as [|c s IH]; [done|]. cbn [printable clean_text].
  intros [Hc Hs]%andb_prop. unfold layout_char. by rewrite Hc, IH.
Qed.

Lemma printable_count s : printable s = true → Split.count line_feed s = 0%nat.
Proof.
  induction s as [|c s IH]; [done|]. cbn [printable Split.count].
  intros [Hc Hs]%andb_prop. rewrite (IH Hs).
  destruct (Ascii.eqb_spec c line_feed) as [->|_]; done.
Qed.

Lemma printable_quote_char (c : ascii) : printable (quote_char c) = true.
Proof. destruct c as [[] [] [] [] [] [] [] []]; reflexivity. Qed.

Lemma printable_quote (s : string) : printable (QuoteJSONString s) = true.
Proof.
  unfold QuoteJSONString. rewrite !printable_app.
  assert (H : printable (quote_chars s) = true).
  { induction s as [|c s IH]; [done|]. simpl.
    by rewrite printable_app, printable_quote_char, IH. }
  by rewrite H.
Qed.

Lemma printable_digits (s : string) :
  Decimal.all_digits s = true → printable s = true.
Proof.
  induction s as [|c s IH]; [done|]. rewrite all_digits_cons.
  intros [Hc Hs]%andb_prop. cbn [printable]. rewrite (IH Hs), andb_true_r.
  apply is_digit_code in Hc. apply Nat.leb_le. lia.
Qed.

Lemma all_digits_numeral (n : Z) : Decimal.all_digits (Decimal.numeral n) = true.
Proof.
  destruct (Z.le_gt_cases 0 n) as [Hn|Hn]; [by apply numeral_facts|].
  unfold Decimal.numeral. rewrite to_digits_S.
  destruct (Z.ltb_spec n 10); [|lia].
  by destruct n.
Qed.

Lemma printable_number (x : number) : printable (Number_toString x) = true.
Proof.
  unfold Number_toString. destruct (mantissa x =? 0); [done|].
  rewrite printable_app.
  assert (Hsign : printable (if negative x then "-" else "") = true)
    by (by destruct (negative x)).
  rewrite Hsign. cbn [andb]. unfold digits_toString. cbv zeta.
  pose proof (all_digits_numeral (mantissa x)) as Hall.
  set (digits := Decimal.numeral (mantissa x)) in *.
  set (k := Z.of_nat (String.length digits)).
  assert (Hd : printable digits = true) by by apply printable_digits.
  assert (Hz : ∀ z, printable (zeros z) = true).
  { intros z. apply printable_digits, all_digits_zeros. }
  assert (Htd : ∀ n, printable (Str.take n digits) = true
                     ∧ printable (Str.drop n digits) = true).
  { intros n. destruct (all_digits_take_drop n digits Hall).
    split; by apply printable_digits. }
  assert (He : ∀ e, printable (Decimal.numeral e) = true).
  { intros e. apply printable_digits, all_digits_numeral. }
  assert (Hs : ∀ e : Z, printable (if e <? 0 then "-" else "+") = true).
  { intros e. by destruct (e <? 0). }
  destruct ((-5 <=? k + exponent x) && (k + exponent x <=? 21)).
  - destruct (k <=? k + exponent x); [by rewrite printable_app, Hd, Hz|].
    destruct (0 <? k + exponent x).
    + rewrite !printable_app.
      destruct (Htd (Z.to_nat (k + exponent x))) as [-> ->]. done.
    + change ("0." +:+ ?s) with (String "0"%char (String "."%char s)).
      cbn [printable]. by rewrite printable_app, Hz, Hd.
  - destruct (k =? 1).
    + by rewrite !printable_app, Hd, Hs, He.
    + rewrite !printable_app. destruct (Htd 1%nat) as [-> ->].
      by rewrite Hs, He.
Qed.

Lemma printable_spaces (n : nat) : printable (Str.repeat " " n) = true.
Proof.
  induction n as [|n IH]; [done|].
  change (Str.repeat " " (S n)) with (String " "%char (Str.repeat " " n)).
  simpl. by rewrite IH.
Qed.

Lemma traverse_some {A B} (f : A → option B) (l : list A) (ys : list B) :
  traverse f l = Some ys → Forall2 (λ x y, f x = Some y) l ys.
Proof.
  revert ys. induction l as [|x l IH]; intros ys; simpl.
  - intros [= <-]. constructor.
  - destruct (f x) as [y|] eqn:E; [|done].
    destruct (traverse f l) as [ys'|]; [|done].
    intros [= <-]. constructor; [done|]. by apply IH.
Qed.

Lemma clean_text_wrap opening closing gap stepback indent partial :
  clean_text opening = true → clean_text closing = true →
  clean_text stepback = true → clean_text indent = true →
  Forall (λ s, clean_text s = true) partial →
  clean_text (wrap opening closing gap stepback indent partial) = true.
Proof.
  intros Ho Hc Hs Hi Hp. unfold wrap. destruct partial as [|p partial].
  { by rewrite clean_text_app, Ho, Hc. }
  destruct (String.eqb gap "").
  - rewrite !clean_text_app, Ho, Hc, clean_text_concat; done.
  - rewrite !clean_text_app, Ho, Hc, Hs, Hi, clean_text_concat; try done.
Qed.

Lemma clean_text_serialize (v : value) : ∀ gap indent s,
  clean_text gap = true → clean_text indent = true →
  SerializeJSONProperty gap indent v = Some s → clean_text s = true.
Proof.
  induction v as [| b | n | str | l IH | l IH | n] using value_ind';
    intros gap indent s Hgap Hindent; simpl.
  - by intros [= <-].
  - destruct b; by intros [= <-].
  - intros [= <-]. apply printable_clean, printable_number.
  - intros [= <-]. apply printable_clean, printable_quote.
  - destruct (traverse _ l) as [partial|] eqn:E; [|done]. intros [= <-].
    assert (Hin : clean_text (indent +:+ gap) = true)
      by (by rewrite clean_text_app, Hindent, Hgap).
    apply clean_text_wrap; try done.
    apply traverse_some in E. clear -E IH Hgap Hin.
    induction E as [|x y l ys Hxy _ IHE]; [done|].
    inversion IH; subst. constructor; [|by apply IHE]. eauto.
  - destruct (traverse _ l) as [partial|] eqn:E; [|done]. intros [= <-].
    assert (Hin : clean_text (indent +:+ gap) = true)
      by (by rewrite clean_text_app, Hindent, Hgap).
    apply clean_text_wrap; try done.
    apply traverse_some in E. clear -E IH Hgap Hin.
    induction E as [|x y l ys Hxy _ IHE]; [done|].
    inversion IH as [|? ? Hx Hl]; subst. constructor; [|by apply IHE].
    destruct (SerializeJSONProperty gap (indent +:+ gap) x.2) as [strP|] eqn:Ex;
      [|done].
    injection Hxy as <-.
    rewrite !clean_text_app, (printable_clean _ (printable_quote _)).
    rewrite (Hx _ _ _ Hgap Hin Ex). by destruct (String.eqb gap "").
  - done.
Qed.

(** *** The lines of the text *)

(** The line breaks of the layout with indentation: one after the
    opening bracket of an array or object that is not empty and one
    after each of its members, and those inside the members. *)
Fixpoint breaks (v : value) : nat :=
  match v with
  | VArr elements =>
      (match elements with [] => 0 | _ => S (length elements) end
       + list_sum (map breaks elements))%nat
  | VObj properties =>
      (match properties with [] => 0 | _ => S (length properties) end
       + list_sum (map (λ property, breaks property.2) properties))%nat
  | _ => 0%nat
  end.

Lemma count_app c s t :
  Split.count c (s +:+ t) = (Split.count c s + Split.count c t)%nat.
Proof.
  induction s as [|d s IH]; [done|]. rewrite Str.app_cons. simpl.
  rewrite IH. lia.
Qed.

Lemma count_concat c sep (l : list string) :
  Split.count c (String.concat sep l)
  = (list_sum (map (Split.count c) l)
     + (length l - 1) * Split.count c sep)%nat.
Proof.
  induction l as [|s l IH]; [done|].
  destruct l as [|s' l]; [simpl; lia|].
  change (String.concat sep (s :: s' :: l))
    with (s +:+ sep +:+ String.concat sep (s' :: l)).
  rewrite !count_app, IH. simpl. lia.
Qed.

Lemma count_wrap opening closing gap stepback indent partial :
  printable opening = true → printable closing = true →
  printable stepback = true → printable indent = true →
  Split.count line_feed (wrap opening closing gap stepback indent partial)
  = ((if String.eqb gap "" then 0
      else match partial with [] => 0 | _ => S (length partial) end)
     + list_sum (map (Split.count line_feed) partial))%nat.
Proof.
  intros Ho Hc Hs Hi. unfold wrap.
  apply printable_count in Ho, Hc, Hs, Hi.
  destruct partial as [|p partial].
  { rewrite count_app, Ho, Hc. by destruct (String.eqb gap ""). }
  destruct (String.eqb gap "").
  - rewrite !count_app, count_concat, Ho, Hc. simpl. lia.
  - rewrite !count_app, count_concat, !count_app, Ho, Hc, Hs, Hi.
    simpl. lia.
Qed.

Lemma count_serialize (v : value) : ∀ gap indent s,
  printable gap = true → printable indent = true →
  SerializeJSONProperty gap indent v = Some s →
  Split.count line_feed s = if String.eqb gap "" then 0%nat else breaks v.
Proof.
  induction v as [| b | n | str | l IH | l IH | n] using value_ind';
    intros gap indent s Hgap Hindent; simpl.
  - intros [= <-]. by destruct (String.eqb gap "").
  - destruct b; intros [= <-]; by destruct (String.eqb gap "").
  - intros [= <-]. rewrite (printable_count _ (printable_number _)).
    by destruct (String.eqb gap "").
  - intros [= <-]. rewrite (printable_count _ (printable_quote _)).
    by destruct (String.eqb gap "").
  - destruct (traverse _ l) as [partial|] eqn:E; [|done]. intros [= <-].
    assert (Hin : printable (indent +:+ gap) = true)
      by (by rewrite printable_app, Hindent, Hgap).
    rewrite count_wrap by done.
    apply traverse_some in E.
    assert (Hsum : list_sum (map (Split.count line_feed) partial)
                   = if String.eqb gap "" then 0%nat
                     else list_sum (map breaks l)).
    { clear -E IH Hgap Hin.
      induction E as [|x y l ys Hxy _ IHE]; [by destruct (String.eqb gap "")|].
      inversion IH as [|? ? Hx Hl]; subst. simpl.
      rewrite (Hx _ _ _ Hgap Hin Hxy), (IHE Hl).
      by destruct (String.eqb gap ""). }
    rewrite Hsum. apply Forall2_length in E.
    destruct (String.eqb gap ""); [done|].
    destruct l, partial; simpl in *; (done || lia).
  - destruct (traverse _ l) as [partial|] eqn:E; [|done]. intros [= <-].
    assert (Hin : printable (indent +:+ gap) = true)
      by (by rewrite printable_app, Hindent, Hgap).
    rewrite count_wrap by done.
    apply traverse_some in E.
    assert (Hsum : list_sum (map (Split.count line_feed) partial)
                   = if String.eqb gap "" then 0%nat
                     else list_sum (map (λ property, breaks property.2) l)).
    { clear -E IH Hgap Hin.
      induction E as [|x y l ys Hxy _ IHE]; [by destruct (String.eqb gap "")|].
      inversion IH as [|? ? Hx Hl]; subst. simpl.
      destruct (SerializeJSONProperty gap (indent +:+ gap) x.2) as [strP|] eqn:Ex;
        [|done].
      injection Hxy as <-.
      rewrite !count_app, (printable_count _ (printable_quote _)).
      rewrite (Hx _ _ _ Hgap Hin Ex), (IHE Hl).
      by destruct (String.eqb gap ""). }
    rewrite Hsum. apply Forall2_length in E.
    destruct (String.eqb gap ""); [done|].
    destruct l, partial; simpl in *; (done || lia).
  - done.
Qed.

(** X8. The text that [JSON.stringify] returns holds no character below
    code 32 apart from line feeds, and its line feeds are those of the
    layout alone: without indentation there is none, and with
    indentation their number is fixed by the arrays and objects of the
    value, whatever its strings and property names hold.  A control
    character of a string or of a property name is written as an escape,
    so a string never breaks a line of the file. *)
Theorem stringify_clean_text (v : value) (space : nat) (s : string) :
  stringify v space = Some s →
  clean_text s = true
  ∧ Split.count line_feed s = if (space =? 0)%nat then 0%nat else breaks v.
Proof.
  unfold stringify. intros H.
  pose proof (printable_spaces (Nat.min 10 space)) as Hgap. split.
  - apply (clean_text_serialize v (Str.repeat " " (Nat.min 10 space)) "" s);
      [by apply printable_clean|done|done].
  - rewrite (count_serialize v _ "" s Hgap eq_refl H).
    by destruct space.
Qed.

(** A line feed in a string and a tab in a property name. *)
Definition doc3 : value :=
  VArr [VObj [(String "a" (String (ascii_of_nat 9) "b"),
               VStr (String "x" (String (ascii_of_nat 10) "y")))]].

Example stringify_doc3 :
  stringify doc3 2
  = Some ("[" +:+ newline +:+ "  {" +:+ newline
          +:+ "    " +:+ dquote +:+ "a\tb" +:+ dquote +:+ ": "
          +:+ dquote +:+ "x\ny" +:+ dquote +:+ newline
          +:+ "  }" +:+ newline +:+ "]")
  ∧ breaks doc3 = 4%nat.
Proof. vm_compute. done. Qed.

Lemma stringify_clean_text_witness :
  clean_text (default "" (stringify doc3 2)) = true
  ∧ Split.count line_feed (default "" (stringify doc3 2))
    = if (2 =? 0)%nat then 0%nat else breaks doc3.
Proof.
  apply (stringify_clean_text doc3 2). vm_compute. reflexivity.
Defined.

(** X9. Two different snapshots never give the same text: a change of
    the data always changes the file. *)
Theorem stringify_injective (v v' : value) (s : string) :
  well_formed v = true → well_formed v' = true →
  stringify v 2 = Some s → stringify v' 2 = Some s → v = v'.
Proof.
  intros Hv Hv' Hs Hs'.
  pose proof (parse_stringify v s Hs Hv) as H.
  rewrite (parse_stringify v' s Hs' Hv') in H. by injection H.
Qed.

Lemma stringify_injective_witness : doc1 = doc1.
Proof.
  apply (stringify_injective doc1 doc1 (default "" (stringify doc1 2)));
    vm_compute; reflexivity.
Defined.

End JSON.

(** ** The runtime: file system, clock, console, exceptions *)

Module Runtime.

(** The errors the modelled calls can throw. *)
Inductive Error : Type :=
| ENOENT (path : string)
| ENOTDIR (path : string)
| EISDIR (path : string)
| EEXIST (path : string)
| EACCES (path : string)
| ENAMETOOLONG (path : string)
| ENOSPC (path : string)
| TypeError (message : string).

(** A node of the file system, with its write permission.  [Capped limit
    content] is a writable regular file on a volume that lets it grow to
    [limit] bytes and no further (a full disk, a quota): it is how a write
    that fails part-way is modelled. *)
Inductive node : Type :=
| File (writable : bool) (content : string)
| Dir (writable : bool)
| Capped (limit : nat) (content : string).

(** What a regular file holds. *)
Definition content_of (n : node) : option string :=
  match n with
  | File _ content | Capped _ content => Some content
  | Dir _ => None
  end.

(** The calls made to the [fs] module, in order. *)
Inductive FsCall : Type :=
| CallExists (path : string)
| CallMkdir (path : string)
| CallWrite (path : string) (data : string).

Inductive ConsoleLine : Type :=
| Log (line : string)
| ErrorLine (e : Error).

(** The file system maps absolute locations (the list of their
    components from the root) to nodes; [ [] ] is the root. *)
Record World : Type := mkWorld {
  files : gmap (list string) node;
  cwd : list string;
  clock : Time.Date;
  console : list ConsoleLine;
  calls : list FsCall
}.

Inductive Completion (A : Type) : Type :=
| Normal (a : A)
| Throw (e : Error).
Arguments Normal {A} a.
Arguments Throw {A} e.

Definition JS (A : Type) : Type := World → Completion A * World.

Definition ret {A} (a : A) : JS A := λ w, (Normal a, w).
Definition throw {A} (e : Error) : JS A := λ w, (Throw e, w).
Definition bind {A B} (m : JS A) (k : A → JS B) : JS B :=
  λ w, match m w with
       | (Normal a, w') => k a w'
       | (Throw e, w') => (Throw e, w')
       end.
(** [try { body } catch (error) { handler }] *)
Definition try_catch {A} (body : JS A) (handler : Error → JS A) : JS A :=
  λ w, match body w with
       | (Normal a, w') => (Normal a, w')
       | (Throw e, w') => handler e w'
       end.

Declare Scope js_scope.
Delimit Scope js_scope with js.
Notation "x <- m ;; k" := (bind m (λ x, k))
  (at level 100, m at next level, right associativity) : js_scope.
Notation "m ;; k" := (bind m (λ _, k))
  (at level 100, right associativity) : js_scope.

Definition add_call (c : FsCall) (w : World) : World :=
  mkWorld (files w) (cwd w) (clock w) (console w) (calls w ++ [c]).

Definition add_line (l : ConsoleLine) (w : World) : World :=
  mkWorld (files w) (cwd w) (clock w) (console w ++ [l]) (calls w).

Definition with_files (m : gmap (list string) node) (w : World) : World :=
  mkWorld m (cwd w) (clock w) (console w) (calls w).

Definition record_call (c : FsCall) : JS unit := λ w, (Normal tt, add_call c w).
Definition console_log (line : string) : JS unit :=
  λ w, (Normal tt, add_line (Log line) w).
Definition console_error (e : Error) : JS unit :=
  λ w, (Normal tt, add_line (ErrorLine e) w).

Definition getCurrentTime : JS string :=
  λ w, (Normal (Time.getCurrentTime (clock w)), w).

(** *** Path resolution

    The components of a path are walked from the root (absolute path) or
    from the working directory; a component can only be walked from an
    existing directory, and holds at most [NAME_MAX] bytes.  Node refuses
    a path that holds a null byte before it asks the kernel.  Symbolic
    links and the bound on the length of a whole path are not modelled. *)

Definition NAME_MAX : nat := 255.

Definition too_long (seg : string) : bool :=
  (NAME_MAX <? String.length seg)%nat.

Definition nul : ascii := "000"%char.

Definition has_nul (path : string) : bool := Split.mem nul path.

(** The error of [getValidatedPath] for a path with a null byte. *)
Definition invalid_path : Error := TypeError "ERR_INVALID_ARG_VALUE".

(** A name that is accepted as one component of a path. *)
Definition accepted_name (name : string) : bool :=
  negb (too_long name) && negb (has_nul name).

Definition step (cur : list string) (seg : string) : list string :=
  if Path.is_dot_or_empty seg then cur
  else if String.eqb seg ".." then removelast cur
  else cur ++ [seg].

Fixpoint walk (m : gmap (list string) node) (path : string)
    (cur : list string) (segs : list string) : Error + list string :=
  match segs with
  | [] => inr cur
  | seg :: rest =>
      match m !! cur with
      | Some (Dir _) =>
          if too_long seg then inl (ENAMETOOLONG path)
          else walk m path (step cur seg) rest
      | Some (File _ _) | Some (Capped _ _) => inl (ENOTDIR path)
      | None => inl (ENOENT path)
      end
  end.

Definition resolve (m : gmap (list string) node) (wd : list string)
    (path : string) : Error + list string :=
  if String.eqb path "" then inl (ENOENT path)
  else if has_nul path then inl invalid_path
  else
    walk m path
      (if Path.starts_with_slash path then [] else wd)
      (Split.split Path.slash path).

(** A directory may be named with trailing slashes. *)
Fixpoint strip_trailing_slashes (path : string) : string :=
  match path with
  | "" => ""
  | String c rest =>
      match strip_trailing_slashes rest with
      | "" => if Ascii.eqb c Path.slash then "" else String c ""
      | rest' => String c rest'
      end
  end.

(** What creating an entry at the absent location [loc] needs of its
    parent. *)
Definition check_parent (m : gmap (list string) node) (path : string)
    (loc : list string) : option Error :=
  match m !! removelast loc with
  | Some (Dir true) => None
  | Some (Dir false) => Some (EACCES path)
  | Some (File _ _) | Some (Capped _ _) => Some (ENOTDIR path)
  | None => Some (ENOENT path)
  end.

Definition exists_at (m : gmap (list string) node) (wd : list string)
    (path : string) : bool :=
  match resolve m wd path with
  | inr loc => bool_decide (is_Some (m !! loc))
  | inl _ => false
  end.

(** Where [mkdirSync] creates the directory, or the error it throws. *)
Definition mkdir_target (m : gmap (list string) node) (wd : list string)
    (path : string) : Error + list string :=
  match strip_trailing_slashes path with
  | "" => if String.eqb path "" then inl (ENOENT path) else inl (EEXIST path)
  | path' =>
      match resolve m wd path' with
      | inl e => inl e
      | inr loc =>
          match m !! loc with
          | Some _ => inl (EEXIST path)
          | None =>
              match check_parent m path loc with
              | Some e => inl e
              | None => inr loc
              end
          end
      end
  end.

(** Where [writeFileSync] opens the file, or the error of the open. *)
Definition write_target (m : gmap (list string) node) (wd : list string)
    (path : string) : Error + list string :=
  match resolve m wd path with
  | inl e => inl e
  | inr loc =>
      match m !! loc with
      | Some (Dir _) => inl (EISDIR path)
      | Some (File false _) => inl (EACCES path)
      | Some (File true _) | Some (Capped _ _) => inr loc
      | None =>
          match check_parent m path loc with
          | Some e => inl e
          | None => inr loc
          end
      end
  end.

(** [fs.existsSync(path)]: never throws. *)
Definition existsSync (path : string) : JS bool :=
  (record_call (CallExists path) ;;
   λ w, (Normal (exists_at (files w) (cwd w) path), w))%js.

(** [fs.mkdirSync(path)], without the [recursive] option. *)
Definition mkdirSync (path : string) : JS unit :=
  (record_call (CallMkdir path) ;;
   λ w, match mkdir_target (files w) (cwd w) path with
        | inl e => (Throw e, w)
        | inr loc => (Normal tt, with_files (<[loc := Dir true]> (files w)) w)
        end)%js.

(** Opening a file for writing (flag [w]) creates it, or empties the file
    that is there. *)
Definition truncated (before : option node) : node :=
  match before with
  | Some (Capped limit _) => Capped limit ""
  | _ => File true ""
  end.

(** The opened file after [data] was written to it: all of [data], or the
    bytes the volume had room for and the error of the failed write. *)
Definition filled (path data : string) (opened : option node)
    : node * option Error :=
  match opened with
  | Some (Capped limit _) =>
      if (String.length data <=? limit)%nat then (Capped limit data, None)
      else (Capped limit (Str.take limit data), Some (ENOSPC path))
  | _ => (File true data, None)
  end.

(** The file left by opening and writing, from what was at the location. *)
Definition stored (path data : string) (before : option node)
    : node * option Error :=
  filled path data (Some (truncated before)).

Definition open_truncate (path : string) : JS (list string) :=
  λ w, match write_target (files w) (cwd w) path with
       | inl e => (Throw e, w)
       | inr loc =>
           (Normal loc,
            with_files (<[loc := truncated (files w !! loc)]> (files w)) w)
       end.

Definition write_all (loc : list string) (path data : string) : JS unit :=
  λ w, let '(file, failure) := filled path data (files w !! loc) in
       let w' := with_files (<[loc := file]> (files w)) w in
       match failure with
       | None => (Normal tt, w')
       | Some e => (Throw e, w')
       end.

(** [fs.writeFileSync(path, data, "utf-8")]: the file is opened, which
    empties it, and then filled in place; the write is not atomic, and
    when it fails after the open the file keeps the bytes written so
    far. *)
Definition writeFileSync (path : string) (data : string) : JS unit :=
  (record_call (CallWrite path data) ;;
   loc <- open_truncate path ;;
   write_all loc path data)%js.

(** What [readFileSync] returns, or the error it throws. *)
Definition read_at (m : gmap (list string) node) (wd : list string)
    (path : string) : Error + string :=
  match resolve m wd path with
  | inl e => inl e
  | inr loc =>
      match m !! loc with
      | Some (File _ content) | Some (Capped _ content) => inr content
      | Some (Dir _) => inl (EISDIR path)
      | None => inl (ENOENT path)
      end
  end.

(** [fs.readFileSync(path, "utf-8")] *)
Definition readFileSync (path : string) : JS string :=
  λ w, match read_at (files w) (cwd w) path with
       | inl e => (Throw e, w)
       | inr content => (Normal content, w)
       end.

(** [JSON.parse(text)] as a call that may throw. *)
Definition JSON_parse (text : string) : JS JSON.value :=
  match JSON.parse text with
  | Some v => ret v
  | None => throw (TypeError "Unexpected token in JSON")
  end.

(** [JSON.stringify(value, null, space)] as a call that may throw. *)
Definition JSON_stringify (v : JSON.value) (space : nat) : JS string :=
  match JSON.stringify v space with
  | Some s => ret s
  | None => throw (TypeError "Do not know how to serialize a BigInt")
  end.

(** *** Facts about path resolution *)

Definition start_of (wd : list string) (path : string) : list string :=
  if Path.starts_with_slash path then [] else wd.

(** [path] names the existing directory at [loc], with write permission
    [b]. *)
Definition is_directory (m : gmap (list string) node) (wd : list string)
    (path : string) (loc : list string) (b : bool) : Prop :=
  resolve m wd path = inr loc ∧ m !! loc = Some (Dir b).

Lemma dot_or_empty_short seg :
  Path.is_dot_or_empty seg = true → too_long seg = false.
Proof.
  unfold Path.is_dot_or_empty.
  destruct (String.eqb_spec seg "") as [->|_]; [done|].
  destruct (String.eqb_spec seg ".") as [->|_]; done.
Qed.

Lemma dot_or_empty_no_nul seg :
  Path.is_dot_or_empty seg = true → has_nul seg = false.
Proof.
  unfold Path.is_dot_or_empty.
  destruct (String.eqb_spec seg "") as [->|_]; [done|].
  destruct (String.eqb_spec seg ".") as [->|_]; done.
Qed.

Lemma accepted_name_spec name :
  accepted_name name = true ↔ too_long name = false ∧ has_nul name = false.
Proof.
  unfold accepted_name. rewrite andb_true_iff, !negb_true_iff. done.
Qed.

(** *** Null bytes *)

Lemma has_nul_concat (l : list string) :
  has_nul (String.concat (String Path.slash "") l) = false
  ↔ Forall (λ piece, has_nul piece = false) l.
Proof.
  induction l as [|x l IH]; [done|].
  destruct l as [|y l].
  - simpl. split; [by repeat constructor|by inversion 1].
  - rewrite Path.concat_cons by done. unfold has_nul in *.
    rewrite !Split.mem_app, !orb_false_iff, IH, (Forall_cons _ x).
    split; [by intros (? & _ & ?)|by intros [? ?]].
Qed.

Lemma has_nul_pieces (path : string) :
  has_nul path = false
  ↔ Forall (λ piece, has_nul piece = false) (Split.split Path.slash path).
Proof. by rewrite <- has_nul_concat, Split.concat_split. Qed.

Lemma has_nul_join_names dir names :
  names ≠ [] → Forall (λ name, Path.plain_name name = true) names →
  has_nul (Path.join (dir :: names)) = false
  ↔ has_nul (Path.join [dir]) = false
    ∧ Forall (λ name, has_nul name = false) names.
Proof.
  intros Hne Hplain.
  destruct (Path.split_join_dir dir) as (extra & Hsplit & Hextra & _).
  rewrite !has_nul_pieces, Path.split_join_names, Hsplit by done.
  rewrite !Forall_app.
  assert (Forall (λ piece, has_nul piece = false) extra).
  { eapply Forall_impl; [done|]. apply dot_or_empty_no_nul. }
  split.
  - intros (Hmark & Hcomp & Hnames). by repeat split.
  - intros [(Hmark & Hcomp & _) Hnames]. by repeat split.
Qed.

Lemma has_nul_repeat_slash path k :
  has_nul (path +:+ Str.repeat "/" k) = has_nul path.
Proof.
  unfold has_nul. rewrite Split.mem_app.
  assert (Split.mem nul (Str.repeat "/" k) = false) as ->.
  { induction k as [|k IH]; [done|]. simpl. by rewrite Split.mem_app, IH. }
  apply orb_false_r.
Qed.

Lemma resolve_no_nul m wd path loc :
  resolve m wd path = inr loc → has_nul path = false.
Proof.
  unfold resolve. destruct (String.eqb path ""); [done|].
  by destruct (has_nul path).
Qed.

(** *** Walking *)

Lemma walk_app m path cur l1 l2 :
  walk m path cur (l1 ++ l2) =
  match walk m path cur l1 with
  | inr loc => walk m path loc l2
  | inl e => inl e
  end.
Proof.
  revert cur. induction l1 as [|seg l1 IH]; intros cur; [done|].
  simpl. destruct (m !! cur) as [[| |]|]; try done.
  destruct (too_long seg); by rewrite ?IH.
Qed.

Lemma walk_path_irrelevant m path path' cur l loc :
  walk m path cur l = inr loc → walk m path' cur l = inr loc.
Proof.
  revert cur. induction l as [|seg l IH]; intros cur; [done|].
  simpl. destruct (m !! cur) as [[| |]|]; try done.
  destruct (too_long seg); [done|]. apply IH.
Qed.

Lemma step_plain cur name :
  Path.plain_name name = true → step cur name = cur ++ [name].
Proof.
  unfold Path.plain_name, step. intros H.
  apply andb_prop in H as [H _]. apply andb_prop in H as [H1 H2].
  apply negb_true_iff in H1, H2. by rewrite H1, H2.
Qed.

(** Pieces that name the current directory lead nowhere else. *)
Lemma walk_noop_inv m path cur l loc :
  Forall (λ seg, Path.is_dot_or_empty seg = true) l →
  walk m path cur l = inr loc → loc = cur.
Proof.
  intros Hall. revert cur. induction Hall as [|seg l Hseg _ IH]; intros cur.
  - by intros [= ->].
  - simpl. destruct (m !! cur) as [[| |]|]; try done.
    rewrite (dot_or_empty_short _ Hseg). unfold step. rewrite Hseg. apply IH.
Qed.

Lemma walk_noop m path cur l b :
  Forall (λ seg, Path.is_dot_or_empty seg = true) l →
  m !! cur = Some (Dir b) → walk m path cur l = inr cur.
Proof.
  intros Hall Hcur. induction Hall as [|seg l Hseg _ IH]; [done|].
  simpl. rewrite Hcur, (dot_or_empty_short _ Hseg). unfold step. by rewrite Hseg.
Qed.

(** The directory named by [path.join(dir)] is reached by walking the
    normalized components of [dir]. *)
Lemma root_walk m wd dir loc b path :
  has_nul (Path.join [dir]) = false →
  is_directory m wd (Path.join [dir]) loc b ↔
  walk m path (start_of wd dir) (Path.root_mark dir ++ Path.components dir)
    = inr loc ∧ m !! loc = Some (Dir b).
Proof.
  intros Hnul.
  destruct (Path.split_join_dir dir) as (extra & Hsplit & Hextra & Habs & Hne).
  unfold is_directory, resolve.
  destruct (String.eqb_spec (Path.join [dir]) ""); [done|].
  rewrite Hnul, Habs, Hsplit. fold (start_of wd dir).
  rewrite (assoc_L (++)), walk_app.
  split.
  - intros [Hwalk Hdir].
    destruct (walk m (Path.join [dir]) (start_of wd dir)
                (Path.root_mark dir ++ Path.components dir)) as [e|loc'] eqn:E;
      [done|].
    apply walk_noop_inv in Hwalk as ->; [|done].
    split; [|done]. by apply (walk_path_irrelevant _ _ _ _ _ _ E).
  - intros [Hwalk Hdir].
    rewrite (walk_path_irrelevant _ _ (Path.join [dir]) _ _ _ Hwalk).
    split; [|done]. by apply (walk_noop _ _ _ _ b).
Qed.

(** The location named by [path.join(dir, name1, ..., namek)]. *)
Lemma resolve_join_names m wd dir names :
  names ≠ [] → Forall (λ name, Path.plain_name name = true) names →
  resolve m wd (Path.join (dir :: names)) =
  if has_nul (Path.join (dir :: names)) then inl invalid_path
  else walk m (Path.join (dir :: names)) (start_of wd dir)
         ((Path.root_mark dir ++ Path.components dir) ++ names).
Proof.
  intros Hne Hplain. unfold resolve.
  destruct (String.eqb_spec (Path.join (dir :: names)) "") as [E|_].
  { by apply Path.join_names_nonempty in E. }
  rewrite Path.join_names_absolute, Path.split_join_names by done.
  by rewrite (assoc_L (++)).
Qed.

Lemma walk_plain m path cur name :
  Path.plain_name name = true →
  walk m path cur [name] =
  match m !! cur with
  | Some (Dir _) =>
      if too_long name then inl (ENAMETOOLONG path) else inr (cur ++ [name])
  | Some (File _ _) | Some (Capped _ _) => inl (ENOTDIR path)
  | None => inl (ENOENT path)
  end.
Proof. intros H. simpl. by rewrite (step_plain _ _ H). Qed.

(** Resolution only looks at the directories: a file system with the same
    directories, and more, resolves a path to the same location. *)
Lemma walk_mono m m' path cur l loc :
  (∀ p b, m !! p = Some (Dir b) → ∃ b', m' !! p = Some (Dir b')) →
  walk m path cur l = inr loc → walk m' path cur l = inr loc.
Proof.
  intros Hdirs. revert cur. induction l as [|seg l IH]; intros cur; [done|].
  simpl. destruct (m !! cur) as [[|b|]|] eqn:E; try done.
  destruct (Hdirs _ _ E) as [b' ->].
  destruct (too_long seg); [done|]. apply IH.
Qed.

Lemma resolve_mono m m' wd path loc :
  (∀ p b, m !! p = Some (Dir b) → ∃ b', m' !! p = Some (Dir b')) →
  resolve m wd path = inr loc → resolve m' wd path = inr loc.
Proof.
  unfold resolve. intros Hdirs. destruct (String.eqb path ""); [done|].
  destruct (has_nul path); [done|]. by apply walk_mono.
Qed.

Lemma strip_no_trailing_slash path :
  Path.ends_with_slash path = false → path ≠ "" →
  strip_trailing_slashes path = path.
Proof.
  induction path as [|c rest IH]; [done|]. intros Hend _.
  simpl in *. destruct rest as [|c' rest].
  - simpl. by rewrite Hend.
  - rewrite IH by done. done.
Qed.

Lemma mkdir_target_plain m wd path :
  Path.ends_with_slash path = false → path ≠ "" →
  mkdir_target m wd path =
  match resolve m wd path with
  | inl e => inl e
  | inr loc =>
      match m !! loc with
      | Some _ => inl (EEXIST path)
      | None =>
          match check_parent m path loc with
          | Some e => inl e
          | None => inr loc
          end
      end
  end.
Proof.
  intros Hend Hne. unfold mkdir_target.
  rewrite strip_no_trailing_slash by done. by destruct path.
Qed.

(** The location of [path.join(dir, name)], from that of [dir]. *)
Lemma resolve_join_name m wd dir name :
  Path.plain_name name = true →
  has_nul (Path.join [dir; name]) = false →
  resolve m wd (Path.join [dir; name]) =
  match walk m (Path.join [dir; name]) (start_of wd dir)
          (Path.root_mark dir ++ Path.components dir) with
  | inr root => walk m (Path.join [dir; name]) root [name]
  | inl e => inl e
  end.
Proof.
  intros Hname Hnul.
  rewrite resolve_join_names, Hnul by (done || by repeat constructor).
  apply walk_app.
Qed.

Lemma has_nul_in_directory m wd dir names root rw :
  names ≠ [] → Forall (λ name, Path.plain_name name = true) names →
  Forall (λ name, accepted_name name = true) names →
  is_directory m wd (Path.join [dir]) root rw →
  has_nul (Path.join (dir :: names)) = false.
Proof.
  intros Hne Hplain Hacc [Hres _].
  apply has_nul_join_names; [done|done|]. split.
  - by apply resolve_no_nul in Hres.
  - eapply Forall_impl; [done|]. intros name H.
    by apply accepted_name_spec in H as [_ ?].
Qed.

Lemma resolve_in_directory m wd dir name root rw :
  Path.plain_name name = true → accepted_name name = true →
  is_directory m wd (Path.join [dir]) root rw →
  resolve m wd (Path.join [dir; name]) = inr (root ++ [name]).
Proof.
  intros Hname Hacc Hroot.
  assert (Hnul : has_nul (Path.join [dir; name]) = false).
  { apply (has_nul_in_directory m wd dir [name] root rw);
      (done || by repeat constructor). }
  rewrite resolve_join_name by done.
  apply (root_walk _ _ _ _ _ (Path.join [dir; name])) in Hroot as [-> Hdir].
  2:{ destruct Hroot as [Hres _]. by apply resolve_no_nul in Hres. }
  rewrite walk_plain, Hdir by done.
  apply accepted_name_spec in Hacc as [-> _]. done.
Qed.

Lemma resolve_outside_directory m wd dir name :
  Path.plain_name name = true →
  (∀ root rw, ¬ is_directory m wd (Path.join [dir]) root rw) →
  ∃ e, resolve m wd (Path.join [dir; name]) = inl e.
Proof.
  intros Hname Hnone.
  destruct (has_nul (Path.join [dir; name])) eqn:Hnul.
  { unfold resolve. rewrite Hnul. destruct (String.eqb _ ""); by eexists. }
  rewrite resolve_join_name by done.
  destruct (walk _ _ _ _) as [e|root] eqn:E; [by exists e|].
  rewrite walk_plain by done.
  destruct (m !! root) as [[w c|rw|l c]|] eqn:Eroot; try by eexists.
  destruct (Hnone root rw). apply (root_walk _ _ _ _ _ (Path.join [dir; name])).
  - apply has_nul_join_names in Hnul as [? _]; (done || by repeat constructor).
  - done.
Qed.


(** *** Stability of the file-system calls *)

Lemma split_trailing_slash path :
  Split.split Path.slash (path +:+ "/") = Split.split Path.slash path ++ [""].
Proof. apply (Split.split_app Path.slash path ""). Qed.

(** A path is its stripped form followed by slashes. *)
Lemma strip_trailing_slashes_spec path :
  ∃ k, path = strip_trailing_slashes path +:+ Str.repeat "/" k.
Proof.
  induction path as [|c rest [k IH]]; [by exists 0%nat|].
  simpl. destruct (strip_trailing_slashes rest) as [|c' rest'] eqn:E.
  - destruct (Ascii.eqb_spec c Path.slash) as [->|Hc].
    + exists (S k). rewrite IH at 1. by rewrite Str.app_nil_l.
    + exists k. rewrite IH at 1. by rewrite Str.app_nil_l.
  - exists k. rewrite IH at 1. done.
Qed.

Lemma split_repeat_slash path k :
  Split.split Path.slash (path +:+ Str.repeat "/" k)
  = Split.split Path.slash path ++ repeat "" k.
Proof.
  revert path. induction k as [|k IH]; intros path.
  - simpl. by rewrite Str.app_nil_r, app_nil_r.
  - change (Str.repeat "/" (S k)) with ("/" +:+ Str.repeat "/" k).
    rewrite <- Str.app_assoc, IH, split_trailing_slash.
    by rewrite <- (assoc_L (++)).
Qed.

(** Once the stripped path names a directory, so does the path. *)
Lemma resolve_unstripped m wd path loc b :
  resolve m wd (strip_trailing_slashes path) = inr loc →
  m !! loc = Some (Dir b) →
  resolve m wd path = inr loc.
Proof.
  destruct (strip_trailing_slashes_spec path) as [k Hk].
  intros Hres Hdir. pose proof (resolve_no_nul _ _ _ _ Hres) as Hnul.
  revert Hres. unfold resolve.
  destruct (String.eqb_spec (strip_trailing_slashes path) "") as [|Hne]; [done|].
  rewrite Hnul. intros Hwalk.
  destruct (String.eqb_spec path "") as [->|_]; [done|].
  assert (Hnul' : has_nul path = false).
  { rewrite Hk. by rewrite has_nul_repeat_slash. }
  rewrite Hnul'. rewrite Hk at 2 3.
  rewrite Path.starts_with_slash_app by done.
  rewrite split_repeat_slash, walk_app.
  rewrite (walk_path_irrelevant _ _ path _ _ _ Hwalk).
  apply (walk_noop _ _ _ _ b); [|done].
  clear. induction k; by constructor.
Qed.

(** A file that can be written to: a writable regular file. *)
Definition writable_file (n : node) : bool :=
  match n with
  | File true _ | Capped _ _ => true
  | _ => false
  end.

Lemma write_target_inv m wd path loc :
  write_target m wd path = inr loc →
  resolve m wd path = inr loc ∧ ∀ b, m !! loc ≠ Some (Dir b).
Proof.
  unfold write_target.
  destruct (resolve m wd path) as [e|loc']; [done|].
  destruct (m !! loc') as [[[|] c|b|l c]|] eqn:E; try done.
  - intros [= <-]. split; [done|]. intros b. by rewrite E.
  - intros [= <-]. split; [done|]. intros b. by rewrite E.
  - destruct (check_parent m path loc'); [done|].
    intros [= <-]. split; [done|]. intros b. by rewrite E.
Qed.

(** The open succeeds where there is nothing yet, or a writable regular
    file. *)
Lemma write_target_node m wd path loc :
  write_target m wd path = inr loc →
  m !! loc = None ∨ ∃ old, m !! loc = Some old ∧ writable_file old = true.
Proof.
  unfold write_target. destruct (resolve m wd path) as [e|loc']; [done|].
  destruct (m !! loc') as [[[|] old|b|l old]|] eqn:E; try done.
  - intros [= <-]. right. by eexists.
  - intros [= <-]. right. by eexists.
  - destruct (check_parent m path loc'); [done|]. intros [= <-]. by left.
Qed.

Lemma mkdir_target_inv m wd path loc :
  mkdir_target m wd path = inr loc →
  resolve m wd (strip_trailing_slashes path) = inr loc ∧ m !! loc = None.
Proof.
  unfold mkdir_target.
  destruct (strip_trailing_slashes path) as [|c rest] eqn:E.
  { by destruct (String.eqb path ""). }
  destruct (resolve m wd (String c rest)) as [e|loc']; [done|].
  destruct (m !! loc') eqn:Eloc; [done|].
  destruct (check_parent m path loc'); [done|]. by intros [= <-].
Qed.

(** Putting a file or a directory where no directory was keeps every
    directory. *)
Lemma directories_kept (m : gmap (list string) node) loc n :
  (∀ b, m !! loc ≠ Some (Dir b)) →
  ∀ p b, m !! p = Some (Dir b) → ∃ b', <[loc := n]> m !! p = Some (Dir b').
Proof.
  intros Hloc p b Hp. destruct (decide (loc = p)) as [->|Hne].
  - by destruct (Hloc b).
  - exists b. by rewrite lookup_insert_ne.
Qed.

Lemma exists_at_insert m wd path loc n :
  (∀ b, m !! loc ≠ Some (Dir b)) →
  exists_at m wd path = true → exists_at (<[loc := n]> m) wd path = true.
Proof.
  intros Hloc. unfold exists_at.
  destruct (resolve m wd path) as [e|loc'] eqn:E; [done|].
  rewrite (resolve_mono m _ _ _ _ (directories_kept m loc n Hloc) E).
  intros H. apply bool_decide_eq_true in H. apply bool_decide_eq_true.
  destruct (decide (loc = loc')) as [->|Hne].
  - by rewrite lookup_insert_eq.
  - by rewrite lookup_insert_ne.
Qed.

Lemma write_target_again m wd path loc n :
  write_target m wd path = inr loc → writable_file n = true →
  write_target (<[loc := n]> m) wd path = inr loc.
Proof.
  intros H Hn. apply write_target_inv in H as [Hres Hloc].
  unfold write_target.
  rewrite (resolve_mono m _ _ _ _ (directories_kept m loc _ Hloc) Hres).
  rewrite lookup_insert_eq. by destruct n as [[|] ?|?|? ?].
Qed.

Lemma exists_after_mkdir m wd path loc :
  mkdir_target m wd path = inr loc →
  exists_at (<[loc := Dir true]> m) wd path = true.
Proof.
  intros H. apply mkdir_target_inv in H as [Hres Hloc].
  unfold exists_at.
  rewrite (resolve_unstripped _ wd path loc true).
  - apply bool_decide_eq_true. by rewrite lookup_insert_eq.
  - apply (resolve_mono m); [|done]. apply directories_kept.
    intros b. by rewrite Hloc.
  - by rewrite lookup_insert_eq.
Qed.

(** *** What a write leaves *)

Lemma writeFileSync_unfold (path data : string) (w : World) :
  writeFileSync path data w =
  let w1 := add_call (CallWrite path data) w in
  match write_target (files w) (cwd w) path with
  | inl e => (Throw e, w1)
  | inr loc =>
      let '(file, failure) := stored path data (files w !! loc) in
      let w2 := with_files (<[loc := file]> (files w)) w1 in
      match failure with
      | None => (Normal tt, w2)
      | Some e => (Throw e, w2)
      end
  end.
Proof.
  unfold writeFileSync, bind, record_call, open_truncate, write_all. simpl.
  destruct (write_target (files w) (cwd w) path) as [e|loc]; [done|].
  simpl. rewrite lookup_insert_eq. fold (stored path data (files w !! loc)).
  destruct (stored path data (files w !! loc)) as [file [e|]];
    unfold with_files; simpl; by rewrite insert_insert_eq.
Qed.

(** Once opened, the file is empty: this is what a reader of the
    directory sees until the data is written. *)
Lemma open_truncate_empties (path : string) (w : World) loc w' :
  open_truncate path w = (Normal loc, w') →
  ∃ opened, files w' !! loc = Some opened ∧ content_of opened = Some "".
Proof.
  unfold open_truncate.
  destruct (write_target (files w) (cwd w) path) as [e|loc']; [done|].
  intros [= <- <-]. simpl. rewrite lookup_insert_eq.
  exists (truncated (files w !! loc')). split; [done|].
  by destruct (files w !! loc') as [[| |]|].
Qed.

(** The file that was opened and written is a writable regular file; it
    holds the first bytes of [data], and all of them unless the write
    failed. *)
Lemma stored_writable path data before :
  writable_file (stored path data before).1 = true.
Proof.
  unfold stored, filled, truncated.
  destruct before as [[| |limit old]|]; try done.
  by destruct (_ <=? _)%nat.
Qed.

Lemma stored_content path data before :
  ∃ content rest,
    content_of (stored path data before).1 = Some content
    ∧ data = content +:+ rest
    ∧ ((stored path data before).2 = None → rest = "")
    ∧ (∀ e, (stored path data before).2 = Some e →
         e = ENOSPC path ∧ rest ≠ ""
         ∧ ∃ limit old, before = Some (Capped limit old)
                        ∧ content = Str.take limit data).
Proof.
  unfold stored, filled, truncated.
  destruct before as [[| |limit old]|];
    try (exists data, ""; by rewrite Str.app_nil_r).
  destruct (Nat.leb_spec (String.length data) limit) as [Hle|Hlt].
  - exists data, "". by rewrite Str.app_nil_r.
  - exists (Str.take limit data), (Str.drop limit data). simpl.
    split; [done|]. split; [by rewrite JSON.take_drop|]. split; [done|].
    intros e [= <-]. split; [done|]. split; [|by eauto].
    intros E. pose proof (JSON.length_drop limit data) as Hlen.
    rewrite E in Hlen. simpl in Hlen. lia.
Qed.

(** Writing the same data again leaves the same file. *)
Lemma stored_again path data before :
  stored path data (Some (stored path data before).1)
  = stored path data before.
Proof.
  unfold stored, filled, truncated.
  destruct before as [[| |limit old]|]; try done.
  destruct (String.length data <=? limit)%nat eqn:E; simpl; by rewrite E.
Qed.

End Runtime.

(** ** File Writer: [writeJsonFiles] *)

Module Writer.
Import Runtime.
Local Open Scope js_scope.

(** [writeJsonFilesArguments] of [env.d.ts] *)
Record writeJsonFilesArguments : Type := mkArgs {
  dirPath : string;
  fileName : string;
  databaseName : string;
  dataToWrite : JSON.value
}.

(** The function returns the final path, or [false]. *)
Inductive Result : Type :=
| FinalPath (path : string)
| False_.

Definition folderPath_of (a : writeJsonFilesArguments) : string :=
  Path.join [dirPath a; databaseName a].

Definition finalFilePath_of (a : writeJsonFilesArguments) : string :=
  Path.join [dirPath a; databaseName a; fileName a] +:+ ".json".

Definition writeJsonFiles (a : writeJsonFilesArguments) : JS Result :=
  try_catch
    (let folderPath := folderPath_of a in
     let finalFilePath := finalFilePath_of a in
     convertedJsonData <- JSON_stringify (dataToWrite a) 2 ;;
     present <- existsSync folderPath ;;
     (if negb present then
        mkdirSync folderPath ;;
        now <- getCurrentTime ;;
        console_log ("⚙️ |[" +:+ now +:+ "]| Directory created: " +:+ folderPath)
      else ret tt) ;;
     writeFileSync finalFilePath convertedJsonData ;;
     ret (FinalPath finalFilePath))
    (λ error,
       console_error error ;;
       ret False_).

(** *** Sample worlds *)

Definition noon : Time.Date := Time.mkDate 43200000 0.

Definition world_of (m : gmap (list string) node) : World :=
  mkWorld m ["home"] noon [] [].

(** [/home/out] exists and is empty. *)
Definition fs_out : gmap (list string) node :=
  {[ [] := Dir true; ["home"] := Dir true; ["home"; "out"] := Dir true ]}.

(** [/home] exists, [/home/out] does not. *)
Definition fs_bare : gmap (list string) node :=
  {[ [] := Dir true; ["home"] := Dir true ]}.

Definition users_args : writeJsonFilesArguments :=
  mkArgs "out" "users" "shop" JSON.doc1.

Example write_users :
  let '(r, w) := writeJsonFiles users_args (world_of fs_out) in
  r = Normal (FinalPath "out/shop/users.json") ∧
  files w !! ["home"; "out"; "shop"] = Some (Dir true) ∧
  Some (files w !! ["home"; "out"; "shop"; "users.json"])
    = (λ s, Some (File true s)) <$> JSON.stringify JSON.doc1 2 ∧
  console w = [Log "⚙️ |[12:00:00]| Directory created: out/shop"] ∧
  length (calls w) = 3%nat.
Proof. vm_compute. done. Qed.

Example write_users_no_root :
  let '(r, w) := writeJsonFiles users_args (world_of fs_bare) in
  r = Normal False_ ∧ files w !! ["home"; "out"] = None ∧
  files w !! ["home"; "out"; "shop"] = None ∧
  console w = [ErrorLine (ENOENT "out/shop")].
Proof. vm_compute. done. Qed.

(** *** The decision tree of [writeJsonFiles] *)

Definition serialization_error : Error :=
  TypeError "Do not know how to serialize a BigInt".

Definition log_dir_created (folderPath : string) (w : World) : World :=
  add_line (Log ("⚙️ |[" +:+ Time.getCurrentTime (clock w)
                   +:+ "]| Directory created: " +:+ folderPath)) w.

Definition failed (e : Error) (w : World) : Completion Result * World :=
  (Normal False_, add_line (ErrorLine e) w).

(** The last statement of the [try] block, from the world [w]. *)
Definition finish (a : writeJsonFilesArguments) (data : string) (w : World)
    : Completion Result * World :=
  let w' := add_call (CallWrite (finalFilePath_of a) data) w in
  match write_target (files w) (cwd w) (finalFilePath_of a) with
  | inl e => failed e w'
  | inr loc =>
      let '(file, failure) := stored (finalFilePath_of a) data (files w !! loc) in
      let w'' := with_files (<[loc := file]> (files w)) w' in
      match failure with
      | None => (Normal (FinalPath (finalFilePath_of a)), w'')
      | Some e => failed e w''
      end
  end.

Lemma finish_unfold (a : writeJsonFilesArguments) (data : string) (w : World) :
  try_catch
    (writeFileSync (finalFilePath_of a) data ;;
     ret (FinalPath (finalFilePath_of a)))
    (λ error, console_error error ;; ret False_) w
  = finish a data w.
Proof.
  unfold try_catch, bind, finish. rewrite writeFileSync_unfold. cbv zeta.
  destruct (write_target _ _ _) as [e|loc]; [done|].
  by destruct (stored _ _ _) as [file [e|]].
Qed.

Lemma writeJsonFiles_unfold (a : writeJsonFilesArguments) (w : World) :
  writeJsonFiles a w =
  match JSON.stringify (dataToWrite a) 2 with
  | None => failed serialization_error w
  | Some data =>
      let w1 := add_call (CallExists (folderPath_of a)) w in
      if exists_at (files w) (cwd w) (folderPath_of a) then finish a data w1
      else
        let w2 := add_call (CallMkdir (folderPath_of a)) w1 in
        match mkdir_target (files w) (cwd w) (folderPath_of a) with
        | inl e => failed e w2
        | inr loc =>
            finish a data
              (log_dir_created (folderPath_of a)
                 (with_files (<[loc := Dir true]> (files w)) w2))
        end
  end.
Proof.
  unfold writeJsonFiles, try_catch, bind, JSON_stringify.
  destruct (JSON.stringify (dataToWrite a) 2) as [data|]; [|reflexivity].
  unfold ret at 1. unfold existsSync, bind, record_call. simpl.
  destruct (exists_at (files w) (cwd w) (folderPath_of a)); simpl.
  - rewrite <- finish_unfold. unfold try_catch, bind, ret. simpl.
    by destruct (writeFileSync _ _ _) as [[[]|e] w'].
  - unfold mkdirSync, bind, record_call. simpl.
    destruct (mkdir_target _ _ _) as [e|loc]; simpl; [reflexivity|].
    rewrite <- finish_unfold. unfold try_catch, bind, ret. simpl.
    by destruct (writeFileSync _ _ _) as [[[]|e] w'].
Qed.

(** *** No exception escapes *)

(** The three kinds of failure, each caught and reported as [false]:
    a payload that cannot be serialized, a directory that cannot be
    created (read-only root), a file that cannot be written (the target
    is a directory). *)
Definition fs_readonly : gmap (list string) node :=
  {[ [] := Dir true; ["home"] := Dir true; ["home"; "out"] := Dir false ]}.

Definition fs_target_is_dir : gmap (list string) node :=
  {[ [] := Dir true; ["home"] := Dir true; ["home"; "out"] := Dir true;
     ["home"; "out"; "shop"] := Dir true;
     ["home"; "out"; "shop"; "users.json"] := Dir true ]}.

Example failures_are_caught :
  (let '(r, w) :=
     writeJsonFiles (mkArgs "out" "users" "shop" (JSON.VArr [JSON.VBigInt 7]))
                    (world_of fs_out) in
   r = Normal False_ ∧ calls w = [] ∧
   console w = [ErrorLine serialization_error])
  ∧ (let '(r, w) := writeJsonFiles users_args (world_of fs_readonly) in
     r = Normal False_ ∧ files w !! ["home"; "out"; "shop"] = None ∧
     console w = [ErrorLine (EACCES "out/shop")])
  ∧ (let '(r, w) := writeJsonFiles users_args (world_of fs_target_is_dir) in
     r = Normal False_ ∧
     files w !! ["home"; "out"; "shop"; "users.json"] = Some (Dir true) ∧
     console w = [ErrorLine (EISDIR "out/shop/users.json")]).
Proof. vm_compute. done. Qed.



(** *** The payload is complete before the first call to [fs] *)

Definition is_payload_write (a : writeJsonFilesArguments) (c : FsCall) : Prop :=
  match c with
  | CallWrite path data =>
      path = finalFilePath_of a ∧
      JSON.stringify (dataToWrite a) 2 = Some data
  | _ => True
  end.

(** What the claim says a regular file holds after the call: what it held
    before, or the complete serialization. *)
Definition old_or_complete (a : writeJsonFilesArguments)
    (before after : gmap (list string) node) : Prop :=
  ∀ loc n content, after !! loc = Some n → content_of n = Some content →
    before !! loc = Some n ∨
    JSON.stringify (dataToWrite a) 2 = Some content.

Definition files_never_partial : Prop :=
  ∀ (a : writeJsonFilesArguments) (w : World),
    old_or_complete a (files w) (files (writeJsonFiles a w).2).

(** What a regular file does hold after the call: what it held before, or
    the first bytes of the serialization. *)
Definition old_or_prefix (a : writeJsonFilesArguments)
    (before after : gmap (list string) node) : Prop :=
  ∀ loc n content, after !! loc = Some n → content_of n = Some content →
    before !! loc = Some n ∨
    ∃ data rest, JSON.stringify (dataToWrite a) 2 = Some data
                 ∧ data = content +:+ rest.

(** [/home/out/shop/users.json] is on a volume with room for ten bytes. *)
Definition fs_full : gmap (list string) node :=
  {[ [] := Dir true; ["home"] := Dir true; ["home"; "out"] := Dir true;
     ["home"; "out"; "shop"] := Dir true;
     ["home"; "out"; "shop"; "users.json"] := Capped 10 "[]" ]}.

(** The write fails part-way: the file is left with the first ten bytes of
    the serialization, and the call returns [false]. *)
Example write_on_full_volume :
  let '(r, w) := writeJsonFiles users_args (world_of fs_full) in
  r = Normal False_ ∧
  files w !! ["home"; "out"; "shop"; "users.json"]
    = Some (Capped 10 ("[" +:+ JSON.newline +:+ "  {" +:+ JSON.newline +:+ "    ")) ∧
  console w = [ErrorLine (ENOSPC "out/shop/users.json")] ∧
  calls w = [CallExists "out/shop";
             CallWrite "out/shop/users.json" (default "" (JSON.stringify JSON.doc1 2))].
Proof. vm_compute. done. Qed.

(** A write has two steps, and a reader of the directory can see the
    file between them: the open leaves it empty. *)
Definition fs_written : gmap (list string) node :=
  {[ [] := Dir true; ["home"] := Dir true; ["home"; "out"] := Dir true;
     ["home"; "out"; "shop"] := Dir true;
     ["home"; "out"; "shop"; "users.json"] := File true "[]" ]}.

Example write_in_two_steps :
  let '(r, w) := open_truncate "out/shop/users.json" (world_of fs_written) in
  r = Normal ["home"; "out"; "shop"; "users.json"] ∧
  files w !! ["home"; "out"; "shop"; "users.json"] = Some (File true "") ∧
  (writeJsonFiles users_args (world_of fs_written)).1
    = Normal (FinalPath "out/shop/users.json").
Proof. vm_compute. done. Qed.

Lemma write_may_leave_part : ¬ files_never_partial.
Proof.
  intros H.
  destruct (H users_args (world_of fs_full)
              ["home"; "out"; "shop"; "users.json"]
              (Capped 10 ("[" +:+ JSON.newline +:+ "  {" +:+ JSON.newline +:+ "    "))
              ("[" +:+ JSON.newline +:+ "  {" +:+ JSON.newline +:+ "    "))
    as [E|E].
  - vm_compute. reflexivity.
  - reflexivity.
  - vm_compute in E. discriminate.
  - vm_compute in E. discriminate.
Qed.

Lemma finish_payload a data w0 w :
  JSON.stringify (dataToWrite a) 2 = Some data →
  old_or_prefix a (files w0) (files w) →
  (∃ l, calls w = calls w0 ++ l ∧ Forall (is_payload_write a) l) →
  old_or_prefix a (files w0) (files (finish a data w).2) ∧
  ∃ l, calls (finish a data w).2 = calls w0 ++ l ∧ Forall (is_payload_write a) l.
Proof.
  intros Hdata Hold (l & Hl & Hall).
  assert (Hcalls : ∃ l', (calls w ++ [CallWrite (finalFilePath_of a) data])%list
                         = calls w0 ++ l' ∧ Forall (is_payload_write a) l').
  { exists (l ++ [CallWrite (finalFilePath_of a) data]).
    rewrite Hl, <- (assoc_L (++)). split; [done|].
    apply Forall_app. split; [done|]. by repeat constructor. }
  unfold finish, failed.
  destruct (write_target _ _ _) as [e|loc]; simpl; [done|].
  destruct (stored_content (finalFilePath_of a) data (files w !! loc))
    as (content & rest & Hc & Hrest & _).
  assert (Hfiles : old_or_prefix a (files w0)
            (<[loc := (stored (finalFilePath_of a) data (files w !! loc)).1]>
               (files w))).
  { intros loc' n c. destruct (decide (loc = loc')) as [->|Hne].
    - rewrite lookup_insert_eq. intros [= <-] Hn. right. exists data, rest.
      rewrite Hc in Hn. by injection Hn as <-.
    - rewrite lookup_insert_ne by done. apply Hold. }
  by destruct (stored _ _ _) as [file [e|]].
Qed.

Lemma finish_read_at a data w path w' :
  finish a data w = (Normal (FinalPath path), w') →
  read_at (files w') (cwd w') path = inr data.
Proof.
  unfold finish, failed.
  destruct (write_target (files w) (cwd w) (finalFilePath_of a)) as [e|loc] eqn:E;
    [done|].
  destruct (stored_content (finalFilePath_of a) data (files w !! loc))
    as (content & rest & Hc & Hrest & Hnone & _).
  destruct (stored _ _ _) as [file [e|]]; [done|].
  intros [= <- <-]. simpl in *.
  rewrite (Hnone eq_refl), Str.app_nil_r in Hrest. subst content.
  apply write_target_inv in E as [Hres Hloc].
  unfold read_at.
  rewrite (resolve_mono (files w) _ _ _ _
             (directories_kept (files w) loc _ Hloc) Hres).
  rewrite lookup_insert_eq. destruct file; by simplify_eq/=.
Qed.

Lemma written_file_content a w path w' :
  writeJsonFiles a w = (Normal (FinalPath path), w') →
  ∃ data, JSON.stringify (dataToWrite a) 2 = Some data ∧
          read_at (files w') (cwd w') path = inr data.
Proof.
  rewrite writeJsonFiles_unfold.
  destruct (JSON.stringify (dataToWrite a) 2) as [data|]; [|done].
  cbv zeta. intros H. exists data. split; [done|].
  destruct (exists_at _ _ _).
  - by apply finish_read_at in H.
  - destruct (mkdir_target _ _ _) as [e|loc]; [done|].
    by apply finish_read_at in H.
Qed.

(** C2, amended. The snapshot is serialized in full before the first call
    to the file system: when the serialization throws no call is made and
    no file changes, and every write call carries the complete
    serialization.  The write itself empties the file and fills it in
    place: a regular file holds, after the call, what it held before or
    the first bytes of the serialization; it holds all of them when the
    call returns the path. *)
Theorem writeJsonFiles_writes_complete_payload
    (a : writeJsonFilesArguments) (w : World) :
  let w' := (writeJsonFiles a w).2 in
  (JSON.stringify (dataToWrite a) 2 = None →
     calls w' = calls w ∧ files w' = files w) ∧
  (∃ l, calls w' = calls w ++ l ∧ Forall (is_payload_write a) l) ∧
  old_or_prefix a (files w) (files w') ∧
  (∀ path, (writeJsonFiles a w).1 = Normal (FinalPath path) →
     ∃ data, JSON.stringify (dataToWrite a) 2 = Some data ∧
             read_at (files w') (cwd w') path = inr data).
Proof.
  cbv zeta. split; [|split; [|split]].
  4:{ intros path Hpath. apply (written_file_content a w path).
      rewrite <- Hpath. apply surjective_pairing. }
  all: rewrite writeJsonFiles_unfold;
    destruct (JSON.stringify (dataToWrite a) 2) as [data|] eqn:Hdata.
  - done.
  - done.
  - cbv zeta.
    assert (Hsame : old_or_prefix a (files w) (files w)).
    { intros loc n content H _. by left. }
    destruct (exists_at _ _ _).
    + apply (finish_payload a data w); [done|done|].
      exists [CallExists (folderPath_of a)]. split; [done|].
      by repeat constructor.
    + destruct (mkdir_target _ _ _) as [e|loc] eqn:Hmk.
      * simpl.
        exists [CallExists (folderPath_of a); CallMkdir (folderPath_of a)].
        rewrite <- (assoc_L (++)). split; [done|]. by repeat constructor.
      * apply (finish_payload a data w); [done| |].
        -- simpl. intros loc' n content.
           destruct (decide (loc = loc')) as [->|Hne].
           ++ rewrite lookup_insert_eq. by intros [= <-].
           ++ rewrite lookup_insert_ne by done. by left.
        -- exists [CallExists (folderPath_of a); CallMkdir (folderPath_of a)].
           simpl. rewrite <- (assoc_L (++)). split; [done|].
           by repeat constructor.
  - simpl. exists []. by rewrite app_nil_r.
  - cbv zeta.
    assert (Hsame : old_or_prefix a (files w) (files w)).
    { intros loc n content H _. by left. }
    destruct (exists_at _ _ _).
    + apply (finish_payload a data w); [done|done|].
      exists [CallExists (folderPath_of a)]. split; [done|].
      by repeat constructor.
    + destruct (mkdir_target _ _ _) as [e|loc] eqn:Hmk.
      * done.
      * apply (finish_payload a data w); [done| |].
        -- simpl. intros loc' n content.
           destruct (decide (loc = loc')) as [->|Hne].
           ++ rewrite lookup_insert_eq. by intros [= <-].
           ++ rewrite lookup_insert_ne by done. by left.
        -- exists [CallExists (folderPath_of a); CallMkdir (folderPath_of a)].
           simpl. rewrite <- (assoc_L (++)). split; [done|].
           by repeat constructor.
  - simpl. intros loc n content H _. by left.
Qed.

(** *** A root directory that does not exist *)

(** With an empty database name the folder is the root itself, and the
    root is created. *)
Example empty_database_name_creates_root :
  exists_at fs_bare ["home"] "out" = false ∧
  let '(r, w) := writeJsonFiles (mkArgs "out" "users" "" JSON.doc1)
                                (world_of fs_bare) in
  r = Normal (FinalPath "out/users.json") ∧
  files w !! ["home"; "out"] = Some (Dir true) ∧
  calls w = [CallExists "out"; CallMkdir "out";
             CallWrite "out/users.json" (default "" (JSON.stringify JSON.doc1 2))].
Proof. vm_compute. done. Qed.

(** The statement without a condition on the database name. *)
Definition missing_root_always_fails : Prop :=
  ∀ (a : writeJsonFilesArguments) (w : World),
    exists_at (files w) (cwd w) (dirPath a) = false →
    ∃ w', writeJsonFiles a w = (Normal False_, w') ∧ files w' = files w.

Lemma missing_root_may_succeed : ¬ missing_root_always_fails.
Proof.
  intros H.
  destruct (H (mkArgs "out" "users" "" JSON.doc1) (world_of fs_bare))
    as (w' & Hrun & _).
  - vm_compute. reflexivity.
  - apply (f_equal fst) in Hrun. vm_compute in Hrun. discriminate.
Qed.

Lemma folder_no_trailing_slash a :
  Path.plain_name (databaseName a) = true →
  Path.ends_with_slash (folderPath_of a) = false ∧ folderPath_of a ≠ "".
Proof.
  intros Hdb. split.
  - apply Path.join_names_no_trailing_slash; (done || by repeat constructor).
  - apply Path.join_names_nonempty; (done || by repeat constructor).
Qed.

(** C8, amended. When the database name is a single path component and
    the root directory [path.join(dirPath)] does not exist, the call
    returns [false] and nothing is created: the only directory creation
    attempted is that of the folder, and it fails. *)
Theorem writeJsonFiles_missing_root (a : writeJsonFilesArguments) (w : World) :
  Path.plain_name (databaseName a) = true →
  exists_at (files w) (cwd w) (Path.join [dirPath a]) = false →
  ∃ w', writeJsonFiles a w = (Normal False_, w') ∧ files w' = files w ∧
        ∀ path, CallMkdir path ∈ calls w' →
                CallMkdir path ∈ calls w ∨ path = folderPath_of a.
Proof.
  intros Hdb Hroot.
  assert (Hnone : ∀ root rw,
            ¬ is_directory (files w) (cwd w) (Path.join [dirPath a]) root rw).
  { intros root rw [Hres Hdir]. unfold exists_at in Hroot.
    rewrite Hres, Hdir in Hroot. apply bool_decide_eq_false in Hroot.
    by apply Hroot. }
  destruct (resolve_outside_directory _ _ _ _ Hdb Hnone) as [e He].
  fold (folderPath_of a) in He.
  destruct (folder_no_trailing_slash a Hdb) as [Hend Hne].
  rewrite writeJsonFiles_unfold.
  destruct (JSON.stringify (dataToWrite a) 2) as [data|].
  - cbv zeta. unfold exists_at. rewrite He.
    rewrite mkdir_target_plain, He by done.
    eexists. split; [reflexivity|]. split; [done|]. simpl.
    intros path Hin. rewrite !elem_of_app, !list_elem_of_singleton in Hin.
    destruct Hin as [[Hin|[=]]|[= ->]]; [by left|by right].
  - eexists. split; [reflexivity|]. split; [done|]. simpl. by left.
Qed.

Lemma writeJsonFiles_missing_root_witness :
  ∃ w', writeJsonFiles users_args (world_of fs_bare) = (Normal False_, w') ∧
        files w' = files (world_of fs_bare) ∧
        ∀ path, CallMkdir path ∈ calls w' →
                CallMkdir path ∈ calls (world_of fs_bare)
                ∨ path = folderPath_of users_args.
Proof.
  apply (writeJsonFiles_missing_root users_args (world_of fs_bare));
    vm_compute; reflexivity.
Defined.

(** *** The successful write *)





(** [/home/out/shop] is a regular file. *)
Definition fs_folder_is_file : gmap (list string) node :=
  {[ [] := Dir true; ["home"] := Dir true; ["home"; "out"] := Dir true;
     ["home"; "out"; "shop"] := File true "notes" ]}.

Example writes_that_fail :
  (let '(r, w) := writeJsonFiles (mkArgs "out" "logs/2024" "shop" JSON.doc1)
                                 (world_of fs_out) in
   r = Normal False_ ∧
   console w = [Log "⚙️ |[12:00:00]| Directory created: out/shop";
                ErrorLine (ENOENT "out/shop/logs/2024.json")])
  ∧ (let '(r, w) := writeJsonFiles users_args (world_of fs_folder_is_file) in
     r = Normal False_ ∧
     console w = [ErrorLine (ENOTDIR "out/shop/users.json")])
  ∧ (let '(r, w) := writeJsonFiles (mkArgs "out" "" "shop" JSON.doc1)
                                   (world_of fs_out) in
     r = Normal (FinalPath "out/shop.json") ∧
     files w !! ["home"; "out"; "shop"] = Some (Dir true) ∧
     files w !! ["home"; "out"; "shop"; ".json"] = None).
Proof. vm_compute. done. Qed.

(** Single path components that the file system refuses: a file name of
    256 bytes with its extension, and a name with a null byte. *)
Definition long_name : string := Str.repeat "a" 251.

Example names_that_fail :
  Path.plain_name long_name = true
  ∧ Path.plain_name (String nul "a") = true
  ∧ (let a := mkArgs "out" long_name "shop" JSON.doc1 in
     let '(r, w) := writeJsonFiles a (world_of fs_out) in
     r = Normal False_ ∧
     last (console w) = Some (ErrorLine (ENAMETOOLONG (finalFilePath_of a))))
  ∧ (let '(r, w) := writeJsonFiles (mkArgs "out" (String nul "a") "shop" JSON.doc1)
                                   (world_of fs_out) in
     r = Normal False_ ∧ last (console w) = Some (ErrorLine invalid_path)).
Proof. vm_compute. done. Qed.






Lemma is_directory_insert m wd path root rw loc n :
  is_directory m wd path root rw →
  (∀ b, m !! loc ≠ Some (Dir b)) → loc ≠ root →
  is_directory (<[loc := n]> m) wd path root rw.
Proof.
  intros [Hres Hdir] Hloc Hne. split.
  - apply (resolve_mono m); [|done]. intros p b Hp.
    destruct (decide (loc = p)) as [->|Hlp]; [by destruct (Hloc b)|].
    exists b. by rewrite lookup_insert_ne.
  - by rewrite lookup_insert_ne.
Qed.






(** *** Writing the same snapshot twice *)

(** The clock moves between two calls. *)
Definition with_clock (now : Time.Date) (w : World) : World :=
  mkWorld (files w) (cwd w) now (console w) (calls w).

(** The result and the files left by a call depend on the files and the
    working directory only. *)
Definition finish_outcome (a : writeJsonFilesArguments) (data : string)
    (m : gmap (list string) node) (wd : list string)
    : Result * gmap (list string) node :=
  match write_target m wd (finalFilePath_of a) with
  | inl _ => (False_, m)
  | inr loc =>
      let '(file, failure) := stored (finalFilePath_of a) data (m !! loc) in
      (match failure with
       | None => FinalPath (finalFilePath_of a)
       | Some _ => False_
       end, <[loc := file]> m)
  end.

Definition outcome (a : writeJsonFilesArguments)
    (m : gmap (list string) node) (wd : list string)
    : Result * gmap (list string) node :=
  match JSON.stringify (dataToWrite a) 2 with
  | None => (False_, m)
  | Some data =>
      if exists_at m wd (folderPath_of a) then finish_outcome a data m wd
      else
        match mkdir_target m wd (folderPath_of a) with
        | inl _ => (False_, m)
        | inr loc => finish_outcome a data (<[loc := Dir true]> m) wd
        end
  end.

Lemma finish_as_outcome a data w :
  (finish a data w).1 = Normal (finish_outcome a data (files w) (cwd w)).1 ∧
  files (finish a data w).2 = (finish_outcome a data (files w) (cwd w)).2 ∧
  cwd (finish a data w).2 = cwd w.
Proof.
  unfold finish, finish_outcome, failed.
  destruct (write_target _ _ _) as [e|loc]; [done|].
  by destruct (stored _ _ _) as [file [e|]].
Qed.

Lemma writeJsonFiles_as_outcome a w :
  (writeJsonFiles a w).1 = Normal (outcome a (files w) (cwd w)).1 ∧
  files (writeJsonFiles a w).2 = (outcome a (files w) (cwd w)).2 ∧
  cwd (writeJsonFiles a w).2 = cwd w.
Proof.
  rewrite writeJsonFiles_unfold. unfold outcome.
  destruct (JSON.stringify (dataToWrite a) 2) as [data|]; [|done].
  cbv zeta. destruct (exists_at _ _ _).
  - apply (finish_as_outcome a data (add_call _ w)).
  - destruct (mkdir_target _ _ _) as [e|loc]; [done|].
    apply (finish_as_outcome a data
             (log_dir_created _ (with_files _ (add_call _ (add_call _ w))))).
Qed.

Lemma finish_outcome_again a data m wd :
  exists_at m wd (folderPath_of a) = true →
  let after := (finish_outcome a data m wd).2 in
  exists_at after wd (folderPath_of a) = true ∧
  finish_outcome a data after wd = finish_outcome a data m wd.
Proof.
  intros Hex. unfold finish_outcome.
  destruct (write_target m wd (finalFilePath_of a)) as [e|loc] eqn:E; simpl.
  - by rewrite E.
  - pose proof (stored_writable (finalFilePath_of a) data (m !! loc)) as Hw.
    pose proof (stored_again (finalFilePath_of a) data (m !! loc)) as Hagain.
    destruct (stored (finalFilePath_of a) data (m !! loc)) as [file failure]
      eqn:Es.
    simpl in *. split.
    + apply exists_at_insert; [|done]. by apply write_target_inv in E as [_ ?].
    + rewrite (write_target_again _ _ _ _ file E Hw), lookup_insert_eq, Hagain.
      by rewrite insert_insert_eq.
Qed.

Lemma outcome_again a m wd :
  outcome a (outcome a m wd).2 wd = outcome a m wd.
Proof.
  unfold outcome.
  destruct (JSON.stringify (dataToWrite a) 2) as [data|] eqn:Hdata; [|done].
  destruct (exists_at m wd (folderPath_of a)) eqn:Hex.
  - destruct (finish_outcome_again a data m wd Hex) as [-> ->]. done.
  - destruct (mkdir_target m wd (folderPath_of a)) as [e|loc] eqn:Hmk.
    + simpl. by rewrite Hex, Hmk.
    + pose proof (exists_after_mkdir _ _ _ _ Hmk) as Hex'.
      destruct (finish_outcome_again a data _ wd Hex') as [-> ->]. done.
Qed.

(** C7. A second call with the same arguments, from the state the first
    call left and whatever the clock shows, returns what the first call
    returned and leaves every file as the first call left it. *)
Theorem writeJsonFiles_twice (a : writeJsonFilesArguments) (w : World)
    (later : Time.Date) :
  let first := writeJsonFiles a w in
  let second := writeJsonFiles a (with_clock later first.2) in
  second.1 = first.1 ∧ files second.2 = files first.2.
Proof.
  cbv zeta.
  destruct (writeJsonFiles_as_outcome a w) as (Hr1 & Hf1 & Hc1).
  destruct (writeJsonFiles_as_outcome a (with_clock later (writeJsonFiles a w).2))
    as (Hr2 & Hf2 & _).
  simpl in Hr2, Hf2. rewrite Hf1, Hc1, outcome_again in Hr2, Hf2.
  by rewrite Hr1, Hr2, Hf1, Hf2.
Qed.

(** The same serialization both times: the file written by the second
    call holds the bytes written by the first. *)
Example write_users_twice :
  let first := writeJsonFiles users_args (world_of fs_out) in
  let second := writeJsonFiles users_args (with_clock (Time.mkDate 0 0) first.2) in
  second.1 = Normal (FinalPath "out/shop/users.json") ∧
  files second.2 !! ["home"; "out"; "shop"; "users.json"]
    = files first.2 !! ["home"; "out"; "shop"; "users.json"] ∧
  calls second.2 = calls first.2 ++
    [CallExists "out/shop";
     CallWrite "out/shop/users.json" (default "" (JSON.stringify JSON.doc1 2))].
Proof. vm_compute. done. Qed.

(** *** Reading the file back *)

(** [JSON.parse(fs.readFileSync(path, "utf-8"))] *)
Definition read_back (path : string) : JS JSON.value :=
  (content <- readFileSync path ;; JSON_parse content)%js.

(** The statement for every snapshot. *)
Definition every_snapshot_reads_back : Prop :=
  ∀ (a : writeJsonFilesArguments) (w : World) (path : string) (w' : World),
    writeJsonFiles a w = (Normal (FinalPath path), w') →
    read_back path w' = (Normal (dataToWrite a), w').

(** A snapshot with a negative zero: it is written as [0], and [0] is
    read back as zero. *)
Definition zero_args : writeJsonFilesArguments :=
  mkArgs "out" "users" "shop" (JSON.VArr [JSON.VNum JSON.negative_zero]).

Example negative_zero_written_and_read :
  let '(r, w) := writeJsonFiles zero_args (world_of fs_out) in
  r = Normal (FinalPath "out/shop/users.json") ∧
  read_at (files w) (cwd w) "out/shop/users.json"
    = inr ("[" +:+ JSON.newline +:+ "  0" +:+ JSON.newline +:+ "]") ∧
  (read_back "out/shop/users.json" w).1
    = Normal (JSON.VArr [JSON.VNum (JSON.integer 0)]).
Proof. vm_compute. done. Qed.

Lemma negative_zero_is_not_read_back : ¬ every_snapshot_reads_back.
Proof.
  intros H.
  specialize (H zero_args (world_of fs_out) "out/shop/users.json"
                (writeJsonFiles zero_args (world_of fs_out)).2).
  assert (Hrun : (writeJsonFiles zero_args (world_of fs_out)).1
                 = Normal (FinalPath "out/shop/users.json"))
    by (vm_compute; reflexivity).
  rewrite <- Hrun, <- surjective_pairing in H. specialize (H eq_refl).
  apply (f_equal fst) in H. vm_compute in H. discriminate.
Qed.

(** C5, amended. When [writeJsonFiles] returns a path, reading that file
    back and parsing its content gives the snapshot that was written, for
    every snapshot built from JSON-compatible values in which no number is
    negative zero and no object repeats a property name. *)
Theorem written_snapshot_reads_back (a : writeJsonFilesArguments) (w : World)
    (path : string) (w' : World) :
  writeJsonFiles a w = (Normal (FinalPath path), w') →
  JSON.well_formed (dataToWrite a) = true →
  read_back path w' = (Normal (dataToWrite a), w').
Proof.
  intros Hrun Hwf.
  destruct (written_file_content a w path w' Hrun) as (data & Hdata & Hread).
  unfold read_back, bind, readFileSync. rewrite Hread.
  unfold JSON_parse. by rewrite (JSON.parse_stringify _ _ Hdata Hwf).
Qed.

Lemma write_users_result :
  (writeJsonFiles users_args (world_of fs_out)).1
  = Normal (FinalPath "out/shop/users.json").
Proof. vm_compute. reflexivity. Qed.

Lemma written_snapshot_reads_back_witness :
  read_back "out/shop/users.json" (writeJsonFiles users_args (world_of fs_out)).2
  = (Normal JSON.doc1, (writeJsonFiles users_args (world_of fs_out)).2).
Proof.
  apply (written_snapshot_reads_back users_args (world_of fs_out)).
  - rewrite <- write_users_result. apply surjective_pairing.
  - vm_compute. reflexivity.
Defined.

(** *** What a call leaves behind *)

(** One location of the file system, before and after a call: unchanged;
    a directory created where there was nothing; or, where there was
    nothing or a writable regular file, a writable regular file that holds
    the first bytes of the serialization (all of them, or those written
    before the write failed). *)
Definition touched (a : writeJsonFilesArguments) (before after : option node)
    : Prop :=
  after = before
  ∨ (before = None ∧ after = Some (Dir true))
  ∨ (∃ data file content rest,
       JSON.stringify (dataToWrite a) 2 = Some data
       ∧ after = Some file ∧ writable_file file = true
       ∧ content_of file = Some content ∧ data = content +:+ rest
       ∧ (before = None ∨ ∃ old, before = Some old ∧ writable_file old = true)).

(** The files after the last statement of the [try] block. *)
Lemma finish_files a data w :
  let p := finalFilePath_of a in
  (finish a data w).1 = Normal False_ ∧ files (finish a data w).2 = files w
  ∨ ∃ floc,
      write_target (files w) (cwd w) p = inr floc
      ∧ files (finish a data w).2
        = <[floc := (stored p data (files w !! floc)).1]> (files w)
      ∧ (finish a data w).1
        = Normal (match (stored p data (files w !! floc)).2 with
                  | None => FinalPath p
                  | Some _ => False_
                  end).
Proof.
  cbv zeta. unfold finish, failed.
  destruct (write_target (files w) (cwd w) (finalFilePath_of a)) as [e|loc] eqn:E;
    [by left|].
  right. exists loc. split; [done|]. by destruct (stored _ _ _) as [file [e|]].
Qed.

(** How the files change: first the folder may be created, then the
    target may be opened and written. *)
Lemma writeJsonFiles_files (a : writeJsonFilesArguments) (w : World) :
  let r := (writeJsonFiles a w).1 in
  let m := files w in
  let m' := files (writeJsonFiles a w).2 in
  let p := finalFilePath_of a in
  ∃ m1,
    (m1 = m
     ∨ ∃ dloc, exists_at m (cwd w) (folderPath_of a) = false
         ∧ mkdir_target m (cwd w) (folderPath_of a) = inr dloc
         ∧ m !! dloc = None ∧ m1 = <[dloc := Dir true]> m)
    ∧ ((r = Normal False_ ∧ m' = m1)
       ∨ ∃ data floc,
           JSON.stringify (dataToWrite a) 2 = Some data
           ∧ write_target m1 (cwd w) p = inr floc
           ∧ m' = <[floc := (stored p data (m1 !! floc)).1]> m1
           ∧ r = Normal (match (stored p data (m1 !! floc)).2 with
                         | None => FinalPath p
                         | Some _ => False_
                         end)).
Proof.
  cbv zeta. rewrite writeJsonFiles_unfold.
  destruct (JSON.stringify (dataToWrite a) 2) as [data|] eqn:Hdata.
  2:{ exists (files w). split; [by left|]. by left. }
  cbv zeta.
  destruct (exists_at (files w) (cwd w) (folderPath_of a)) eqn:Hex.
  - exists (files w). split; [by left|].
    destruct (finish_files a data (add_call (CallExists (folderPath_of a)) w))
      as [[-> ->]|(floc & Hw & -> & ->)]; [by left|].
    right. by exists data, floc.
  - destruct (mkdir_target (files w) (cwd w) (folderPath_of a)) as [e|dloc] eqn:Hmk.
    { exists (files w). split; [by left|]. by left. }
    pose proof (mkdir_target_inv _ _ _ _ Hmk) as [_ Hnone].
    exists (<[dloc := Dir true]> (files w)). split; [right; by exists dloc|].
    match goal with |- context [finish a data ?w1] =>
      destruct (finish_files a data w1) as [[-> ->]|(floc & Hw & -> & ->)]
    end.
    + by left.
    + right. by exists data, floc.
Qed.

(** X10. A call never removes or renames anything and never changes a
    directory or a read-only file: every location is left as it was, or
    is a directory created where there was nothing, or is a writable
    regular file with the first bytes of the serialization where there
    was nothing or a writable regular file; and at most two locations
    change, the folder and the target. *)
Theorem writeJsonFiles_footprint (a : writeJsonFilesArguments) (w : World) :
  let w' := (writeJsonFiles a w).2 in
  (∀ loc, touched a (files w !! loc) (files w' !! loc))
  ∧ (∃ changed : list (list string),
       (length changed ≤ 2)%nat
       ∧ ∀ loc, loc ∉ changed → files w' !! loc = files w !! loc)
  ∧ cwd w' = cwd w.
Proof.
  cbv zeta.
  assert (Hcwd : cwd (writeJsonFiles a w).2 = cwd w)
    by apply writeJsonFiles_as_outcome.
  destruct (writeJsonFiles_files a w) as (m1 & Hm1 & Hrest).
  cbv zeta in Hm1, Hrest.
  assert (Hfirst : ∃ changed1 : list (list string),
            (length changed1 ≤ 1)%nat
            ∧ (∀ loc, loc ∉ changed1 → m1 !! loc = files w !! loc)
            ∧ ∀ loc, m1 !! loc = files w !! loc
                     ∨ (files w !! loc = None ∧ m1 !! loc = Some (Dir true))).
  { destruct Hm1 as [->|(dloc & _ & _ & Hnone & ->)].
    - exists []. split; [simpl; lia|]. split; [done|]. by left.
    - exists [dloc]. split; [simpl; lia|]. split.
      + intros loc Hloc. rewrite lookup_insert_ne; [done|].
        intros <-. apply Hloc. by left.
      + intros loc. destruct (decide (dloc = loc)) as [<-|Hne].
        * right. by rewrite lookup_insert_eq.
        * left. by rewrite lookup_insert_ne. }
  destruct Hfirst as (changed1 & Hlen & Hout & Hin).
  destruct Hrest as [[_ ->]|(data & floc & Hdata & Hw & -> & _)].
  - split; [|split; [|done]].
    + intros loc. destruct (Hin loc) as [->|[-> ->]]; [by left|right; by left].
    + exists changed1. split; [lia|done].
  - apply write_target_node in Hw.
    pose proof (stored_writable (finalFilePath_of a) data (m1 !! floc)) as Hwr.
    destruct (stored_content (finalFilePath_of a) data (m1 !! floc))
      as (content & rest & Hc & Hrest & _).
    assert (Hsame : m1 !! floc = files w !! floc).
    { destruct (Hin floc) as [?|[_ Hdir]]; [done|]. rewrite Hdir in Hw.
      by destruct Hw as [?|(old & [= <-] & ?)]. }
    split; [|split; [|done]].
    + intros loc. destruct (decide (floc = loc)) as [<-|Hne].
      * rewrite lookup_insert_eq. right. right.
        exists data, (stored (finalFilePath_of a) data (m1 !! floc)).1,
          content, rest.
        rewrite <- Hsame. done.
      * rewrite lookup_insert_ne by done.
        destruct (Hin loc) as [->|[-> ->]]; [by left|right; by left].
    + exists (floc :: changed1). split; [simpl; lia|]. intros loc Hloc.
      rewrite lookup_insert_ne.
      * apply Hout. intros ?. apply Hloc. by right.
      * intros <-. apply Hloc. by left.
Qed.

(** X11. What a call that returns [false] has changed: nothing, or the
    folder that [mkdirSync] created before the write failed; and, when
    the write failed after the target was opened, the target, which is
    left with the first bytes of the serialization in place of what it
    held. *)
Theorem writeJsonFiles_failure_leaves (a : writeJsonFilesArguments) (w : World)
    (w' : World) :
  writeJsonFiles a w = (Normal False_, w') →
  ∃ m1,
    (m1 = files w
     ∨ ∃ loc, files w !! loc = None
         ∧ m1 = <[loc := Dir true]> (files w)
         ∧ mkdir_target (files w) (cwd w) (folderPath_of a) = inr loc)
    ∧ (files w' = m1
       ∨ ∃ floc file data content rest,
           write_target m1 (cwd w) (finalFilePath_of a) = inr floc
           ∧ JSON.stringify (dataToWrite a) 2 = Some data
           ∧ files w' = <[floc := file]> m1
           ∧ content_of file = Some content ∧ data = content +:+ rest).
Proof.
  intros Hrun.
  destruct (writeJsonFiles_files a w) as (m1 & Hm1 & Hrest).
  cbv zeta in Hm1, Hrest. rewrite Hrun in Hrest. simpl in Hrest.
  exists m1. split.
  { destruct Hm1 as [->|(dloc & _ & Hmk & Hnone & ->)]; [by left|].
    right. by exists dloc. }
  destruct Hrest as [[_ ->]|(data & floc & Hdata & Hw & -> & Hr)]; [by left|].
  right.
  destruct (stored_content (finalFilePath_of a) data (m1 !! floc))
    as (content & rest & Hc & Hrest & _).
  destruct (stored (finalFilePath_of a) data (m1 !! floc)) as [file [e|]];
    [|done].
  by exists floc, file, data, content, rest.
Qed.

(** The volume of the target is full: the write fails after the open. *)
Lemma writeJsonFiles_failure_leaves_witness :
  let a := users_args in
  let w := world_of fs_full in
  ∃ m1,
    (m1 = files w
     ∨ ∃ loc, files w !! loc = None
         ∧ m1 = <[loc := Dir true]> (files w)
         ∧ mkdir_target (files w) (cwd w) (folderPath_of a) = inr loc)
    ∧ (files (writeJsonFiles a w).2 = m1
       ∨ ∃ floc file data content rest,
           write_target m1 (cwd w) (finalFilePath_of a) = inr floc
           ∧ JSON.stringify (dataToWrite a) 2 = Some data
           ∧ files (writeJsonFiles a w).2 = <[floc := file]> m1
           ∧ content_of file = Some content ∧ data = content +:+ rest).
Proof.
  cbv zeta.
  apply (writeJsonFiles_failure_leaves users_args (world_of fs_full)).
  assert (H : (writeJsonFiles users_args (world_of fs_full)).1 = Normal False_)
    by (vm_compute; reflexivity).
  rewrite <- H. apply surjective_pairing.
Defined.

(** *** The calls made and the lines printed *)

(** The line logged after the folder was created. *)
Definition created_line (a : writeJsonFilesArguments) (w : World) : ConsoleLine :=
  Log ("⚙️ |[" +:+ Time.getCurrentTime (clock w)
         +:+ "]| Directory created: " +:+ folderPath_of a).

(** A call that ends with result [r], files [m], after the calls [l] and
    the console lines [lines]. *)
Definition ends_with (a : writeJsonFilesArguments) (w : World) (r : Result)
    (m : gmap (list string) node) (lines : list ConsoleLine) (l : list FsCall)
    : Prop :=
  writeJsonFiles a w
  = (Normal r, mkWorld m (cwd w) (clock w) (console w ++ lines) (calls w ++ l)).

(** The result of the write, the files it leaves and the line it has
    printed. *)
Definition write_result (a : writeJsonFilesArguments) (data : string)
    (m : gmap (list string) node) (wd : list string)
    : Result * gmap (list string) node * list ConsoleLine :=
  let p := finalFilePath_of a in
  match write_target m wd p with
  | inl e => (False_, m, [ErrorLine e])
  | inr loc =>
      let '(file, failure) := stored p data (m !! loc) in
      match failure with
      | None => (FinalPath p, <[loc := file]> m, [])
      | Some e => (False_, <[loc := file]> m, [ErrorLine e])
      end
  end.

Lemma write_result_lines a data m wd :
  let '(r, _, lines) := write_result a data m wd in
  r = FinalPath (finalFilePath_of a) ∧ lines = []
  ∨ r = False_ ∧ ∃ e, lines = [ErrorLine e].
Proof.
  unfold write_result. destruct (write_target _ _ _) as [e|loc].
  - right. by eauto.
  - destruct (stored _ _ _) as [file [e|]]; [right; by eauto|by left].
Qed.

Lemma finish_ends a data w :
  finish a data w =
  let '(r, m', lines) := write_result a data (files w) (cwd w) in
  (Normal r,
   mkWorld m' (cwd w) (clock w) (console w ++ lines)
     (calls w ++ [CallWrite (finalFilePath_of a) data])).
Proof.
  unfold finish, failed, write_result.
  destruct (write_target _ _ _) as [e|loc]; [done|].
  destruct (stored _ _ _) as [file [e|]]; [done|].
  unfold with_files, add_call. simpl. by rewrite app_nil_r.
Qed.

(** The ways through [writeJsonFiles]. *)
Lemma writeJsonFiles_branches (a : writeJsonFilesArguments) (w : World) :
  let f := folderPath_of a in
  let p := finalFilePath_of a in
  let m := files w in
  (JSON.stringify (dataToWrite a) 2 = None
   ∧ ends_with a w False_ m [ErrorLine serialization_error] [])
  ∨ ∃ data, JSON.stringify (dataToWrite a) 2 = Some data ∧
      ((exists_at m (cwd w) f = true
        ∧ ∃ r m' lines, write_result a data m (cwd w) = (r, m', lines)
          ∧ ends_with a w r m' lines [CallExists f; CallWrite p data])
       ∨ (exists_at m (cwd w) f = false
          ∧ ∃ e, mkdir_target m (cwd w) f = inl e
            ∧ ends_with a w False_ m [ErrorLine e] [CallExists f; CallMkdir f])
       ∨ (exists_at m (cwd w) f = false
          ∧ ∃ dloc r m' lines, mkdir_target m (cwd w) f = inr dloc
            ∧ write_result a data (<[dloc := Dir true]> m) (cwd w) = (r, m', lines)
            ∧ ends_with a w r m' (created_line a w :: lines)
                [CallExists f; CallMkdir f; CallWrite p data])).
Proof.
  cbv zeta. unfold ends_with. rewrite writeJsonFiles_unfold.
  destruct (JSON.stringify (dataToWrite a) 2) as [data|] eqn:Hdata.
  2:{ left. split; [done|]. unfold failed, add_line. rewrite app_nil_r. reflexivity. }
  right. exists data. split; [done|]. cbv zeta.
  destruct (exists_at (files w) (cwd w) (folderPath_of a)) eqn:Hex.
  - left. split; [done|]. rewrite finish_ends. simpl.
    destruct (write_result a data (files w) (cwd w)) as [[r m'] lines].
    exists r, m', lines. split; [done|]. by rewrite <- (assoc_L (++)).
  - right.
    destruct (mkdir_target (files w) (cwd w) (folderPath_of a)) as [e|dloc] eqn:Hmk.
    + left. split; [done|]. exists e. split; [done|].
      unfold failed, add_line, add_call. simpl. by rewrite <- (assoc_L (++)).
    + right. split; [done|]. rewrite finish_ends. simpl.
      destruct (write_result a data (<[dloc := Dir true]> (files w)) (cwd w))
        as [[r m'] lines] eqn:Hwr.
      exists dloc, r, m', lines. split; [done|]. split; [done|].
      unfold created_line. by rewrite <- !(assoc_L (++)).
Qed.

(** X12. The order of the calls to [fs]: when the payload is serialized,
    the folder is tested first; [mkdirSync] is called exactly when the
    folder was not found; the write is the last call, made once, and is
    not made after [mkdirSync] failed.  A call that returns a path has
    made the write. *)
Theorem writeJsonFiles_call_order (a : writeJsonFilesArguments) (w : World) :
  let '(r, w') := writeJsonFiles a w in
  let f := folderPath_of a in
  let p := finalFilePath_of a in
  ∃ l, calls w' = calls w ++ l ∧
    match JSON.stringify (dataToWrite a) 2 with
    | None => l = [] ∧ r = Normal False_
    | Some data =>
        if exists_at (files w) (cwd w) f then
          l = [CallExists f; CallWrite p data]
        else
          match mkdir_target (files w) (cwd w) f with
          | inl _ => l = [CallExists f; CallMkdir f] ∧ r = Normal False_
          | inr _ => l = [CallExists f; CallMkdir f; CallWrite p data]
          end
    end.
Proof.
  destruct (writeJsonFiles_branches a w)
    as [[Hdata H]|(data & Hdata & [(Hex & r & m' & lines & Hw & H)|
        [(Hex & e & Hmk & H)|(Hex & dloc & r & m' & lines & Hmk & Hw & H)]])];
    unfold ends_with in H; rewrite H; cbv zeta; rewrite Hdata, ?Hex, ?Hmk;
    eexists; (split; [reflexivity|done]).
Qed.

(** X13. What is printed: the line about the created folder, with the
    time stamp and the folder path, exactly when [mkdirSync] was called
    and succeeded; then one error line exactly when the call returns
    [false]; nothing else. *)
Theorem writeJsonFiles_prints (a : writeJsonFilesArguments) (w : World) :
  let '(r, w') := writeJsonFiles a w in
  ∃ created failure,
    console w' = console w ++ created ++ failure
    ∧ (created = [] ∨ created = [created_line a w])
    ∧ (created ≠ [] ↔
         CallMkdir (folderPath_of a) ∈ drop (length (calls w)) (calls w')
         ∧ ∃ loc, mkdir_target (files w) (cwd w) (folderPath_of a) = inr loc)
    ∧ (r = Normal (FinalPath (finalFilePath_of a)) ∧ failure = []
       ∨ r = Normal False_ ∧ ∃ e, failure = [ErrorLine e]).
Proof.
  destruct (writeJsonFiles_branches a w)
    as [[Hdata H]|(data & Hdata & [(Hex & r & m' & lines & Hw & H)|
        [(Hex & e & Hmk & H)|(Hex & dloc & r & m' & lines & Hmk & Hw & H)]])];
    unfold ends_with in H; rewrite H; cbv zeta; cbn [console calls];
    rewrite drop_app_length.
  - exists [], [ErrorLine serialization_error]. split; [done|]. split; [by left|].
    split; [|right; by eauto]. split; [done|]. by intros [?%elem_of_nil _].
  - exists [], lines. split; [done|]. split; [by left|]. split.
    + split; [done|].
      intros [Hin _]. rewrite !elem_of_cons in Hin.
      by destruct Hin as [?|[?|?%elem_of_nil]].
    + pose proof (write_result_lines a data (files w) (cwd w)) as Hl.
      rewrite Hw in Hl. destruct Hl as [[-> ->]|[-> ?]]; [by left|by right].
  - exists [], [ErrorLine e]. split; [done|]. split; [by left|].
    split; [|right; by eauto]. split; [done|].
    intros [_ [loc Hloc]]. by rewrite Hmk in Hloc.
  - exists [created_line a w], lines. split; [done|]. split; [by right|]. split.
    + split; [|done].
      intros _. split; [|by exists dloc]. rewrite !elem_of_cons. right. by left.
    + pose proof (write_result_lines a data (<[dloc := Dir true]> (files w)) (cwd w))
        as Hl.
      rewrite Hw in Hl. destruct Hl as [[-> ->]|[-> ?]]; [by left|by right].
Qed.

(** *** A file system without write permission *)

Definition writable (n : node) : bool :=
  match n with
  | File b _ => b
  | Dir b => b
  | Capped _ _ => true
  end.

Definition read_only (m : gmap (list string) node) : Prop :=
  map_Forall (λ _ n, writable n = false) m.

Lemma write_target_needs m wd path loc :
  write_target m wd path = inr loc →
  (∃ old, m !! loc = Some old ∧ writable old = true)
  ∨ m !! removelast loc = Some (Dir true).
Proof.
  unfold write_target. destruct (resolve m wd path) as [e|loc']; [done|].
  destruct (m !! loc') as [[[|] old|b|l old]|] eqn:E; try done.
  - intros [= <-]. left. by eexists.
  - intros [= <-]. left. by eexists.
  - unfold check_parent.
    destruct (m !! removelast loc') as [[? ?|[|]|? ?]|] eqn:E'; try done.
    intros [= <-]. by right.
Qed.

Lemma mkdir_target_needs m wd path loc :
  mkdir_target m wd path = inr loc → m !! removelast loc = Some (Dir true).
Proof.
  unfold mkdir_target. destruct (strip_trailing_slashes path) as [|c rest].
  { by destruct (String.eqb path ""). }
  destruct (resolve m wd (String c rest)) as [e|loc']; [done|].
  destruct (m !! loc'); [done|]. unfold check_parent.
  destruct (m !! removelast loc') as [[? ?|[|]|? ?]|] eqn:E'; try done.
  by intros [= <-].
Qed.

(** [/home/out/shop/users.json] exists; nothing can be written. *)
Definition fs_locked : gmap (list string) node :=
  {[ [] := Dir false; ["home"] := Dir false; ["home"; "out"] := Dir false;
     ["home"; "out"; "shop"] := Dir false;
     ["home"; "out"; "shop"; "users.json"] := File false "[]" ]}.

(** X14. Where no file and no directory is writable, every call returns
    [false] and leaves the file system as it was. *)
Theorem writeJsonFiles_read_only (a : writeJsonFilesArguments) (w : World) :
  read_only (files w) →
  ∃ w', writeJsonFiles a w = (Normal False_, w') ∧ files w' = files w.
Proof.
  intros Hro.
  assert (Hw : ∀ path loc, write_target (files w) (cwd w) path ≠ inr loc).
  { intros path loc [(old & E & Hold)|E]%write_target_needs.
    - apply Hro in E. simpl in E. congruence.
    - by apply Hro in E. }
  assert (Hm : ∀ path loc, mkdir_target (files w) (cwd w) path ≠ inr loc).
  { intros path loc E%mkdir_target_needs. by apply Hro in E. }
  rewrite writeJsonFiles_unfold.
  destruct (JSON.stringify (dataToWrite a) 2) as [data|]; [|by eexists].
  cbv zeta. destruct (exists_at _ _ _).
  - unfold finish. simpl.
    destruct (write_target _ _ _) as [e|loc] eqn:E; [by eexists|].
    by apply Hw in E.
  - destruct (mkdir_target _ _ _) as [e|loc] eqn:E; [by eexists|].
    by apply Hm in E.
Qed.

Lemma writeJsonFiles_read_only_witness :
  ∃ w', writeJsonFiles users_args (world_of fs_locked) = (Normal False_, w')
        ∧ files w' = files (world_of fs_locked).
Proof.
  apply (writeJsonFiles_read_only users_args (world_of fs_locked)).
  unfold read_only, world_of, fs_locked. simpl.
  repeat apply map_Forall_insert_2; done.
Defined.

End Writer.

(** ** The setup wizard: [prompt] of [setup.ts] *)

Module Wizard.

(** *** Strings *)

Fixpoint ends_with_rev (suffix s : list ascii) : bool :=
  match suffix, s with
  | [], _ => true
  | c :: suffix', d :: s' => Ascii.eqb c d && ends_with_rev suffix' s'
  | _ :: _, [] => false
  end.

(** [s.endsWith(suffix)] *)
Definition endsWith (s suffix : string) : bool :=
  ends_with_rev (rev (list_ascii_of_string suffix)) (rev (list_ascii_of_string s)).

Definition bytes (l : list nat) : string :=
  string_of_list_ascii (map ascii_of_nat l).

(** The white space and line terminators of ECMAScript, in UTF-8: TAB, LF,
    VT, FF, CR, SP, U+00A0, U+1680, U+2000 to U+200A, U+2028, U+2029,
    U+202F, U+205F, U+3000, U+FEFF. *)
Definition white_space : list string :=
  map bytes
    ([[9]; [10]; [11]; [12]; [13]; [32]; [194; 160]; [225; 154; 128]]
     ++ map (λ n, [226; 128; n]) (seq 128 11)
     ++ [[226; 128; 168]; [226; 128; 169]; [226; 128; 175]; [226; 129; 159];
         [227; 128; 128]; [239; 187; 191]])%nat.

Fixpoint strip_leading (fuel : nat) (space : list string) (s : string) : string :=
  match fuel with
  | O => s
  | S fuel' =>
      match List.find (λ ws, String.prefix ws s) space with
      | Some ws => strip_leading fuel' space (Str.drop (String.length ws) s)
      | None => s
      end
  end.

Definition reverse (s : string) : string :=
  string_of_list_ascii (rev (list_ascii_of_string s)).

Definition trimStart (s : string) : string :=
  strip_leading (String.length s) white_space s.

Definition trimEnd (s : string) : string :=
  reverse (strip_leading (String.length s) (map reverse white_space) (reverse s)).

(** [s.trim()] *)
Definition trim (s : string) : string := trimEnd (trimStart s).

Example trim_samples :
  trim "  shop " = "shop" ∧ trim "" = "" ∧ trim " a b " = "a b"
  ∧ trim (bytes [9; 194; 160; 120; 226; 128; 168]%nat) = "x".
Proof. vm_compute. done. Qed.

Example endsWith_samples :
  endsWith "index.js" ".js" = true ∧ endsWith "index.ts" ".js" = false
  ∧ endsWith "js" ".js" = false.
Proof. vm_compute. done. Qed.

(** *** The terminal

    What the user does at each question: types a line, picks one of the
    enabled choices of a list, or interrupts the wizard.  At a question
    that proposes a default the user can also delete the proposal with
    the Backspace key and press Enter on the empty line ([Erased]). *)

Inductive Answer : Type :=
| Line (text : string)
| Pick (index : nat)
| CtrlC
| Erased.

Inductive Colour : Type := Red | Yellow | RedBright.

Inductive Printed : Type :=
| Question (message : string)
| Message (spans : list (Colour * string)).

Record Terminal : Type := mkTerminal {
  script : list Answer;
  printed : list Printed
}.

(** An error object: its [name] and, when it has one, its [code]. *)
Record ErrorObject : Type := mkError {
  error_name : string;
  error_code : option string
}.

(** [error.code === code] *)
Definition has_code (error : ErrorObject) (code : string) : bool :=
  match error_code error with
  | Some c => String.eqb c code
  | None => false
  end.

(** What a question throws when the user interrupts it: the error class
    [ExitPromptError] of [@inquirer/core] sets the name of the error and
    gives it no [code]. *)
Definition ExitPromptError : ErrorObject := mkError "ExitPromptError" None.

(** The errors of a script that does not fit the questions: an answer of
    the wrong kind, and no answer left. *)
Definition wrong_answer : ErrorObject :=
  mkError "TypeError" (Some "ERR_INVALID_ARG_TYPE").

Definition no_answer : ErrorObject :=
  mkError "Error" (Some "ERR_USE_AFTER_CLOSE").

(** A computation returns, throws an error, or ends the process
    ([process.exit]). *)
Inductive Outcome (A : Type) : Type :=
| Returned (a : A)
| Thrown (error : ErrorObject)
| Exited (status : Z).
Arguments Returned {A} a.
Arguments Thrown {A} error.
Arguments Exited {A} status.

Definition IO (A : Type) : Type := Terminal → Outcome A * Terminal.

Definition ret {A} (a : A) : IO A := λ t, (Returned a, t).
Definition bind {A B} (m : IO A) (k : A → IO B) : IO B :=
  λ t, match m t with
       | (Returned a, t') => k a t'
       | (Thrown code, t') => (Thrown code, t')
       | (Exited status, t') => (Exited status, t')
       end.
Definition try_catch {A} (body : IO A) (handler : ErrorObject → IO A) : IO A :=
  λ t, match body t with
       | (Thrown code, t') => handler code t'
       | other => other
       end.

Declare Scope io_scope.
Delimit Scope io_scope with io.
Notation "x <- m ;; k" := (bind m (λ x, k))
  (at level 100, m at next level, right associativity) : io_scope.
Notation "m ;; k" := (bind m (λ _, k))
  (at level 100, right associativity) : io_scope.

Definition print (p : Printed) : IO unit :=
  λ t, (Returned tt, mkTerminal (script t) (printed t ++ [p])).

Definition console_log (spans : list (Colour * string)) : IO unit :=
  print (Message spans).

Definition process_exit {A} (status : Z) : IO A := λ t, (Exited status, t).

Definition next_answer : IO Answer :=
  λ t, match script t with
       | answer :: rest => (Returned answer, mkTerminal rest (printed t))
       | [] => (Thrown no_answer, t)
       end.

(** [input({ message, default })]: the line typed, or the default for an
    empty line; the empty string when the user has deleted the default. *)
Definition input (message : string) (default : option string) : IO string :=
  (print (Question message) ;;
   answer <- next_answer ;;
   match answer with
   | Line text =>
       ret (match default with
            | Some d => if String.eqb text "" then d else text
            | None => text
            end)
   | Erased =>
       match default with
       | Some _ => ret ""
       | None => λ t, (Thrown wrong_answer, t)
       end
   | CtrlC => λ t, (Thrown ExitPromptError, t)
   | Pick _ => λ t, (Thrown wrong_answer, t)
   end)%io.

(** A choice of [select]: its value, and whether it is disabled. *)
Definition enabled {V} (choices : list (V * bool)) : list V :=
  map fst (filter (λ c : V * bool, snd c = false) choices).

(** [select({ message, choices })]: one of the enabled choices. *)
Definition select {V} (message : string) (choices : list (V * bool)) : IO V :=
  (print (Question message) ;;
   answer <- next_answer ;;
   match answer with
   | Pick index =>
       match nth_error (enabled choices) index with
       | Some v => ret v
       | None => λ t, (Thrown wrong_answer, t)
       end
   | CtrlC => λ t, (Thrown ExitPromptError, t)
   | Line _ | Erased => λ t, (Thrown wrong_answer, t)
   end)%io.

(** *** [promptFunctionReturnValues] *)

Inductive ModuleType : Type := commonjs | module_.
Inductive Method : Type := PAI | POU | NI.
Inductive DatabaseType : Type := MongoDB.

Record promptFunctionReturnValues : Type := mkReturnValues {
  projectName : string;
  dirPath : string;
  mainFile : string;
  moduleType : ModuleType;
  method : Method;
  interval : option float;
  databaseType : DatabaseType;
  databaseSecret : option string;
  mongodbDatabasedbs : option (list string);
  mongodbDatabaseExcludeCollections : option (list string);
  outDir : string
}.

(** [!x] on a number: true for [NaN], [0] and [-0]. *)
Definition not_number (x : float) : bool :=
  PrimFloat.is_nan x || PrimFloat.eqb x 0%float.

(** [answer.split(",")] followed by [.map((e) => e.trim())] *)
Definition split_and_trim (answer : string) : list string :=
  map trim (Split.split ","%char answer).

Definition set_projectName v r :=
  mkReturnValues v (dirPath r) (mainFile r) (moduleType r) (method r) (interval r)
    (databaseType r) (databaseSecret r) (mongodbDatabasedbs r)
    (mongodbDatabaseExcludeCollections r) (outDir r).
Definition set_dirPath v r :=
  mkReturnValues (projectName r) v (mainFile r) (moduleType r) (method r) (interval r)
    (databaseType r) (databaseSecret r) (mongodbDatabasedbs r)
    (mongodbDatabaseExcludeCollections r) (outDir r).
Definition set_mainFile v r :=
  mkReturnValues (projectName r) (dirPath r) v (moduleType r) (method r) (interval r)
    (databaseType r) (databaseSecret r) (mongodbDatabasedbs r)
    (mongodbDatabaseExcludeCollections r) (outDir r).
Definition set_moduleType v r :=
  mkReturnValues (projectName r) (dirPath r) (mainFile r) v (method r) (interval r)
    (databaseType r) (databaseSecret r) (mongodbDatabasedbs r)
    (mongodbDatabaseExcludeCollections r) (outDir r).
Definition set_method v r :=
  mkReturnValues (projectName r) (dirPath r) (mainFile r) (moduleType r) v (interval r)
    (databaseType r) (databaseSecret r) (mongodbDatabasedbs r)
    (mongodbDatabaseExcludeCollections r) (outDir r).
Definition set_interval v r :=
  mkReturnValues (projectName r) (dirPath r) (mainFile r) (moduleType r) (method r)
    (Some v) (databaseType r) (databaseSecret r) (mongodbDatabasedbs r)
    (mongodbDatabaseExcludeCollections r) (outDir r).
Definition set_databaseType v r :=
  mkReturnValues (projectName r) (dirPath r) (mainFile r) (moduleType r) (method r)
    (interval r) v (databaseSecret r) (mongodbDatabasedbs r)
    (mongodbDatabaseExcludeCollections r) (outDir r).
Definition set_databaseSecret v r :=
  mkReturnValues (projectName r) (dirPath r) (mainFile r) (moduleType r) (method r)
    (interval r) (databaseType r) (Some v) (mongodbDatabasedbs r)
    (mongodbDatabaseExcludeCollections r) (outDir r).
Definition set_mongodbDatabasedbs v r :=
  mkReturnValues (projectName r) (dirPath r) (mainFile r) (moduleType r) (method r)
    (interval r) (databaseType r) (databaseSecret r) (Some v)
    (mongodbDatabaseExcludeCollections r) (outDir r).
Definition set_mongodbDatabaseExcludeCollections v r :=
  mkReturnValues (projectName r) (dirPath r) (mainFile r) (moduleType r) (method r)
    (interval r) (databaseType r) (databaseSecret r) (mongodbDatabasedbs r)
    (Some v) (outDir r).
Definition set_outDir v r :=
  mkReturnValues (projectName r) (dirPath r) (mainFile r) (moduleType r) (method r)
    (interval r) (databaseType r) (databaseSecret r) (mongodbDatabasedbs r)
    (mongodbDatabaseExcludeCollections r) v.

Definition nl : string := String (ascii_of_nat 10) "".

(** A string is truthy when it is not empty. *)
Definition truthy (s : string) : bool := negb (String.eqb s "").

Section Prompt.

(** [Number(text)], the conversion of a string to a number, for a text
    that is not empty. *)
Variable Number : string → float.

(** [Number(text)]: the empty string is converted to [0]. *)
Definition StringToNumber (text : string) : float :=
  if String.eqb text "" then 0%float else Number text.

Definition initial_values : promptFunctionReturnValues :=
  mkReturnValues "" "." "index.js" commonjs PAI (Some 600000%float) MongoDB
    None None None ".".

Definition reject {A} (message : string) : IO A :=
  (console_log [(Red, nl +:+ message)] ;; process_exit 1)%io.

(** The question about the interval (method "Push After Interval"). *)
Definition interval_question (returnValues : promptFunctionReturnValues)
    : IO promptFunctionReturnValues :=
  (interval <- input
     "Set the interval (Enter in milliseconds) (Hit enter to proceed with default option):"
     (Some "600000") ;;
   let interval := StringToNumber interval in
   (if not_number interval then
      reject "Please enter a valid value and try again!"
    else if PrimFloat.ltb interval 5000%float then
      reject "The minimum interval should be above 5000 milliseconds!"
    else ret tt) ;;
   ret (set_interval interval returnValues))%io.

(** The questions about a MongoDB database: the secret key, the
    whitelist, the blacklist. *)
Definition mongodb_questions (returnValues : promptFunctionReturnValues)
    : IO promptFunctionReturnValues :=
  (databaseSecret <- input "Enter the database secret key (MongoDB URI):" None ;;
   returnValues <-
     (if truthy databaseSecret && negb (String.eqb databaseSecret "") then
        ret (set_databaseSecret databaseSecret returnValues)
      else
        reject "Please enter the database secret key (MongoDB URI) properly and try again!") ;;
   mongodbDatabasedbs <- input
     "Enter the whitelisted databases (Use ',' to seperate the values):" None ;;
   let mongodbDatabasedbs := split_and_trim mongodbDatabasedbs in
   let returnValues := set_mongodbDatabasedbs mongodbDatabasedbs returnValues in
   mongodbDatabaseExcludeCollections <- input
     "Enter the blacklisted collections in all databases (Mention the database of the collection, e.g. 'db/col') (Use ',' to seperate the values):"
     None ;;
   let mongodbDatabaseExcludeCollections :=
     split_and_trim mongodbDatabaseExcludeCollections in
   ret (set_mongodbDatabaseExcludeCollections
          mongodbDatabaseExcludeCollections returnValues))%io.

(** The questions after the one about the interval. *)
Definition database_questions (returnValues : promptFunctionReturnValues)
    : IO promptFunctionReturnValues :=
  (databaseType <- select "Select the cloud database" [(MongoDB, false)] ;;
   let returnValues := set_databaseType databaseType returnValues in
   returnValues <-
     match databaseType with
     | MongoDB => mongodb_questions returnValues
     end ;;
   outDir <- input
     "Enter the directory to store the local files (Hit enter to proceed with default option):"
     (Some ".") ;;
   returnValues <-
     (if truthy outDir && negb (String.eqb outDir "") then
        ret (set_outDir outDir returnValues)
      else reject "Please enter the directory path properly and try again!") ;;
   ret returnValues)%io.

(** The questions after the main file was accepted. *)
Definition rage_questions (returnValues : promptFunctionReturnValues)
    : IO promptFunctionReturnValues :=
  (moduleType <- select "Enter the package type:"
     [(commonjs, false); (module_, false)] ;;
   let returnValues := set_moduleType moduleType returnValues in
   method <- select "Enter which RAGE method to use for this project:"
     [(PAI, false); (POU, true); (NI, true)] ;;
   let returnValues := set_method method returnValues in
   returnValues <-
     match method with
     | PAI => interval_question returnValues
     | _ => ret returnValues
     end ;;
   database_questions returnValues)%io.

(** The [try] block of [prompt]. *)
Definition prompt_body : IO promptFunctionReturnValues :=
  (let returnValues := initial_values in
   projectName <- input "Enter the application/project name:" None ;;
   if truthy projectName && negb (String.eqb projectName "") then
     let returnValues := set_projectName projectName returnValues in
     dirPath <- input
       "Enter the directory path (Hit enter to proceed with default option):"
       (Some ".") ;;
     if truthy dirPath && negb (String.eqb dirPath "") then
       let returnValues := set_dirPath dirPath returnValues in
       mainFile <- input
         "Enter the main file name (Hit enter to proceed with default option):"
         (Some "index.js") ;;
       if truthy mainFile && negb (String.eqb mainFile "")
          && endsWith mainFile ".js" then
         let returnValues := set_mainFile mainFile returnValues in
         rage_questions returnValues
       else
         console_log
           [(Red, nl +:+ "Please enter a valid file name with .js extension and try again!");
            (Yellow, nl +:+ "RAGE CLI doesn't support typescript nor any other files except javascript files yet.")] ;;
         process_exit 1
     else reject "Please enter the working directory properly and try again!"
   else reject "Please enter a valid name for the application/project and try again!")%io.

(** [prompt]: every error thrown by a question ends the process. *)
Definition prompt : IO promptFunctionReturnValues :=
  try_catch prompt_body
    (λ error,
       if has_code error "ExitPromptError" then
         (console_log [(Red, nl +:+ "Unexpected error occured!")] ;;
          process_exit 1)%io
       else
         (console_log [(RedBright, nl +:+ "Terminating process...")] ;;
          process_exit 1)%io).

End Prompt.

(** *** The interval floor *)

Definition with_default (d text : string) : string :=
  if String.eqb text "" then d else text.

(** The answers that lead to the question about the interval: a project
    name, a directory, a main file, the package type, and the method
    "Push After Interval" (the only enabled one). *)
Definition up_to_interval (name dir main : string) (package : nat)
    : list Answer :=
  [Line name; Line dir; Line main; Pick package; Pick 0].

Definition valid_start (name main : string) (package : nat) : bool :=
  negb (String.eqb name "")
  && endsWith (with_default "index.js" main) ".js"
  && (package <? 2)%nat.

(** A conversion that agrees with [Number] on the decimal numerals of the
    integers below 2^53; used to run the wizard on samples. *)
Definition Number_of_numeral (text : string) : float :=
  if negb (String.eqb text "") && Decimal.all_digits text then
    PrimFloat.of_uint63
      (Uint63.of_Z
         (fold_left (λ acc c, 10 * acc + Decimal.digit_val c)
            (list_ascii_of_string text) 0))
  else PrimFloat.nan.

Definition sample_script (interval whitelist blacklist : string) : list Answer :=
  up_to_interval "backup" "" "" 0
    ++ [Line interval; Pick 0; Line "mongodb://localhost"; Line whitelist;
        Line blacklist; Line "data"].

Example prompt_samples :
  (prompt Number_of_numeral (mkTerminal (sample_script "4999" "shop" "") [])).1
    = Exited 1
  ∧ (prompt Number_of_numeral (mkTerminal (sample_script "5000" "shop, logs" "shop/sessions") [])).1
    = Returned (mkReturnValues "backup" "." "index.js" commonjs PAI
                  (Some 5000%float) MongoDB (Some "mongodb://localhost")
                  (Some ["shop"; "logs"]) (Some ["shop/sessions"]) "data")
  ∧ (prompt Number_of_numeral (mkTerminal (sample_script "" "" "") [])).1
    = Returned (mkReturnValues "backup" "." "index.js" commonjs PAI
                  (Some 600000%float) MongoDB (Some "mongodb://localhost")
                  (Some [""]) (Some [""]) "data")
  ∧ (prompt Number_of_numeral (mkTerminal (sample_script "soon" "shop" "") [])).1
    = Exited 1
  ∧ (prompt Number_of_numeral (mkTerminal [Line "backup"; CtrlC] [])).1
    = Exited 1.
Proof. vm_compute. done. Qed.

(** [rageConfigFileData] of [createFiles]: the generated configuration. *)
Record RageConfig : Type := mkRageConfig {
  config_method : Method;
  config_interval : option float;
  config_type : DatabaseType;
  config_secretKey : option string;
  config_dbs : option (list string);
  config_excludeCollections : option (list string);
  config_outDir : string
}.

Definition rageConfigFileData (configSettings : promptFunctionReturnValues)
    : RageConfig :=
  mkRageConfig (method configSettings) (interval configSettings)
    (databaseType configSettings) (databaseSecret configSettings)
    (mongodbDatabasedbs configSettings)
    (mongodbDatabaseExcludeCollections configSettings)
    (outDir configSettings).

(** A line and a default that is not empty give a text that is not
    empty, which [Number] converts. *)
Lemma StringToNumber_default (Number : string → float) (d text : string) :
  d ≠ "" →
  StringToNumber Number (with_default d text) = Number (with_default d text).
Proof.
  intros Hd. unfold StringToNumber, with_default.
  destruct (String.eqb_spec text "") as [->|Htext].
  - by destruct (String.eqb_spec d "").
  - by destruct (String.eqb_spec text "").
Qed.

Section PromptFacts.

Variable Number : string → float.

Definition asked (message : string) (t : Terminal) (rest : list Answer) : Terminal :=
  mkTerminal rest (printed t ++ [Question message]).

Definition interval_message : string :=
  "Set the interval (Enter in milliseconds) (Hit enter to proceed with default option):".

Lemma interval_question_eq returnValues text rest shown :
  interval_question Number returnValues (mkTerminal (Line text :: rest) shown) =
  let x := Number (with_default "600000" text) in
  let t := mkTerminal rest (shown ++ [Question interval_message]) in
  if not_number x then
    (Exited 1,
     mkTerminal rest
       (printed t ++ [Message [(Red, nl +:+ "Please enter a valid value and try again!")]]))
  else if PrimFloat.ltb x 5000%float then
    (Exited 1,
     mkTerminal rest
       (printed t ++ [Message [(Red, nl +:+ "The minimum interval should be above 5000 milliseconds!")]]))
  else (Returned (set_interval x returnValues), t).
Proof.
  unfold interval_question, bind, input, print, next_answer. simpl.
  fold (with_default "600000" text).
  rewrite StringToNumber_default by done. cbv zeta.
  destruct (not_number _); [done|]. by destruct (PrimFloat.ltb _ _).
Qed.

(** The state in which the question about the interval is asked. *)
Definition values_before_interval (name dir main : string) (package : nat)
    : promptFunctionReturnValues :=
  mkReturnValues name (with_default "." dir) (with_default "index.js" main)
    (if package is O then commonjs else module_) PAI (Some 600000%float)
    MongoDB None None None ".".

Definition shown_before_interval (shown : list Printed) : list Printed :=
  shown ++ [Question "Enter the application/project name:";
            Question "Enter the directory path (Hit enter to proceed with default option):";
            Question "Enter the main file name (Hit enter to proceed with default option):";
            Question "Enter the package type:";
            Question "Enter which RAGE method to use for this project:"].

Lemma prompt_body_to_interval name dir main package rest shown :
  valid_start name main package = true →
  prompt_body Number
    (mkTerminal (up_to_interval name dir main package ++ rest) shown) =
  bind (interval_question Number (values_before_interval name dir main package))
    (database_questions)
    (mkTerminal rest (shown_before_interval shown)).
Proof.
  unfold valid_start. intros H.
  apply andb_prop in H as [H Hpackage]. apply andb_prop in H as [Hname Hmain].
  apply Nat.ltb_lt in Hpackage.
  unfold prompt_body, up_to_interval.
  unfold bind at 1. unfold input at 1, bind, print, next_answer, ret. simpl.
  unfold truthy. rewrite Hname. simpl.
  assert (Hdir : negb (String.eqb (with_default "." dir) "") = true).
  { unfold with_default. by destruct (String.eqb_spec dir ""); [|destruct dir]. }
  unfold with_default in Hdir. rewrite Hdir. simpl.
  assert (Hmain' : negb (String.eqb (with_default "index.js" main) "") = true).
  { unfold with_default. by destruct (String.eqb_spec main ""); [|destruct main]. }
  unfold with_default in Hmain, Hmain'. rewrite Hmain', Hmain. simpl.
  unfold shown_before_interval, values_before_interval, with_default.
  rewrite <- !(assoc_L (++)). simpl.
  destruct package as [|[|package]]; [| |lia];
    unfold rage_questions, bind, select, print, next_answer, ret; simpl;
    by rewrite <- !(assoc_L (++)).
Qed.

Lemma prompt_exits_with_body (t t' : Terminal) status :
  prompt_body Number t = (Exited status, t') →
  prompt Number t = (Exited status, t').
Proof. unfold prompt, try_catch. by intros ->. Qed.

Lemma prompt_returns_with_body (t t' : Terminal) rv :
  prompt_body Number t = (Returned rv, t') ↔
  prompt Number t = (Returned rv, t').
Proof.
  unfold prompt, try_catch. destruct (prompt_body Number t) as [[rv'|code|status] t''].
  - done.
  - split; [done|]. unfold bind, console_log, print, process_exit.
    by destruct (has_code code "ExitPromptError").
  - done.
Qed.

(** C4. Once the question about the interval is reached, an answer whose
    number is below 5000 ends the process with status 1 before any further
    question is asked; the answer 5000 is accepted, and with a secret key
    and the remaining answers the wizard returns a configuration whose
    interval is 5000. *)
Theorem interval_floor (name dir main : string) (package : nat) (text : string)
    (rest : list Answer) (shown : list Printed) :
  valid_start name main package = true →
  let t := mkTerminal (up_to_interval name dir main package ++ Line text :: rest)
             shown in
  let x := Number (with_default "600000" text) in
  (PrimFloat.ltb x 5000%float = true →
     ∃ t', prompt Number t = (Exited 1, t') ∧ script t' = rest) ∧
  (x = 5000%float →
     ∀ secret whitelist blacklist out tail,
       rest = [Pick 0; Line secret; Line whitelist; Line blacklist; Line out] ++ tail →
       secret ≠ "" →
       ∃ rv t', prompt Number t = (Returned rv, t') ∧
                interval rv = Some 5000%float ∧ script t' = tail).
Proof.
  intros Hstart t x. subst t.
  pose proof (prompt_body_to_interval name dir main package (Line text :: rest)
                shown Hstart) as Hbody.
  unfold bind in Hbody. rewrite interval_question_eq in Hbody.
  cbv zeta in Hbody. fold x in Hbody. split.
  - intros Hlow. rewrite Hlow in Hbody.
    destruct (not_number x); eexists; (split; [by apply prompt_exits_with_body|done]).
  - intros Hx secret whitelist blacklist out tail -> Hsecret.
    rewrite Hx in Hbody.
    change (not_number 5000%float) with false in Hbody.
    change (PrimFloat.ltb 5000%float 5000%float) with false in Hbody.
    cbv iota in Hbody.
    unfold database_questions, mongodb_questions, bind, select, input, print,
      next_answer, ret in Hbody.
    simpl in Hbody. unfold truthy in Hbody.
    destruct (String.eqb_spec secret ""); [done|]. simpl in Hbody.
    assert (Hout : negb (String.eqb (with_default "." out) "") = true).
    { unfold with_default. by destruct (String.eqb_spec out ""); [|destruct out]. }
    unfold with_default in Hout. rewrite Hout in Hbody. simpl in Hbody.
    eexists _, _. split; [by apply prompt_returns_with_body|]. done.
Qed.

(** *** The whitelist and the blacklist *)

Lemma split_and_trim_nonempty (answer : string) : split_and_trim answer ≠ [].
Proof.
  unfold split_and_trim. intros H. apply map_eq_nil in H.
  by apply Split.split_nonempty in H.
Qed.

(** The two lists come from two typed lines. *)
Definition lists_from_answers (rv : promptFunctionReturnValues) : Prop :=
  ∃ whitelist blacklist,
    mongodbDatabasedbs rv = Some (split_and_trim whitelist) ∧
    mongodbDatabaseExcludeCollections rv = Some (split_and_trim blacklist).

Lemma bind_returned {A B} (m : IO A) (k : A → IO B) t b t' :
  bind m k t = (Returned b, t') →
  ∃ a t1, m t = (Returned a, t1) ∧ k a t1 = (Returned b, t').
Proof.
  unfold bind. destruct (m t) as [[a|code|status] t1]; try done.
  intros H. by exists a, t1.
Qed.

Lemma ret_returned {A} (a b : A) t t' :
  ret a t = (Returned b, t') → a = b.
Proof. by intros [= -> _]. Qed.

Lemma reject_not_returned {A} message t (a : A) t' :
  reject message t ≠ (Returned a, t').
Proof. done. Qed.

Ltac bind_inversion H :=
  let a := fresh "a" in
  let t := fresh "t" in
  let Hm := fresh "Hm" in
  apply bind_returned in H as (a & t & Hm & H).

Lemma mongodb_questions_lists returnValues t rv t' :
  mongodb_questions returnValues t = (Returned rv, t') → lists_from_answers rv.
Proof.
  unfold mongodb_questions. intros H.
  bind_inversion H. bind_inversion H. bind_inversion H. bind_inversion H.
  apply ret_returned in H as <-. by eexists _, _.
Qed.

Lemma database_questions_lists returnValues t rv t' :
  database_questions returnValues t = (Returned rv, t') → lists_from_answers rv.
Proof.
  unfold database_questions. intros H.
  bind_inversion H. bind_inversion H. bind_inversion H. bind_inversion H.
  apply ret_returned in H as <-.
  destruct a. apply mongodb_questions_lists in Hm0 as (whitelist & blacklist & Hw & Hb).
  destruct (truthy a1 && _).
  - apply ret_returned in Hm2 as <-. by exists whitelist, blacklist.
  - by apply reject_not_returned in Hm2.
Qed.

Lemma rage_questions_lists returnValues t rv t' :
  rage_questions Number returnValues t = (Returned rv, t') → lists_from_answers rv.
Proof.
  unfold rage_questions. intros H.
  bind_inversion H. bind_inversion H. bind_inversion H.
  by apply database_questions_lists in H.
Qed.

Lemma prompt_body_lists t rv t' :
  prompt_body Number t = (Returned rv, t') → lists_from_answers rv.
Proof.
  unfold prompt_body. intros H. cbv zeta in H.
  bind_inversion H.
  destruct (truthy a && _); [|by apply reject_not_returned in H].
  bind_inversion H.
  destruct (truthy a0 && _); [|by apply reject_not_returned in H].
  bind_inversion H.
  destruct (truthy a1 && _ && _).
  - by apply rage_questions_lists in H.
  - by bind_inversion H.
Qed.

(** C10. Whenever the wizard returns, the whitelist and the blacklist of
    the returned values, and of the configuration generated from them,
    are the pieces of two typed lines and are not empty; the empty line
    gives the one-element list [[""]]. *)
Theorem lists_never_empty (t : Terminal) (rv : promptFunctionReturnValues)
    (t' : Terminal) :
  prompt Number t = (Returned rv, t') →
  (∃ whitelist blacklist,
     config_dbs (rageConfigFileData rv) = Some (split_and_trim whitelist) ∧
     config_excludeCollections (rageConfigFileData rv)
       = Some (split_and_trim blacklist) ∧
     split_and_trim whitelist ≠ [] ∧ split_and_trim blacklist ≠ []) ∧
  config_dbs (rageConfigFileData rv) ≠ Some [] ∧
  config_excludeCollections (rageConfigFileData rv) ≠ Some [] ∧
  split_and_trim "" = [""].
Proof.
  intros H. apply prompt_returns_with_body, prompt_body_lists in H
    as (whitelist & blacklist & Hw & Hb).
  simpl. rewrite Hw, Hb. repeat split.
  - exists whitelist, blacklist.
    repeat split; (done || apply split_and_trim_nonempty).
  - intros [= E]. by apply split_and_trim_nonempty in E.
  - intros [= E]. by apply split_and_trim_nonempty in E.
Qed.

End PromptFacts.

Definition rest_4999 : list Answer :=
  [Pick 0; Line "mongodb://localhost"; Line "shop"; Line ""; Line "data"].

Lemma interval_floor_witness :
  (∃ t', prompt Number_of_numeral (mkTerminal (sample_script "4999" "shop" "") [])
         = (Exited 1, t') ∧ script t' = rest_4999) ∧
  (∃ rv t', prompt Number_of_numeral (mkTerminal (sample_script "5000" "shop" "") [])
            = (Returned rv, t') ∧ interval rv = Some 5000%float ∧ script t' = []).
Proof.
  split.
  - apply (proj1 (interval_floor Number_of_numeral "backup" "" "" 0 "4999"
                    rest_4999 [] eq_refl)).
    vm_compute. reflexivity.
  - apply (proj2 (interval_floor Number_of_numeral "backup" "" "" 0 "5000"
                    rest_4999 [] eq_refl)
             eq_refl "mongodb://localhost" "shop" "" "data" []); done.
Defined.

Lemma lists_never_empty_witness :
  let rv := mkReturnValues "backup" "." "index.js" commonjs PAI
              (Some 600000%float) MongoDB (Some "mongodb://localhost")
              (Some [""]) (Some [""]) "data" in
  (∃ whitelist blacklist,
     config_dbs (rageConfigFileData rv) = Some (split_and_trim whitelist) ∧
     config_excludeCollections (rageConfigFileData rv)
       = Some (split_and_trim blacklist) ∧
     split_and_trim whitelist ≠ [] ∧ split_and_trim blacklist ≠ []) ∧
  config_dbs (rageConfigFileData rv) ≠ Some [] ∧
  config_excludeCollections (rageConfigFileData rv) ≠ Some [] ∧
  split_and_trim "" = [""].
Proof.
  apply (lists_never_empty Number_of_numeral
           (mkTerminal (sample_script "" "" "") [])
           _ (mkTerminal [] (printed (prompt Number_of_numeral (mkTerminal (sample_script "" "" "") [])).2))).
  vm_compute. reflexivity.
Defined.

(** *** The run that returns *)

(** The eleven questions of a run that returns, in order. *)
Definition questions : list Printed :=
  [Question "Enter the application/project name:";
   Question "Enter the directory path (Hit enter to proceed with default option):";
   Question "Enter the main file name (Hit enter to proceed with default option):";
   Question "Enter the package type:";
   Question "Enter which RAGE method to use for this project:";
   Question interval_message;
   Question "Select the cloud database";
   Question "Enter the database secret key (MongoDB URI):";
   Question "Enter the whitelisted databases (Use ',' to seperate the values):";
   Question "Enter the blacklisted collections in all databases (Mention the database of the collection, e.g. 'db/col') (Use ',' to seperate the values):";
   Question "Enter the directory to store the local files (Hit enter to proceed with default option):"].

(** The answers of a run: three lines, the package type, the method, the
    interval, the database, the secret key, the two lists, the output
    directory. *)
Definition answers (name dir main : string) (package : nat)
    (text secret whitelist blacklist out : string) : list Answer :=
  up_to_interval name dir main package
    ++ [Line text; Pick 0; Line secret; Line whitelist; Line blacklist; Line out].

Ltac io_inversion H :=
  let a := fresh "a" in
  let t := fresh "t" in
  let Hm := fresh "Hm" in
  apply bind_returned in H as (a & t & Hm & H).

Lemma ret_returned' {A} (a b : A) t t' :
  ret a t = (Returned b, t') → a = b ∧ t = t'.
Proof. by intros [= -> ->]. Qed.

(** A question without a default returns the line that was typed. *)
Lemma input_returned message s shown text t' :
  input message None (mkTerminal s shown) = (Returned text, t') →
  ∃ rest, s = Line text :: rest
    ∧ t' = mkTerminal rest (shown ++ [Question message]).
Proof.
  unfold input, bind, print, next_answer. simpl.
  destruct s as [|[line|index| |] rest]; try done.
  intros [= <- <-]. by exists rest.
Qed.

(** A question with a default returns the line that was typed, or the
    default for the empty line, or the empty string after the default was
    erased. *)
Lemma input_default_returned message d s shown text t' :
  input message (Some d) (mkTerminal s shown) = (Returned text, t') →
  t' = mkTerminal (tail s) (shown ++ [Question message])
  ∧ ((∃ line, s = Line line :: tail s ∧ text = with_default d line)
     ∨ (s = Erased :: tail s ∧ text = "")).
Proof.
  unfold input, bind, print, next_answer. simpl.
  destruct s as [|[line|index| |] rest]; try done.
  - intros [= <- <-]. split; [done|]. left. by exists line.
  - intros [= <- <-]. split; [done|]. by right.
Qed.

Lemma select_returned {V} message (choices : list (V * bool)) s shown v t' :
  select message choices (mkTerminal s shown) = (Returned v, t') →
  ∃ index rest, s = Pick index :: rest
    ∧ nth_error (enabled choices) index = Some v
    ∧ t' = mkTerminal rest (shown ++ [Question message]).
Proof.
  unfold select, bind, print, next_answer. simpl.
  destruct s as [|[line|index| |] rest]; try done.
  destruct (nth_error (enabled choices) index) as [v'|] eqn:E; [|done].
  intros [= <- <-]. by exists index, rest.
Qed.

Lemma with_default_nonempty d text : d ≠ "" → with_default d text ≠ "".
Proof. unfold with_default. by destruct (String.eqb_spec text ""). Qed.

Lemma truthy_nonempty s :
  truthy s && negb (String.eqb s "") = true ↔ s ≠ "".
Proof. unfold truthy. destruct (String.eqb_spec s ""); simpl; split; done. Qed.

Lemma ends_with_rev_prefix (suffix : list ascii) : ∀ s,
  ends_with_rev suffix s = true → ∃ rest, s = suffix ++ rest.
Proof.
  induction suffix as [|c suffix IH]; intros s H; [by exists s|].
  destruct s as [|d s]; [done|]. simpl in H.
  apply andb_prop in H as [Hc H]. apply Ascii.eqb_eq in Hc as ->.
  destruct (IH s H) as [rest ->]. by exists rest.
Qed.

Lemma string_of_list_app (l l' : list ascii) :
  string_of_list_ascii (l ++ l')
  = string_of_list_ascii l +:+ string_of_list_ascii l'.
Proof.
  induction l as [|c l IH]; [done|]. simpl. by rewrite IH, Str.app_cons.
Qed.

(** A string that ends with [suffix] is a stem followed by [suffix]. *)
Lemma endsWith_stem (s suffix : string) :
  endsWith s suffix = true → ∃ stem, s = stem +:+ suffix.
Proof.
  unfold endsWith. intros [rest H]%ends_with_rev_prefix.
  apply (f_equal (@rev ascii)) in H.
  rewrite rev_involutive, rev_app_distr, rev_involutive in H.
  exists (string_of_list_ascii (rev rest)).
  rewrite <- (string_of_list_ascii_of_string s), H, string_of_list_app.
  by rewrite string_of_list_ascii_of_string.
Qed.

Section Run.

Variable Number : string → float.

(** What the answers must satisfy. *)
Definition acceptable (name main : string) (package : nat)
    (text secret : string) : bool :=
  valid_start name main package
  && negb (not_number (Number (with_default "600000" text)))
  && negb (PrimFloat.ltb (Number (with_default "600000" text)) 5000%float)
  && negb (String.eqb secret "").

(** The values returned for the answers. *)
Definition accepted (name dir main : string) (package : nat)
    (text secret whitelist blacklist out : string)
    : promptFunctionReturnValues :=
  mkReturnValues name (with_default "." dir) (with_default "index.js" main)
    (if package is O then commonjs else module_) PAI
    (Some (Number (with_default "600000" text))) MongoDB (Some secret)
    (Some (split_and_trim whitelist)) (Some (split_and_trim blacklist))
    (with_default "." out).

Lemma interval_question_returned returnValues s shown rv t' :
  interval_question Number returnValues (mkTerminal s shown) = (Returned rv, t') →
  ∃ text rest, s = Line text :: rest
    ∧ not_number (Number (with_default "600000" text)) = false
    ∧ PrimFloat.ltb (Number (with_default "600000" text)) 5000%float = false
    ∧ rv = set_interval (Number (with_default "600000" text)) returnValues
    ∧ t' = mkTerminal rest (shown ++ [Question interval_message]).
Proof.
  destruct s as [|[text|index| |] rest]; try done.
  rewrite interval_question_eq. cbv zeta.
  destruct (not_number _) eqn:Hn; [done|].
  destruct (PrimFloat.ltb _ _) eqn:Hl; [done|].
  intros [= <- <-]. by exists text, rest.
Qed.

Lemma mongodb_questions_returned returnValues s shown rv t' :
  mongodb_questions returnValues (mkTerminal s shown) = (Returned rv, t') →
  ∃ secret whitelist blacklist rest,
    s = Line secret :: Line whitelist :: Line blacklist :: rest
    ∧ secret ≠ ""
    ∧ rv = set_mongodbDatabaseExcludeCollections (split_and_trim blacklist)
             (set_mongodbDatabasedbs (split_and_trim whitelist)
                (set_databaseSecret secret returnValues))
    ∧ t' = mkTerminal rest
             (shown ++ [Question "Enter the database secret key (MongoDB URI):";
                        Question "Enter the whitelisted databases (Use ',' to seperate the values):";
                        Question "Enter the blacklisted collections in all databases (Mention the database of the collection, e.g. 'db/col') (Use ',' to seperate the values):"]).
Proof.
  unfold mongodb_questions. intros H.
  io_inversion H. apply input_returned in Hm as (rest1 & -> & ->).
  rename a into secret. io_inversion H.
  destruct (truthy secret && _) eqn:Hsecret;
    [|by apply reject_not_returned in Hm].
  apply ret_returned' in Hm as [<- <-].
  io_inversion H. apply input_returned in Hm as (rest2 & -> & ->).
  rename a into whitelist.
  io_inversion H. apply input_returned in Hm as (rest3 & -> & ->).
  rename a into blacklist.
  apply ret_returned' in H as [<- <-].
  exists secret, whitelist, blacklist, rest3.
  split; [done|]. split; [by apply truthy_nonempty|]. split; [done|].
  by rewrite <- !(assoc_L (++)).
Qed.

Lemma database_questions_returned returnValues s shown rv t' :
  database_questions returnValues (mkTerminal s shown) = (Returned rv, t') →
  ∃ secret whitelist blacklist out rest,
    s = Pick 0 :: Line secret :: Line whitelist :: Line blacklist
          :: Line out :: rest
    ∧ secret ≠ ""
    ∧ rv = set_outDir (with_default "." out)
             (set_mongodbDatabaseExcludeCollections (split_and_trim blacklist)
                (set_mongodbDatabasedbs (split_and_trim whitelist)
                   (set_databaseSecret secret
                      (set_databaseType MongoDB returnValues))))
    ∧ t' = mkTerminal rest
             (shown ++ [Question "Select the cloud database";
                        Question "Enter the database secret key (MongoDB URI):";
                        Question "Enter the whitelisted databases (Use ',' to seperate the values):";
                        Question "Enter the blacklisted collections in all databases (Mention the database of the collection, e.g. 'db/col') (Use ',' to seperate the values):";
                        Question "Enter the directory to store the local files (Hit enter to proceed with default option):"]).
Proof.
  unfold database_questions. intros H.
  io_inversion H. apply select_returned in Hm as (index & rest0 & -> & Hpick & ->).
  assert (index = 0%nat) as ->.
  { destruct index as [|[|index]]; done. }
  destruct a. io_inversion H.
  apply mongodb_questions_returned in Hm
    as (secret & whitelist & blacklist & rest1 & -> & Hsecret & -> & ->).
  io_inversion H.
  apply input_default_returned in Hm as [-> [(out & Hs & ->)|[_ ->]]].
  2:{ io_inversion H. by apply reject_not_returned in Hm. }
  simpl in Hs. destruct rest1 as [|first rest2]; [done|].
  injection Hs as ->. simpl in H. io_inversion H.
  destruct (truthy (with_default "." out) && _);
    [|by apply reject_not_returned in Hm].
  apply ret_returned' in Hm as [<- <-]. apply ret_returned' in H as [<- <-].
  exists secret, whitelist, blacklist, out, rest2.
  split; [done|]. split; [done|]. split; [done|].
  by rewrite <- !(assoc_L (++)).
Qed.

Lemma rage_questions_returned returnValues s shown rv t' :
  rage_questions Number returnValues (mkTerminal s shown) = (Returned rv, t') →
  ∃ package text secret whitelist blacklist out rest,
    s = Pick package :: Pick 0 :: Line text :: Pick 0 :: Line secret
          :: Line whitelist :: Line blacklist :: Line out :: rest
    ∧ (package <? 2)%nat = true
    ∧ not_number (Number (with_default "600000" text)) = false
    ∧ PrimFloat.ltb (Number (with_default "600000" text)) 5000%float = false
    ∧ secret ≠ ""
    ∧ rv = set_outDir (with_default "." out)
             (set_mongodbDatabaseExcludeCollections (split_and_trim blacklist)
                (set_mongodbDatabasedbs (split_and_trim whitelist)
                   (set_databaseSecret secret
                      (set_databaseType MongoDB
                         (set_interval (Number (with_default "600000" text))
                            (set_method PAI
                               (set_moduleType
                                  (if package is O then commonjs else module_)
                                  returnValues)))))))
    ∧ t' = mkTerminal rest (shown ++ drop 3 questions).
Proof.
  unfold rage_questions. intros H.
  io_inversion H. apply select_returned in Hm as (package & rest0 & -> & Hpackage & ->).
  io_inversion H. apply select_returned in Hm as (index & rest1 & -> & Hpick & ->).
  assert (index = 0%nat ∧ a0 = PAI) as [-> ->].
  { destruct index as [|[|index]]; [|done|done]. by injection Hpick as <-. }
  io_inversion H.
  apply interval_question_returned in Hm
    as (text & rest2 & -> & Hnum & Hlow & -> & ->).
  apply database_questions_returned in H
    as (secret & whitelist & blacklist & out & rest3 & -> & Hsecret & -> & ->).
  exists package, text, secret, whitelist, blacklist, out, rest3.
  split; [done|].
  assert ((package <? 2)%nat = true
          ∧ a = (if package is O then commonjs else module_)) as [Hlt ->].
  { destruct package as [|[|package]]; [| |by destruct package];
      by injection Hpackage as <-. }
  repeat (split; [done|]). by rewrite <- !(assoc_L (++)).
Qed.

Lemma prompt_body_returned s shown rv t' :
  prompt_body Number (mkTerminal s shown) = (Returned rv, t') →
  ∃ name dir main package text secret whitelist blacklist out rest,
    s = answers name dir main package text secret whitelist blacklist out ++ rest
    ∧ acceptable name main package text secret = true
    ∧ rv = accepted name dir main package text secret whitelist blacklist out
    ∧ t' = mkTerminal rest (shown ++ questions).
Proof.
  unfold prompt_body. cbv zeta. intros H.
  io_inversion H. apply input_returned in Hm as (rest0 & -> & ->).
  rename a into name.
  destruct (truthy name && _) eqn:Hname; [|by apply reject_not_returned in H].
  io_inversion H.
  apply input_default_returned in Hm as [-> [(dir & Hs & ->)|[_ ->]]].
  2:{ by apply reject_not_returned in H. }
  simpl in Hs. destruct rest0 as [|first rest1]; [done|].
  injection Hs as ->. simpl in H.
  destruct (truthy (with_default "." dir) && _);
    [|by apply reject_not_returned in H].
  io_inversion H.
  apply input_default_returned in Hm as [-> [(main & Hs & ->)|[_ ->]]].
  2:{ by io_inversion H. }
  simpl in Hs. destruct rest1 as [|first rest2]; [done|].
  injection Hs as ->. simpl in H.
  destruct (truthy (with_default "index.js" main) && _ && _) eqn:Hmain.
  2:{ by io_inversion H. }
  apply rage_questions_returned in H
    as (package & text & secret & whitelist & blacklist & out & rest3
        & -> & Hpackage & Hnum & Hlow & Hsecret & -> & ->).
  exists name, dir, main, package, text, secret, whitelist, blacklist, out, rest3.
  split; [done|]. split; [|split; [done|by rewrite <- !(assoc_L (++))]].
  unfold acceptable, valid_start. rewrite Hnum, Hlow, Hpackage.
  apply andb_prop in Hname as [_ ->]. apply andb_prop in Hmain as [_ ->].
  by destruct (String.eqb_spec secret "").
Qed.

(** The answers are accepted. *)
Lemma prompt_body_accepts name dir main package text secret whitelist
    blacklist out rest shown :
  acceptable name main package text secret = true →
  prompt_body Number
    (mkTerminal
       (answers name dir main package text secret whitelist blacklist out ++ rest)
       shown)
  = (Returned (accepted name dir main package text secret whitelist blacklist out),
     mkTerminal rest (shown ++ questions)).
Proof.
  unfold acceptable. intros H.
  apply andb_prop in H as [H Hsecret]. apply andb_prop in H as [H Hlow].
  apply andb_prop in H as [Hstart Hnum].
  apply negb_true_iff in Hsecret, Hlow, Hnum.
  unfold answers. rewrite <- (assoc_L (++)).
  rewrite (prompt_body_to_interval Number) by done.
  unfold bind. cbn [app]. rewrite interval_question_eq. cbv zeta.
  rewrite Hnum, Hlow.
  unfold database_questions, mongodb_questions, bind, select, input, print,
    next_answer, ret. simpl.
  unfold truthy. rewrite Hsecret. simpl.
  assert (Hout : negb (String.eqb (with_default "." out) "") = true).
  { unfold with_default. by destruct (String.eqb_spec out ""); [|destruct out]. }
  unfold with_default in Hout. rewrite Hout. simpl.
  unfold shown_before_interval. by rewrite <- !(assoc_L (++)).
Qed.

(** X15. The wizard returns exactly on eleven answers of the right kinds:
    a project name that is not empty, a main file whose name (after the
    default) ends in [.js], the two picks, an interval that is a number
    and not below 5000, and a secret key that is not empty.  It then has
    asked the eleven questions in order, printed nothing else, left the
    remaining answers unread, and returns the values of the answers, with
    the defaults in place of empty lines. *)
Theorem prompt_returns_iff (t : Terminal) (rv : promptFunctionReturnValues)
    (t' : Terminal) :
  prompt Number t = (Returned rv, t') ↔
  ∃ name dir main package text secret whitelist blacklist out,
    script t
      = answers name dir main package text secret whitelist blacklist out
          ++ script t'
    ∧ acceptable name main package text secret = true
    ∧ rv = accepted name dir main package text secret whitelist blacklist out
    ∧ printed t' = printed t ++ questions.
Proof.
  rewrite <- prompt_returns_with_body. destruct t as [s shown]. split.
  - intros H. apply prompt_body_returned in H
      as (name & dir & main & package & text & secret & whitelist & blacklist
          & out & rest & -> & Hok & -> & ->).
    by exists name, dir, main, package, text, secret, whitelist, blacklist, out.
  - intros (name & dir & main & package & text & secret & whitelist & blacklist
            & out & Hs & Hok & -> & Hp).
    cbn [script printed] in Hs, Hp. rewrite Hs.
    rewrite prompt_body_accepts by done. destruct t' as [s' shown'].
    cbn [script printed] in Hp. by rewrite Hp.
Qed.

(** X16. Every returned configuration is usable: the project name, the
    directory, the output directory and the secret key are not empty,
    the main file is a stem followed by [.js], the method is "Push After
    Interval",
    and the interval is a number other than zero that is not below
    5000. *)
Theorem prompt_returns_valid (t : Terminal) (rv : promptFunctionReturnValues)
    (t' : Terminal) :
  prompt Number t = (Returned rv, t') →
  projectName rv ≠ "" ∧ dirPath rv ≠ "" ∧ outDir rv ≠ ""
  ∧ (∃ stem, mainFile rv = stem +:+ ".js")
  ∧ method rv = PAI
  ∧ (∃ secret, databaseSecret rv = Some secret ∧ secret ≠ "")
  ∧ (∃ x, interval rv = Some x ∧ not_number x = false
          ∧ PrimFloat.ltb x 5000%float = false).
Proof.
  rewrite <- prompt_returns_with_body. destruct t as [s shown]. intros H.
  apply prompt_body_returned in H
    as (name & dir & main & package & text & secret & whitelist & blacklist
        & out & rest & -> & Hok & -> & ->).
  unfold acceptable, valid_start in Hok.
  apply andb_prop in Hok as [Hok Hsecret]. apply andb_prop in Hok as [Hok Hlow].
  apply andb_prop in Hok as [Hok Hnum]. apply andb_prop in Hok as [Hok _].
  apply andb_prop in Hok as [Hname Hmain].
  apply negb_true_iff in Hsecret, Hlow, Hnum, Hname.
  apply String.eqb_neq in Hsecret, Hname. simpl.
  split; [done|]. split; [by apply with_default_nonempty|].
  split; [by apply with_default_nonempty|].
  split; [by apply endsWith_stem|]. split; [done|].
  split; [by exists secret|]. by eexists.
Qed.

End Run.

Lemma prompt_returns_valid_witness :
  let rv := mkReturnValues "backup" "." "index.js" commonjs PAI
              (Some 5000%float) MongoDB (Some "mongodb://localhost")
              (Some ["shop"; "logs"]) (Some ["shop/sessions"]) "data" in
  projectName rv ≠ "" ∧ dirPath rv ≠ "" ∧ outDir rv ≠ ""
  ∧ (∃ stem, mainFile rv = stem +:+ ".js")
  ∧ method rv = PAI
  ∧ (∃ secret, databaseSecret rv = Some secret ∧ secret ≠ "")
  ∧ (∃ x, interval rv = Some x ∧ not_number x = false
          ∧ PrimFloat.ltb x 5000%float = false).
Proof.
  apply (prompt_returns_valid Number_of_numeral
           (mkTerminal (sample_script "5000" "shop, logs" "shop/sessions") [])
           _ (mkTerminal [] questions)).
  vm_compute. reflexivity.
Defined.

(** *** The runs that do not return *)

Definition is_question (p : Printed) : Prop :=
  match p with
  | Question _ => True
  | Message _ => False
  end.

(** The messages printed by the [try] block before it ends the process. *)
Definition rejections : list (list (Colour * string)) :=
  [[(Red, nl +:+ "Please enter a valid name for the application/project and try again!")];
   [(Red, nl +:+ "Please enter the working directory properly and try again!")];
   [(Red, nl +:+ "Please enter a valid file name with .js extension and try again!");
    (Yellow, nl +:+ "RAGE CLI doesn't support typescript nor any other files except javascript files yet.")];
   [(Red, nl +:+ "Please enter a valid value and try again!")];
   [(Red, nl +:+ "The minimum interval should be above 5000 milliseconds!")];
   [(Red, nl +:+ "Please enter the database secret key (MongoDB URI) properly and try again!")];
   [(Red, nl +:+ "Please enter the directory path properly and try again!")]].

(** The messages printed by the [catch] block. *)
Definition interruptions : list (list (Colour * string)) :=
  [[(Red, nl +:+ "Unexpected error occured!")];
   [(RedBright, nl +:+ "Terminating process...")]].

(** A computation that prints questions only, until it ends the process
    with status 1 after one of the [messages]. *)
Definition tidy {A} (messages : list (list (Colour * string))) (m : IO A)
    : Prop :=
  ∀ t, ∃ asked,
    Forall is_question asked ∧
    match m t with
    | (Exited status, t') =>
        status = 1 ∧ ∃ spans, spans ∈ messages
          ∧ printed t' = printed t ++ asked ++ [Message spans]
    | (_, t') => printed t' = printed t ++ asked
    end.

Lemma tidy_bind {A B} messages (m : IO A) (k : A → IO B) :
  tidy messages m → (∀ a, tidy messages (k a)) →
  tidy messages (bind m k).
Proof.
  intros Hm Hk t. unfold bind. destruct (Hm t) as (asked & Hasked & H).
  destruct (m t) as [[a|code|status] t1] eqn:E.
  - destruct (Hk a t1) as (asked' & Hasked' & H').
    exists (asked ++ asked'). split; [by apply Forall_app|].
    destruct (k a t1) as [[b|code|status] t2].
    + by rewrite H', H, <- (assoc_L (++)).
    + by rewrite H', H, <- (assoc_L (++)).
    + destruct H' as (-> & spans & Hspans & ->). split; [done|].
      exists spans. split; [done|]. by rewrite H, <- !(assoc_L (++)).
  - by exists asked.
  - by exists asked.
Qed.

Lemma tidy_ret {A} messages (a : A) : tidy messages (ret a).
Proof. intros t. exists []. split; [done|]. simpl. by rewrite app_nil_r. Qed.

Lemma tidy_input messages message default : tidy messages (input message default).
Proof.
  intros [s shown]. exists [Question message]. split; [by repeat constructor|].
  unfold input, bind, print, next_answer. simpl.
  destruct s as [|[line|index| |] rest]; try done.
  by destruct default.
Qed.

Lemma tidy_select {V} messages message (choices : list (V * bool)) :
  tidy messages (select message choices).
Proof.
  intros [s shown]. exists [Question message]. split; [by repeat constructor|].
  unfold select, bind, print, next_answer. simpl.
  destruct s as [|[line|index| |] rest]; try done.
  by destruct (nth_error (enabled choices) index).
Qed.

Lemma tidy_exit {A} messages spans :
  spans ∈ messages →
  tidy messages (bind (console_log spans) (λ _, process_exit (A := A) 1)).
Proof.
  intros Hin [s shown]. exists []. split; [done|]. simpl. split; [done|].
  by exists spans.
Qed.

Lemma tidy_reject {A} messages message :
  [(Red, nl +:+ message)] ∈ messages → tidy messages (reject (A := A) message).
Proof. apply tidy_exit. Qed.

Ltac in_messages :=
  unfold rejections, interruptions; rewrite ?elem_of_app, !elem_of_cons; tauto.

Section Ends.

Variable Number : string → float.

Lemma tidy_interval_question returnValues :
  tidy rejections (interval_question Number returnValues).
Proof.
  unfold interval_question. apply tidy_bind; [apply tidy_input|]. intros a.
  apply tidy_bind; [|intros; apply tidy_ret].
  destruct (not_number _); [apply tidy_reject; in_messages|].
  destruct (PrimFloat.ltb _ _); [apply tidy_reject; in_messages|].
  apply tidy_ret.
Qed.

Lemma tidy_mongodb_questions returnValues :
  tidy rejections (mongodb_questions returnValues).
Proof.
  unfold mongodb_questions. apply tidy_bind; [apply tidy_input|]. intros a.
  apply tidy_bind.
  { destruct (truthy a && _); [apply tidy_ret|].
    apply tidy_reject. in_messages. }
  intros rv. apply tidy_bind; [apply tidy_input|]. intros w.
  apply tidy_bind; [apply tidy_input|]. intros b. apply tidy_ret.
Qed.

Lemma tidy_database_questions returnValues :
  tidy rejections (database_questions returnValues).
Proof.
  unfold database_questions. apply tidy_bind; [apply tidy_select|]. intros [].
  apply tidy_bind; [apply tidy_mongodb_questions|]. intros rv.
  apply tidy_bind; [apply tidy_input|]. intros out.
  apply tidy_bind; [|intros; apply tidy_ret].
  destruct (truthy out && _); [apply tidy_ret|].
  apply tidy_reject. in_messages.
Qed.

Lemma tidy_rage_questions returnValues :
  tidy rejections (rage_questions Number returnValues).
Proof.
  unfold rage_questions. apply tidy_bind; [apply tidy_select|]. intros package.
  apply tidy_bind; [apply tidy_select|]. intros method.
  apply tidy_bind; [|intros; apply tidy_database_questions].
  destruct method; [apply tidy_interval_question|apply tidy_ret|apply tidy_ret].
Qed.

Lemma tidy_prompt_body : tidy rejections (prompt_body Number).
Proof.
  unfold prompt_body. cbv zeta. apply tidy_bind; [apply tidy_input|]. intros name.
  destruct (truthy name && _);
    [|apply tidy_reject; in_messages].
  apply tidy_bind; [apply tidy_input|]. intros dir.
  destruct (truthy dir && _);
    [|apply tidy_reject; in_messages].
  apply tidy_bind; [apply tidy_input|]. intros main.
  destruct (truthy main && _ && _); [apply tidy_rage_questions|].
  apply tidy_exit. in_messages.
Qed.

(** The wizard returns, or ends the process with status 1. *)
Lemma prompt_exit_status (t : Terminal) :
  match prompt Number t with
  | (Returned _, _) => True
  | (Thrown _, _) => False
  | (Exited status, _) => status = 1
  end.
Proof.
  destruct (tidy_prompt_body t) as (asked & _ & H).
  unfold prompt, try_catch.
  destruct (prompt_body Number t) as [[rv|code|status] t1]; [done| |by destruct H].
  by destruct (has_code code "ExitPromptError").
Qed.

(** X17. The wizard never throws, and it never ends silently: it returns
    after printing questions only, or it ends the process with status 1
    after printing, as its last line, one of the nine messages of the
    source: the seven of the [try] block, one for each test that fails,
    and the two of the [catch] block. *)
Theorem prompt_ends (t : Terminal) :
  ∃ asked, Forall is_question asked ∧
    ((∃ rv t', prompt Number t = (Returned rv, t')
               ∧ printed t' = printed t ++ asked)
     ∨ (∃ t' spans, prompt Number t = (Exited 1, t')
                    ∧ spans ∈ rejections ++ interruptions
                    ∧ printed t' = printed t ++ asked ++ [Message spans])).
Proof.
  destruct (tidy_prompt_body t) as (asked & Hasked & H).
  exists asked. split; [done|]. unfold prompt, try_catch.
  destruct (prompt_body Number t) as [[rv|code|status] t1].
  - left. by exists rv, t1.
  - right. destruct (has_code code "ExitPromptError"); simpl.
    + eexists _, [(Red, nl +:+ "Unexpected error occured!")].
      split; [reflexivity|]. split; [in_messages|]. cbn [printed].
      by rewrite H, <- (assoc_L (++)).
    + eexists _, [(RedBright, nl +:+ "Terminating process...")].
      split; [reflexivity|]. split; [in_messages|]. cbn [printed].
      by rewrite H, <- (assoc_L (++)).
  - right. destruct H as (-> & spans & Hspans & Hp).
    exists t1, spans. split; [done|]. split; [|done].
    rewrite elem_of_app. by left.
Qed.

End Ends.

(** The message that ends a run of the wizard on [answers]. *)
Definition last_message (answers : list Answer) : option Printed :=
  last (printed (prompt Number_of_numeral (mkTerminal answers [])).2).

(** Each of the seven rejections happens, the two about a directory when
    the user erases the proposed default; an interruption is reported as
    a terminating process, because the error of the question has the name
    [ExitPromptError] and no code. *)
Example rejections_happen :
  map last_message
      [[Line ""];
       [Line "backup"; Erased];
       [Line "backup"; Line ""; Line "index.ts"];
       [Line "backup"; Line ""; Erased];
       up_to_interval "backup" "" "" 0 ++ [Line "soon"];
       up_to_interval "backup" "" "" 0 ++ [Erased];
       up_to_interval "backup" "" "" 0 ++ [Line "4999"];
       up_to_interval "backup" "" "" 0 ++ [Line ""; Pick 0; Line ""];
       up_to_interval "backup" "" "" 0
         ++ [Line ""; Pick 0; Line "mongodb://localhost"; Line ""; Line ""; Erased]]
  = map (λ k, Message <$> rejections !! k) [0; 1; 2; 2; 3; 3; 4; 5; 6]%nat
  ∧ last_message [Line "backup"; CtrlC]
    = Some (Message [(RedBright, nl +:+ "Terminating process...")])
  ∧ (prompt Number_of_numeral (mkTerminal [Line "backup"; Erased] [])).1
    = Exited 1.
Proof. vm_compute. done. Qed.

(** *** The entries of the two lists *)

Lemma prefix_drop (w : string) : ∀ s,
  String.prefix w s = true → s = w +:+ Str.drop (String.length w) s.
Proof.
  induction w as [|c w IH]; intros s H; [by destruct s|].
  destruct s as [|d s]; [done|]. simpl in H.
  destruct (Ascii.ascii_dec c d) as [->|]; [|done].
  rewrite Str.app_cons. f_equal. by apply IH.
Qed.

Lemma prefix_app (w s t : string) :
  String.prefix w s = true → String.prefix w (s +:+ t) = true.
Proof.
  revert s. induction w as [|c w IH]; intros s H; [by destruct (s +:+ t)|].
  destruct s as [|d s]; [done|]. rewrite Str.app_cons. simpl in *.
  destruct (Ascii.ascii_dec c d); [|done]. by apply IH.
Qed.

Lemma length_drop_le (n : nat) : ∀ s,
  (String.length (Str.drop n s) ≤ String.length s - n)%nat.
Proof.
  induction n as [|n IH]; intros [|c s]; simpl; try lia. apply IH.
Qed.

Lemma find_none_all {A} (f : A → bool) (l : list A) :
  List.find f l = None ↔ Forall (λ x, f x = false) l.
Proof.
  induction l as [|x l IH]; simpl; [done|].
  destruct (f x) eqn:E.
  - split; [done|]. intros H. inversion H; subst. congruence.
  - rewrite IH. split; [by constructor|]. intros H. by inversion H.
Qed.

Lemma find_some_in {A} (f : A → bool) (l : list A) x (P : A → Prop) :
  List.find f l = Some x → Forall P l → P x ∧ f x = true.
Proof.
  induction l as [|y l IH]; simpl; [done|].
  intros H Hall. inversion Hall; subst.
  destruct (f y) eqn:E; [|by apply IH]. by injection H as <-.
Qed.

(** A string with none of the [space] sequences in front. *)
Definition clean (space : list string) (s : string) : Prop :=
  List.find (λ ws, String.prefix ws s) space = None.

Lemma strip_leading_clean space (fuel : nat) : ∀ s,
  Forall (λ ws, ws ≠ "") space → (String.length s ≤ fuel)%nat →
  clean space (strip_leading fuel space s).
Proof.
  intros s Hspace. revert s. induction fuel as [|fuel IH]; intros s Hlen.
  - destruct s; [|simpl in Hlen; lia]. simpl. unfold clean.
    apply find_none_all. eapply Forall_impl; [exact Hspace|].
    intros ws Hws. by destruct ws.
  - simpl. destruct (List.find _ space) as [ws|] eqn:E; [|done].
    apply IH. destruct (find_some_in _ _ _ _ E Hspace) as [Hws Hprefix].
    pose proof (length_drop_le (String.length ws) s).
    apply prefix_drop in Hprefix. apply (f_equal String.length) in Hprefix.
    rewrite Str.length_app in Hprefix.
    destruct ws; [done|]. simpl in *. lia.
Qed.

(** What is stripped is in front. *)
Lemma strip_leading_suffix space (fuel : nat) : ∀ s,
  ∃ front, s = front +:+ strip_leading fuel space s.
Proof.
  induction fuel as [|fuel IH]; intros s; [by exists ""|].
  simpl. destruct (List.find _ space) as [ws|] eqn:E; [|by exists ""].
  apply find_some in E as [_ Hprefix]. apply prefix_drop in Hprefix.
  destruct (IH (Str.drop (String.length ws) s)) as [front Hfront].
  exists (ws +:+ front). by rewrite Str.app_assoc, <- Hfront.
Qed.

Lemma clean_prefix space (s t : string) : clean space (s +:+ t) → clean space s.
Proof.
  unfold clean. rewrite !find_none_all. intros H.
  eapply Forall_impl; [exact H|]. intros ws Hws. cbv beta in *.
  destruct (String.prefix ws s) eqn:E; [|done].
  by rewrite (prefix_app _ _ t E) in Hws.
Qed.

Lemma list_of_app (s t : string) :
  list_ascii_of_string (s +:+ t)
  = list_ascii_of_string s ++ list_ascii_of_string t.
Proof.
  induction s as [|c s IH]; [done|]. rewrite Str.app_cons. simpl. by rewrite IH.
Qed.

Lemma reverse_app (s t : string) : reverse (s +:+ t) = reverse t +:+ reverse s.
Proof. unfold reverse. by rewrite list_of_app, rev_app_distr, string_of_list_app. Qed.

Lemma reverse_involutive (s : string) : reverse (reverse s) = s.
Proof.
  unfold reverse.
  by rewrite list_ascii_of_string_of_list_ascii, rev_involutive,
    string_of_list_ascii_of_string.
Qed.

Lemma length_reverse (s : string) : String.length (reverse s) = String.length s.
Proof.
  rewrite <- (string_of_list_ascii_of_string s) at 2. unfold reverse.
  generalize (list_ascii_of_string s). intros l.
  assert (H : ∀ l, String.length (string_of_list_ascii l) = length l).
  { clear. induction l as [|c l IH]; [done|]. simpl. by rewrite IH. }
  by rewrite !H, length_rev.
Qed.

Lemma white_space_nonempty :
  Forall (λ ws, ws ≠ "") white_space
  ∧ Forall (λ ws, ws ≠ "") (map reverse white_space).
Proof. split; vm_compute; repeat constructor; done. Qed.

Lemma trimStart_clean s : clean white_space (trimStart s).
Proof. apply strip_leading_clean; [apply white_space_nonempty|done]. Qed.

Lemma trimEnd_clean s : clean (map reverse white_space) (reverse (trimEnd s)).
Proof.
  unfold trimEnd. rewrite reverse_involutive.
  apply strip_leading_clean; [apply white_space_nonempty|].
  by rewrite length_reverse.
Qed.

(** [trimEnd] keeps the front of the string. *)
Lemma trimEnd_prefix s : ∃ back, s = trimEnd s +:+ back.
Proof.
  unfold trimEnd.
  destruct (strip_leading_suffix (map reverse white_space)
              (String.length s) (reverse s)) as [front Hfront].
  exists (reverse front). rewrite <- reverse_app, <- Hfront.
  by rewrite reverse_involutive.
Qed.

Lemma trimStart_suffix s : ∃ front, s = front +:+ trimStart s.
Proof. apply strip_leading_suffix. Qed.

(** Text made of sequences of [space] only. *)
Inductive made_of (space : list string) : string → Prop :=
| made_of_nothing : made_of space ""
| made_of_more ws s :
    ws ∈ space → made_of space s → made_of space (ws +:+ s).

Lemma made_of_app space (s t : string) :
  made_of space s → made_of space t → made_of space (s +:+ t).
Proof.
  intros Hs Ht. induction Hs as [|ws s Hws _ IH]; [done|].
  rewrite Str.app_assoc. by constructor.
Qed.

Lemma made_of_reverse space (s : string) :
  made_of (map reverse space) s → made_of space (reverse s).
Proof.
  intros Hs. induction Hs as [|ws s Hws _ IH]; [constructor|].
  rewrite reverse_app. apply made_of_app; [done|].
  apply list_elem_of_fmap in Hws as (ws' & -> & Hws').
  rewrite reverse_involutive, <- (Str.app_nil_r ws').
  constructor; [done|constructor].
Qed.

(** What is stripped is made of the sequences to strip. *)
Lemma strip_leading_front space (fuel : nat) : ∀ s,
  ∃ front, s = front +:+ strip_leading fuel space s ∧ made_of space front.
Proof.
  induction fuel as [|fuel IH]; intros s; [exists ""; by split; [|constructor]|].
  simpl. destruct (List.find _ space) as [ws|] eqn:E;
    [|exists ""; by split; [|constructor]].
  apply find_some in E as [Hin Hprefix]. apply prefix_drop in Hprefix.
  destruct (IH (Str.drop (String.length ws) s)) as (front & Hfront & Hmade).
  exists (ws +:+ front). split.
  - by rewrite Str.app_assoc, <- Hfront.
  - constructor; [|done]. by apply list_elem_of_In.
Qed.

Lemma prefix_self_app (w rest : string) : String.prefix w (w +:+ rest) = true.
Proof.
  induction w as [|c w IH]; [by destruct rest|].
  rewrite Str.app_cons. simpl. by destruct (Ascii.ascii_dec c c).
Qed.

(** A clean string does not begin with a sequence to strip. *)
Lemma clean_no_prefix space (s ws rest : string) :
  clean space s → ws ∈ space → s ≠ ws +:+ rest.
Proof.
  unfold clean. rewrite find_none_all, List.Forall_forall.
  intros Hclean Hws ->. apply list_elem_of_In, Hclean in Hws.
  by rewrite prefix_self_app in Hws.
Qed.

(** The text of [s] between its white space: [trim s] with what was in
    front of it and behind it. *)
Lemma trim_spec (s : string) :
  (∃ front back, s = front +:+ trim s +:+ back
     ∧ made_of white_space front ∧ made_of white_space back)
  ∧ ∀ ws rest, ws ∈ white_space →
      trim s ≠ ws +:+ rest ∧ trim s ≠ rest +:+ ws.
Proof.
  unfold trim. split.
  - destruct (strip_leading_front white_space (String.length s) s)
      as (front & Hfront & Hmade).
    fold (trimStart s) in Hfront.
    destruct (strip_leading_front (map reverse white_space)
                (String.length (trimStart s)) (reverse (trimStart s)))
      as (back & Hback & Hmade').
    exists front, (reverse back). split; [|split; [done|]].
    + rewrite Hfront at 1. f_equal.
      apply (f_equal reverse) in Hback.
      rewrite reverse_involutive, reverse_app in Hback. exact Hback.
    + by apply made_of_reverse.
  - intros ws rest Hws. split.
    + apply (clean_no_prefix white_space); [|done].
      destruct (trimEnd_prefix (trimStart s)) as [back Hback].
      apply (clean_prefix _ _ back). rewrite <- Hback. apply trimStart_clean.
    + intros E. pose proof (trimEnd_clean (trimStart s)) as Hclean.
      rewrite E, reverse_app in Hclean.
      apply (clean_no_prefix _ _ (reverse ws) (reverse rest)) in Hclean; [done|].
      apply list_elem_of_fmap. by exists ws.
Qed.

Lemma mem_trim c s : Split.mem c s = false → Split.mem c (trim s) = false.
Proof.
  intros H. unfold trim.
  destruct (trimStart_suffix s) as [front Hfront].
  destruct (trimEnd_prefix (trimStart s)) as [back Hback].
  rewrite Hfront, Hback, !Split.mem_app in H.
  apply orb_false_iff in H as [_ H]. by apply orb_false_iff in H as [H _].
Qed.

(** X18. The entries of a list read by the wizard are the pieces of the
    answer between its commas, each without the white space around it:
    a piece is its entry with white space only in front of it and behind
    it, no entry begins or ends with a white-space character, and no
    entry contains a comma. *)
Theorem split_and_trim_entries (answer : string) :
  Forall2 (λ piece entry,
      (∃ front back, piece = front +:+ entry +:+ back
         ∧ made_of white_space front ∧ made_of white_space back)
      ∧ (∀ ws rest, ws ∈ white_space →
           entry ≠ ws +:+ rest ∧ entry ≠ rest +:+ ws)
      ∧ Split.mem ","%char entry = false)
    (Split.split ","%char answer) (split_and_trim answer).
Proof.
  unfold split_and_trim.
  pose proof (Split.split_pieces ","%char answer) as Hpieces.
  induction Hpieces as [|piece pieces Hpiece _ IH]; [constructor|].
  simpl. constructor; [|done].
  destruct (trim_spec piece) as [Hparts Hends].
  split; [done|]. split; [done|]. by apply mem_trim.
Qed.

(** Spaces stay inside an entry; a tab and a no-break space around it
    go. *)
Example split_and_trim_samples :
  split_and_trim " shop , logs 2024,,a" = ["shop"; "logs 2024"; ""; "a"]
  ∧ split_and_trim (bytes [9; 120; 194; 160; 44; 32]%nat) = ["x"; ""].
Proof. vm_compute. done. Qed.

End Wizard.

(** ** The setup wizard writes its files: [createFiles] and [start] *)

Module Setup.
Import Runtime.
Local Open Scope js_scope.

(** *** The two objects *)

Definition method_value (m : Wizard.Method) : JSON.value :=
  JSON.VStr match m with
            | Wizard.PAI => "PAI"
            | Wizard.POU => "POU"
            | Wizard.NI => "NI"
            end.

Definition databaseType_value (d : Wizard.DatabaseType) : JSON.value :=
  match d with
  | Wizard.MongoDB => JSON.VStr "MongoDB"
  end.

Definition strings_value (l : list string) : JSON.value :=
  JSON.VArr (map JSON.VStr l).

(** A property of an object literal: [JSON.stringify] leaves out a
    property whose value is [undefined]. *)
Definition property (key : string) (v : option JSON.value)
    : list (string * JSON.value) :=
  match v with
  | Some v => [(key, v)]
  | None => []
  end.

Section CreateFiles.

(** The directory of the script. *)
Variable __dirname : string.

(** The JSON value of a double: its number, by the digits that
    [Number::toString] prints, or [null] when it is not finite. *)
Variable number_value : float → JSON.value.

Definition rageConfigFileData (configSettings : Wizard.promptFunctionReturnValues)
    : JSON.value :=
  let c := Wizard.rageConfigFileData configSettings in
  JSON.VObj
    [("method", method_value (Wizard.config_method c));
     ("methodSpecificSettings",
      JSON.VObj (property "interval" (number_value <$> Wizard.config_interval c)));
     ("database",
      JSON.VObj
        ([("type", databaseType_value (Wizard.config_type c))]
         ++ property "secretKey" (JSON.VStr <$> Wizard.config_secretKey c)
         ++ [("dbSpecificSettings",
              JSON.VObj
                (property "dbs" (strings_value <$> Wizard.config_dbs c)
                 ++ property "excludeCollections"
                      (strings_value <$> Wizard.config_excludeCollections c)))]));
     ("outDir", JSON.VStr (Wizard.config_outDir c))].

Definition packageJsonData (configSettings : Wizard.promptFunctionReturnValues)
    : JSON.value :=
  JSON.VObj
    [("name", JSON.VStr (Wizard.projectName configSettings));
     ("version", JSON.VStr "1.0.0");
     ("description", JSON.VStr "");
     ("main", JSON.VStr (Wizard.mainFile configSettings));
     ("scripts",
      JSON.VObj [("start", JSON.VStr ("node " +:+ Wizard.mainFile configSettings))]);
     ("keywords", JSON.VArr []);
     ("author", JSON.VStr "");
     ("license", JSON.VStr "ISC")].

Definition directory_of (configSettings : Wizard.promptFunctionReturnValues)
    : string :=
  Path.join [__dirname; Wizard.dirPath configSettings].

Definition file_in (configSettings : Wizard.promptFunctionReturnValues)
    (name : string) : string :=
  Path.join [__dirname; Wizard.dirPath configSettings +:+ "/" +:+ name].

(** [createFiles(configSettings)]; nothing is caught. *)
Definition createFiles (configSettings : Wizard.promptFunctionReturnValues)
    : JS unit :=
  present <- existsSync (directory_of configSettings) ;;
  (if present then ret tt
   else
     mkdirSync (directory_of configSettings) ;;
     console_log "Directory created") ;;
  text <- JSON_stringify (rageConfigFileData configSettings) 2 ;;
  writeFileSync (file_in configSettings "rage.config.json") text ;;
  console_log "Created rage.config.json" ;;
  text <- JSON_stringify (packageJsonData configSettings) 2 ;;
  writeFileSync (file_in configSettings "package.json") text ;;
  console_log "Created package.json" ;;
  ret tt.

End CreateFiles.

(** *** [start] *)

(** How a run of the script ends: both steps done, the process ended by
    the wizard, or an error that nothing catches. *)
Inductive Run : Type :=
| Finished (t : Wizard.Terminal) (w : World)
| Ended (status : Z) (t : Wizard.Terminal) (w : World)
| Uncaught (e : Error) (t : Wizard.Terminal) (w : World)
| UncaughtCode (error : Wizard.ErrorObject) (t : Wizard.Terminal) (w : World).

Section Start.

Variable __dirname : string.
Variable Number : string → float.
Variable number_value : float → JSON.value.

Definition start (t : Wizard.Terminal) (w : World) : Run :=
  match Wizard.prompt Number t with
  | (Wizard.Returned res, t') =>
      match createFiles __dirname number_value res w with
      | (Normal _, w') => Finished t' w'
      | (Throw e, w') => Uncaught e t' w'
      end
  | (Wizard.Exited status, t') => Ended status t' w
  | (Wizard.Thrown code, t') => UncaughtCode code t' w
  end.

End Start.

(** *** Samples *)

(** The value of a double that is an integer below 2^53 in magnitude
    (the samples use no other): its mantissa, shifted by its exponent;
    [null] for a double that is not finite. *)
Definition integer_value (x : float) : JSON.value :=
  match PrimFloat.classify x with
  | FloatClass.PZero => JSON.VNum (JSON.integer 0)
  | FloatClass.NZero => JSON.VNum JSON.negative_zero
  | FloatClass.NaN | FloatClass.PInf | FloatClass.NInf => JSON.VNull
  | _ =>
      let (f, e) := PrimFloat.frshiftexp x in
      let m := Uint63.to_Z (PrimFloat.normfr_mantissa f) in
      let e := Uint63.to_Z e - 2101 - 53 in
      let n := if 0 <=? e then m * 2 ^ e else m / 2 ^ (- e) in
      JSON.VNum (JSON.integer (if PrimFloat.ltb x 0 then - n else n))
  end.

Definition sample_values : Wizard.promptFunctionReturnValues :=
  Wizard.mkReturnValues "backup" "." "index.js" Wizard.commonjs Wizard.PAI
    (Some 600000%float) Wizard.MongoDB (Some "mongodb://localhost")
    (Some ["shop"; "logs"]) (Some ["shop/sessions"]) "data".

Definition fs_script : gmap (list string) node :=
  {[ [] := Dir true; ["srv"] := Dir true; ["srv"; "rage"] := Dir true ]}.

Definition world_of (m : gmap (list string) node) : World :=
  mkWorld m ["home"] (Time.mkDate 0 0) [] [].

Example createFiles_sample :
  let '(r, w) := createFiles "/srv/rage" integer_value sample_values
                   (world_of fs_script) in
  r = Normal tt
  ∧ console w = [Log "Created rage.config.json"; Log "Created package.json"]
  ∧ calls w = [CallExists "/srv/rage";
               CallWrite "/srv/rage/rage.config.json"
                 (default "" (JSON.stringify
                    (rageConfigFileData integer_value sample_values) 2));
               CallWrite "/srv/rage/package.json"
                 (default "" (JSON.stringify (packageJsonData sample_values) 2))]
  ∧ JSON.stringify (JSON.VObj [("interval", integer_value 600000%float)]) 0
    = Some ("{" +:+ JSON.dquote +:+ "interval" +:+ JSON.dquote +:+ ":600000}").
Proof. vm_compute. done. Qed.

(** *** Steps of a run *)

Lemma bind_normal {A B} (m : JS A) (k : A → JS B) w a w' :
  m w = (Normal a, w') → bind m k w = k a w'.
Proof. unfold bind. by intros ->. Qed.

Lemma bind_throw {A B} (m : JS A) (k : A → JS B) w e w' :
  m w = (Throw e, w') → bind m k w = (Throw e, w').
Proof. unfold bind. by intros ->. Qed.

Lemma is_directory_exists m wd path root b :
  is_directory m wd path root b → exists_at m wd path = true.
Proof.
  intros [Hres Hdir]. unfold exists_at. rewrite Hres.
  apply bool_decide_eq_true. by rewrite Hdir.
Qed.

(** A location that a file can be written to: free, or a writable
    regular file. *)
Definition free_or_writable (n : option node) : bool :=
  match n with
  | None | Some (File true _) => true
  | _ => false
  end.

Lemma write_in_directory m wd dir name root :
  Path.plain_name name = true → accepted_name name = true →
  is_directory m wd (Path.join [dir]) root true →
  free_or_writable (m !! (root ++ [name])) = true →
  write_target m wd (Path.join [dir; name]) = inr (root ++ [name]).
Proof.
  intros Hname Hacc Hdir Hfree. unfold write_target.
  rewrite (resolve_in_directory _ _ _ _ root true) by done.
  destruct (m !! (root ++ [name])) as [[[|] ?|?|? ?]|] eqn:E; try done.
  unfold check_parent. rewrite removelast_last. by destruct Hdir as [_ ->].
Qed.

(** The two file names are accepted as components of a path. *)
Lemma file_names_accepted :
  accepted_name "rage.config.json" = true ∧ accepted_name "package.json" = true.
Proof. split; reflexivity. Qed.

Lemma child_not_parent (root : list string) (name : string) :
  root ++ [name] ≠ root.
Proof.
  intros E. apply (f_equal length) in E. rewrite length_app in E.
  simpl in E. lia.
Qed.

Lemma free_not_directory n :
  free_or_writable n = true → ∀ b, n ≠ Some (Dir b).
Proof. by intros H b ->. Qed.

(** *** The paths *)

Section Paths.

Variable __dirname : string.
Variable configSettings : Wizard.promptFunctionReturnValues.
Hypothesis dirname_nonempty : __dirname ≠ "".
Hypothesis dirPath_nonempty : Wizard.dirPath configSettings ≠ "".

Lemma directory_as_normalize :
  directory_of __dirname configSettings
  = Path.normalize
      (__dirname +:+ String Path.slash (Wizard.dirPath configSettings)).
Proof.
  unfold directory_of.
  rewrite (Path.join_filtered _ [__dirname; Wizard.dirPath configSettings]);
    [done| |done].
  by rewrite !filter_cons_True by done.
Qed.

Lemma directory_nonempty : directory_of __dirname configSettings ≠ "".
Proof. rewrite directory_as_normalize. apply Path.normalize_nonempty. Qed.

Lemma join_directory :
  Path.join [directory_of __dirname configSettings]
  = directory_of __dirname configSettings.
Proof.
  rewrite Path.join_single by apply directory_nonempty.
  rewrite directory_as_normalize. apply Path.normalize_idempotent.
Qed.

(** The file is named inside the directory. *)
Lemma file_in_directory (name : string) :
  name ≠ "" →
  file_in __dirname configSettings name
  = Path.join [directory_of __dirname configSettings; name].
Proof.
  intros Hname. unfold file_in.
  rewrite (Path.join_filtered _
             [__dirname; Wizard.dirPath configSettings +:+ "/" +:+ name]);
    [| |done].
  2:{ rewrite !filter_cons_True; [done| |done].
      by destruct (Wizard.dirPath configSettings). }
  rewrite (Path.join_filtered _ [directory_of __dirname configSettings; name]);
    [| |done].
  2:{ rewrite !filter_cons_True; [done|done|apply directory_nonempty]. }
  rewrite directory_as_normalize.
  change (String.concat "/" [?a; ?b]) with (a +:+ String Path.slash b).
  rewrite Path.normalize_then by (by destruct __dirname).
  f_equal. by rewrite Str.app_assoc.
Qed.

End Paths.

(** *** The two texts *)

(** A number or [null]. *)
Definition json_number (v : JSON.value) : bool :=
  match v with
  | JSON.VNull => true
  | JSON.VNum x => JSON.canonical x
  | _ => false
  end.

(** A value that [JSON.stringify] prints and [JSON.parse] reads back. *)
Definition sound (v : JSON.value) : Prop :=
  JSON.well_formed v = true ∧ JSON.serializable v = true.

Lemma sound_number v : json_number v = true → sound v.
Proof. by destruct v. Qed.

Lemma sound_string s : sound (JSON.VStr s).
Proof. done. Qed.

Lemma sound_strings (l : list string) : sound (strings_value l).
Proof.
  unfold sound, strings_value. simpl.
  induction l as [|x l [IH1 IH2]]; [done|]. simpl. by rewrite IH1, IH2.
Qed.

Lemma sound_object (properties : list (string * JSON.value)) :
  JSON.distinct (map fst properties) = true →
  Forall (λ property, sound property.2) properties →
  sound (JSON.VObj properties).
Proof.
  intros Hkeys Hall. unfold sound. simpl. rewrite Hkeys. cbn [andb].
  induction Hall as [|p l [Hp1 Hp2] _ IH]; [done|].
  simpl. rewrite Hp1, Hp2. cbn [andb]. apply IH.
  simpl in Hkeys. by apply andb_prop in Hkeys as [_ ?].
Qed.

Lemma sound_property key (v : option JSON.value) :
  (∀ x, v = Some x → sound x) →
  Forall (λ property, sound property.2) (property key v).
Proof.
  intros H. destruct v as [x|]; [|constructor].
  constructor; [|constructor]. by apply H.
Qed.

Lemma stringify_some (v : JSON.value) :
  sound v → ∃ s, JSON.stringify v 2 = Some s.
Proof.
  intros [_ H]. destruct (JSON.stringify v 2) as [s|] eqn:E; [by exists s|].
  apply JSON.serialize_none in E. congruence.
Qed.

Lemma packageJsonData_sound configSettings : sound (packageJsonData configSettings).
Proof. done. Qed.

Lemma rageConfigFileData_sound number_value configSettings :
  (∀ x, Wizard.interval configSettings = Some x →
        json_number (number_value x) = true) →
  sound (rageConfigFileData number_value configSettings).
Proof.
  intros Hnumber.
  destruct configSettings as [pn dp mf mt me iv dt ds dbs ex od].
  unfold rageConfigFileData, Wizard.rageConfigFileData. cbn in *.
  apply sound_object; [done|].
  repeat first [apply List.Forall_nil | apply List.Forall_cons]; cbn [snd].
  - by destruct me.
  - apply sound_object; [by destruct iv|]. apply sound_property.
    intros v Hv. destruct iv as [x|]; [|done]. injection Hv as <-.
    by apply sound_number, Hnumber.
  - apply sound_object; [by destruct ds|].
    apply List.Forall_cons; [by destruct dt|]. apply Forall_app. split.
    + apply sound_property. intros v Hv. destruct ds; [|done].
      by injection Hv as <-.
    + apply List.Forall_cons; [|apply List.Forall_nil]. cbn [snd].
      apply sound_object; [by destruct dbs, ex|]. apply Forall_app.
      split; apply sound_property; intros v Hv.
      * destruct dbs; [|done]. injection Hv as <-. apply sound_strings.
      * destruct ex; [|done]. injection Hv as <-. apply sound_strings.
  - done.
Qed.

(** *** Running [createFiles] *)

Lemma writeFileSync_run path data w loc :
  write_target (files w) (cwd w) path = inr loc →
  free_or_writable (files w !! loc) = true →
  writeFileSync path data w
  = (Normal tt,
     mkWorld (<[loc := File true data]> (files w)) (cwd w) (clock w)
       (console w) (calls w ++ [CallWrite path data])).
Proof.
  intros H Hfree. rewrite writeFileSync_unfold, H. cbv zeta.
  by destruct (files w !! loc) as [[[|] ?|?|? ?]|].
Qed.

Lemma writeFileSync_throws path data w e :
  write_target (files w) (cwd w) path = inl e →
  writeFileSync path data w
  = (Throw e,
     mkWorld (files w) (cwd w) (clock w) (console w)
       (calls w ++ [CallWrite path data])).
Proof. intros H. by rewrite writeFileSync_unfold, H. Qed.

Lemma JSON_stringify_run v text w :
  JSON.stringify v 2 = Some text → JSON_stringify v 2 w = (Normal text, w).
Proof. unfold JSON_stringify. by intros ->. Qed.

Section Writes.

Variable __dirname : string.
Variable number_value : float → JSON.value.
Variable configSettings : Wizard.promptFunctionReturnValues.

Definition directory : string := directory_of __dirname configSettings.
Definition config_path : string := file_in __dirname configSettings "rage.config.json".
Definition package_path : string := file_in __dirname configSettings "package.json".

(** The statements of [createFiles] after the directory is there. *)
Definition write_files : JS unit :=
  text <- JSON_stringify (rageConfigFileData number_value configSettings) 2 ;;
  writeFileSync config_path text ;;
  console_log "Created rage.config.json" ;;
  text <- JSON_stringify (packageJsonData configSettings) 2 ;;
  writeFileSync package_path text ;;
  console_log "Created package.json" ;;
  ret tt.

Lemma createFiles_steps :
  createFiles __dirname number_value configSettings
  = (present <- existsSync directory ;;
     (if present then ret tt
      else mkdirSync directory ;; console_log "Directory created") ;;
     write_files).
Proof. reflexivity. Qed.

Hypothesis dirname_nonempty : __dirname ≠ "".
Hypothesis dirPath_nonempty : Wizard.dirPath configSettings ≠ "".








(** X20. [createFiles] catches nothing: when the directory is not found
    and [mkdirSync] fails, the error is thrown to the caller after the
    two calls, and nothing is written or printed. *)
Theorem createFiles_mkdir_fails (w : World) (e : Error) :
  exists_at (files w) (cwd w) directory = false →
  mkdir_target (files w) (cwd w) directory = inl e →
  createFiles __dirname number_value configSettings w
  = (Throw e,
     mkWorld (files w) (cwd w) (clock w) (console w)
       (calls w ++ [CallExists directory; CallMkdir directory])).
Proof.
  intros Hex Hmk. rewrite createFiles_steps.
  erewrite bind_normal; [|reflexivity]. cbn [files cwd add_call]. rewrite Hex.
  erewrite bind_throw; [reflexivity|].
  unfold mkdirSync, bind, record_call. cbn. rewrite Hmk.
  unfold add_call. cbn. by rewrite <- (assoc_L (++)).
Qed.

(** X21. [createFiles] is not undone by a failure: when the directory
    is there and [rage.config.json] can be written but [package.json]
    cannot (it is a directory or a read-only file), the error of that
    write is thrown to the caller after the configuration was written
    and its line printed; the line about [package.json] is not
    printed. *)
Theorem createFiles_package_fails (w : World) (root : list string) (n : node) :
  (∀ x, Wizard.interval configSettings = Some x →
        json_number (number_value x) = true) →
  is_directory (files w) (cwd w) directory root true →
  free_or_writable (files w !! (root ++ ["rage.config.json"])) = true →
  files w !! (root ++ ["package.json"]) = Some n →
  writable_file n = false →
  ∃ config package,
    JSON.stringify (rageConfigFileData number_value configSettings) 2 = Some config
    ∧ JSON.stringify (packageJsonData configSettings) 2 = Some package
    ∧ createFiles __dirname number_value configSettings w
      = (Throw match n with
               | Dir _ => EISDIR package_path
               | File _ _ | Capped _ _ => EACCES package_path
               end,
         mkWorld (<[root ++ ["rage.config.json"] := File true config]> (files w))
           (cwd w) (clock w) (console w ++ [Log "Created rage.config.json"])
           (calls w ++ [CallExists directory; CallWrite config_path config;
                        CallWrite package_path package])).
Proof.
  intros Hnumber Hdir Hfree1 Hn Hbusy.
  destruct (stringify_some _ (rageConfigFileData_sound number_value configSettings Hnumber))
    as [config Hconfig].
  destruct (stringify_some _ (packageJsonData_sound configSettings))
    as [package Hpackage].
  exists config, package. split; [done|]. split; [done|].
  assert (Hdir' : is_directory (files w) (cwd w) (Path.join [directory]) root true).
  { unfold directory. by rewrite join_directory. }
  assert (Hp1 : config_path = Path.join [directory; "rage.config.json"])
    by (by apply file_in_directory).
  assert (Hp2 : package_path = Path.join [directory; "package.json"])
    by (by apply file_in_directory).
  assert (Hne : root ++ ["rage.config.json"] ≠ root ++ ["package.json"])
    by (by intros [= ?]%app_inv_head).
  rewrite createFiles_steps.
  erewrite bind_normal; [|reflexivity]. cbn [files cwd add_call].
  rewrite (is_directory_exists _ _ _ _ _ Hdir).
  erewrite bind_normal; [|reflexivity]. unfold write_files.
  erewrite bind_normal; [|by apply JSON_stringify_run].
  erewrite bind_normal; cycle 1.
  { apply writeFileSync_run; cbn [files cwd]; [|exact Hfree1]. rewrite Hp1.
    by apply write_in_directory. }
  erewrite bind_normal; [|reflexivity].
  erewrite bind_normal; [|by apply JSON_stringify_run].
  assert (Hthrow : ∀ e,
            match n with
            | Dir _ => EISDIR package_path
            | File _ _ | Capped _ _ => EACCES package_path
            end = e →
            write_target
              (<[root ++ ["rage.config.json"] := File true config]> (files w))
              (cwd w) package_path = inl e).
  { intros e <-. unfold write_target. rewrite Hp2 at 1.
    rewrite (resolve_in_directory _ _ _ _ root true); [|done|done|].
    2:{ apply Writer.is_directory_insert; [done| |apply child_not_parent].
        by apply free_not_directory. }
    rewrite lookup_insert_ne, Hn by done.
    by destruct n as [[|] content|b|limit content]. }
  erewrite bind_throw; cycle 1.
  { apply writeFileSync_throws. cbn [files cwd add_line add_call].
    by apply Hthrow. }
  cbn. by rewrite <- !(assoc_L (++)).
Qed.

End Writes.

Definition fs_package_is_dir : gmap (list string) node :=
  {[ [] := Dir true; ["srv"] := Dir true; ["srv"; "rage"] := Dir true;
     ["srv"; "rage"; "package.json"] := Dir true ]}.

Lemma createFiles_package_fails_witness :
  ∃ config package,
    JSON.stringify (rageConfigFileData integer_value sample_values) 2 = Some config
    ∧ JSON.stringify (packageJsonData sample_values) 2 = Some package
    ∧ createFiles "/srv/rage" integer_value sample_values (world_of fs_package_is_dir)
      = (Throw (EISDIR (package_path "/srv/rage" sample_values)),
         mkWorld (<[["srv"; "rage"; "rage.config.json"] := File true config]>
                    fs_package_is_dir)
           ["home"] (Time.mkDate 0 0) [Log "Created rage.config.json"]
           [CallExists (directory "/srv/rage" sample_values);
            CallWrite (config_path "/srv/rage" sample_values) config;
            CallWrite (package_path "/srv/rage" sample_values) package]).
Proof.
  apply (createFiles_package_fails "/srv/rage" integer_value sample_values
           ltac:(done) ltac:(done) (world_of fs_package_is_dir) ["srv"; "rage"]
           (Dir true)).
  - intros x [= <-]. vm_compute. reflexivity.
  - split; vm_compute; reflexivity.
  - vm_compute. reflexivity.
  - vm_compute. reflexivity.
  - reflexivity.
Defined.


Definition nested_values : Wizard.promptFunctionReturnValues :=
  Wizard.set_dirPath "apps/backup" sample_values.

Lemma createFiles_mkdir_fails_witness :
  createFiles "/srv/rage" integer_value nested_values (world_of fs_script)
  = (Throw (ENOENT "/srv/rage/apps/backup"),
     mkWorld fs_script ["home"] (Time.mkDate 0 0) []
       [CallExists "/srv/rage/apps/backup"; CallMkdir "/srv/rage/apps/backup"]).
Proof.
  apply (createFiles_mkdir_fails "/srv/rage" integer_value nested_values
           (world_of fs_script) (ENOENT "/srv/rage/apps/backup"));
    vm_compute; reflexivity.
Defined.

(** *** The whole script *)

Section StartFacts.

Variable __dirname : string.
Variable Number : string → float.
Variable number_value : float → JSON.value.

(** X22. A run of the script goes one of two ways.  The wizard ends the
    process with status 1, and then no call to [fs] was made: the file
    system is as it was.  Or the answers were accepted, and [createFiles]
    runs on exactly the values of these answers; the run finishes when
    it returns and fails with its error when it throws.  No other error
    escapes. *)
Theorem start_outcomes (t : Wizard.Terminal) (w : World) :
  (∃ t', start __dirname Number number_value t w = Ended 1 t' w)
  ∨ (∃ name dir main package text secret whitelist blacklist out t',
       Wizard.script t
         = Wizard.answers name dir main package text secret whitelist blacklist out
             ++ Wizard.script t'
       ∧ Wizard.acceptable Number name main package text secret = true
       ∧ start __dirname Number number_value t w
         = match createFiles __dirname number_value
                   (Wizard.accepted Number name dir main package text secret
                      whitelist blacklist out) w with
           | (Normal _, w') => Finished t' w'
           | (Throw e, w') => Uncaught e t' w'
           end).
Proof.
  unfold start. pose proof (Wizard.prompt_exit_status Number t) as Hstatus.
  destruct (Wizard.prompt Number t) as [[rv|code|status] t1] eqn:E.
  - right. apply Wizard.prompt_returns_with_body in E. destruct t as [s shown].
    apply Wizard.prompt_body_returned in E
      as (name & dir & main & package & text & secret & whitelist & blacklist
          & out & rest & -> & Hok & -> & ->).
    by exists name, dir, main, package, text, secret, whitelist, blacklist, out,
      (Wizard.mkTerminal rest (shown ++ Wizard.questions)).
  - done.
  - left. subst status. by exists t1.
Qed.

End StartFacts.

End Setup.

(** ** Scope Resolver *)

Module Scope.

(** A target: a database name and a collection name. *)
Definition SyncTarget : Type := string * string.

(** The remote schema: the available databases, each with its
    collections, in the order reported by the source. *)
Definition Schema : Type := list (string * list string).

(** Modelled from the spec: the Scope Resolver [resolve] has no source
    file.  For each available database that is a member of the whitelist,
    in order, each of its collections is emitted, in order, unless the
    pair is a member of the blacklist. *)
Definition resolve (databaseWhitelist : gset string)
    (collectionBlacklist : gset SyncTarget) (availableDatabases : Schema)
    : list SyncTarget :=
  flat_map
    (λ '(db, collections),
       if decide (db ∈ databaseWhitelist) then
         filter (λ target, target ∉ collectionBlacklist)
           (map (λ collection, (db, collection)) collections)
       else [])
    availableDatabases.

(** Modelled from the spec: an entry ["db/col"] of [excludeCollections] is
    split into the pair [(db, col)], at its first slash; an entry without
    a slash names no pair. *)
Fixpoint split_entry (entry : string) : option SyncTarget :=
  match entry with
  | "" => None
  | String c rest =>
      if Ascii.eqb c "/"%char then Some ("", rest)
      else match split_entry rest with
           | Some (db, col) => Some (String c db, col)
           | None => None
           end
  end.

Definition blacklist_of (excludeCollections : list string) : gset SyncTarget :=
  list_to_set (omap split_entry excludeCollections).

Definition whitelist_of (dbs : list string) : gset string := list_to_set dbs.

(** The pair is in the remote schema. *)
Definition available (schema : Schema) (target : SyncTarget) : Prop :=
  ∃ collections, (target.1, collections) ∈ schema ∧ target.2 ∈ collections.

Definition shop_schema : Schema :=
  [("shop", ["users"; "sessions"]); ("logs", ["events"])].

Example resolve_shop :
  resolve (whitelist_of ["shop"]) (blacklist_of ["shop/sessions"]) shop_schema
  = [("shop", "users")].
Proof. vm_compute. reflexivity. Qed.

Example resolve_samples :
  resolve (whitelist_of []) (blacklist_of ["shop/sessions"]) shop_schema = []
  ∧ resolve (whitelist_of ["shop"; "typo"]) (blacklist_of ["logs/events"]) shop_schema
    = [("shop", "users"); ("shop", "sessions")]
  ∧ resolve (whitelist_of ["logs"; "shop"]) (blacklist_of []) shop_schema
    = [("shop", "users"); ("shop", "sessions"); ("logs", "events")].
Proof. vm_compute. done. Qed.

(** The statement that leaves the remote schema out. *)
Definition membership_ignoring_schema : Prop :=
  ∀ (W : gset string) (B : gset SyncTarget) (schema : Schema) (d c : string),
    (d, c) ∈ resolve W B schema ↔ d ∈ W ∧ (d, c) ∉ B.

(** A whitelisted database that the remote does not have yields no
    target. *)
Lemma unknown_database_yields_nothing : ¬ membership_ignoring_schema.
Proof.
  intros H.
  destruct (H (whitelist_of ["ghost"]) ∅ shop_schema "ghost" "users") as [_ Hin].
  assert (Hmem : ("ghost", "users") ∈
                 resolve (whitelist_of ["ghost"]) ∅ shop_schema).
  { apply Hin. split; [|set_solver]. unfold whitelist_of. set_solver. }
  vm_compute in Hmem. inversion Hmem.
Qed.

Lemma elem_of_resolve W B (schema : Schema) (target : SyncTarget) :
  target ∈ resolve W B schema ↔
  available schema target ∧ target.1 ∈ W ∧ target ∉ B.
Proof.
  unfold resolve, available. rewrite list_elem_of_In, in_flat_map. split.
  - intros ([db collections] & Hdb & Hin).
    apply list_elem_of_In in Hdb, Hin.
    destruct (decide (db ∈ W)) as [HW|]; [|by apply elem_of_nil in Hin].
    apply list_elem_of_filter in Hin as [HB Hin].
    apply list_elem_of_fmap in Hin as (collection & -> & Hc).
    split; [by exists collections|done].
  - intros ((collections & Hdb & Hc) & HW & HB).
    exists (target.1, collections). rewrite <- !list_elem_of_In.
    split; [done|]. rewrite decide_True by done.
    apply list_elem_of_filter. split; [done|].
    apply list_elem_of_fmap. exists target.2. split; [by destruct target|done].
Qed.

(** C1, amended. The output of [resolve] contains the target [(d, c)]
    exactly when [c] is a collection of the available database [d], [d]
    is in the whitelist and [(d, c)] is not in the blacklist.  So the
    blacklist only removes targets, an empty whitelist gives no target,
    blacklist entries of databases outside the whitelist change nothing,
    and the shop scenario resolves to the single target (shop, users). *)
Theorem resolve_membership (W : gset string) (B : gset SyncTarget)
    (schema : Schema) :
  (∀ d c, (d, c) ∈ resolve W B schema ↔
          available schema (d, c) ∧ d ∈ W ∧ (d, c) ∉ B) ∧
  (∀ target, target ∈ resolve W B schema → target ∈ resolve W ∅ schema) ∧
  resolve ∅ B schema = [] ∧
  (∀ B' : gset SyncTarget,
     (∀ d c, (d, c) ∈ B' → d ∉ W) →
     ∀ target, target ∈ resolve W (B ∪ B') schema ↔ target ∈ resolve W B schema) ∧
  resolve (whitelist_of ["shop"]) (blacklist_of ["shop/sessions"]) shop_schema
  = [("shop", "users")].
Proof.
  split; [|split; [|split; [|split]]].
  - intros d c. apply (elem_of_resolve W B schema (d, c)).
  - intros target. rewrite !elem_of_resolve. intros (Ha & HW & _).
    by repeat split.
  - unfold resolve. induction schema as [|[db collections] rest IH]; [done|].
    simpl. by rewrite decide_False, IH by set_solver.
  - intros B' Houtside target. rewrite !elem_of_resolve. split.
    + intros (Ha & HW & HB). set_solver.
    + intros (Ha & HW & HB). repeat split; try done.
      intros [HinB|HinB']%elem_of_union; [done|].
      destruct target as [d c]. by apply (Houtside d c HinB').
  - vm_compute. reflexivity.
Qed.

End Scope.
